(** * tree_drawing: the [Tree] class of [tree_drawing/tree.py]

    A shallow embedding of the decision-tree model (construction from a
    dictionary, JSON round trip), of the indentation-driven parser
    [Tree.parse_python] and of the layout computed by [Tree.plot].

    Conventions.
    - A Python [str] is a Rocq [string]; each character stands for the code
      point of the same number (0..255).
    - The dictionaries handled by the class only hold strings, lists and
      dictionaries with string keys: that is the type [pyval].  A [dict] is an
      association list in insertion order; a real Python dictionary has each
      key once ([dict_wf]).
    - Python [int]s are [Z], of any size.  A [float] is a binary64 double:
      the primitive [float] of Rocq, with the operations of the machine.  A
      number of the layout is one or the other ([pynum]), and the arithmetic
      converts an [int] that meets a [float] as Python does.
    - A call that may raise returns a [pyresult]. *)

From Stdlib Require Import Floats String Ascii List ZArith NArith QArith Qpower Bool Lia Lqa Arith.
Import ListNotations.

#[local] Open Scope string_scope.
#[local] Open Scope Z_scope.

(** ** Characters *)

Definition dquote : ascii := "034"%char.
Definition backslash : ascii := "092"%char.
Definition newline : ascii := "010"%char.

Definition code (c : ascii) : N := N_of_ascii c.

Definition in_range (lo hi : N) (c : ascii) : bool :=
  ((lo <=? code c) && (code c <=? hi))%N.

(** [str.isspace] and the class [\s] of [re] on the code points below 256. *)
Definition is_space (c : ascii) : bool :=
  in_range 9 13 c || in_range 28 32 c || (code c =? 133)%N || (code c =? 160)%N.

(** The class [\w] of [re]: alphanumeric code points and the underscore. *)
Definition is_word (c : ascii) : bool :=
  in_range 48 57 c || in_range 65 90 c || in_range 97 122 c || (code c =? 95)%N
  || (code c =? 170)%N || in_range 178 179 c || (code c =? 181)%N
  || in_range 185 186 c || in_range 188 190 c
  || in_range 192 214 c || in_range 216 246 c || in_range 248 255 c.

(** [str.isprintable] on one code point. *)
Definition is_printable (c : ascii) : bool :=
  in_range 32 126 c || (in_range 161 255 c && negb (code c =? 173)%N).

Definition hex_digit (n : N) : ascii :=
  match n with
  | 0 => "0" | 1 => "1" | 2 => "2" | 3 => "3" | 4 => "4" | 5 => "5"
  | 6 => "6" | 7 => "7" | 8 => "8" | 9 => "9" | 10 => "a" | 11 => "b"
  | 12 => "c" | 13 => "d" | 14 => "e" | _ => "f"
  end%N%char.

(** The two lower-case hexadecimal digits of a code point. *)
Definition hex2 (c : ascii) : string :=
  String (hex_digit (code c / 16)) (String (hex_digit (code c mod 16)) "").

(** ** Strings *)

Fixpoint string_rev_onto (s acc : string) : string :=
  match s with
  | EmptyString => acc
  | String c s' => string_rev_onto s' (String c acc)
  end.

Definition string_rev (s : string) : string := string_rev_onto s "".

Fixpoint lstrip (s : string) : string :=
  match s with
  | String c s' => if is_space c then lstrip s' else s
  | EmptyString => s
  end.

(** [s.strip()] *)
Definition strip (s : string) : string :=
  string_rev (lstrip (string_rev (lstrip s))).

Fixpoint string_mem (c : ascii) (s : string) : bool :=
  match s with
  | EmptyString => false
  | String c' s' => Ascii.eqb c c' || string_mem c s'
  end.

Fixpoint string_concat_map (f : ascii -> string) (s : string) : string :=
  match s with
  | EmptyString => ""
  | String c s' => f c ++ string_concat_map f s'
  end.

Fixpoint spaces (n : nat) : string :=
  match n with
  | O => ""
  | S n' => String " " (spaces n')
  end.

(** ** Exceptions *)

Inductive exn : Type :=
| KeyError (msg : string)
| TypeError
| AttributeError
| IndexError
| JSONDecodeError
| RecursionError
| OverflowError.

Inductive pyresult (A : Type) : Type :=
| Ok (a : A)
| Raise (e : exn).

Arguments Ok {A} a.
Arguments Raise {A} e.

Definition bind {A B : Type} (r : pyresult A) (k : A -> pyresult B) : pyresult B :=
  match r with
  | Ok a => k a
  | Raise e => Raise e
  end.

Notation "x <- r ;; k" := (bind r (fun x => k))
  (at level 61, r at next level, right associativity).

(** ** Python values and dictionaries *)

#[local] Unset Elimination Schemes.

Inductive pyval : Type :=
| PStr (s : string)
| PList (l : list pyval)
| PDict (d : list (string * pyval)).

#[local] Set Elimination Schemes.

Section PyvalInduction.
Variable P : pyval -> Prop.
Hypothesis HStr : forall s, P (PStr s).
Hypothesis HList : forall l, Forall P l -> P (PList l).
Hypothesis HDict : forall d, Forall (fun kv => P (snd kv)) d -> P (PDict d).

Fixpoint pyval_ind (v : pyval) : P v :=
  match v with
  | PStr s => HStr s
  | PList l =>
      HList l ((fix all (l : list pyval) : Forall P l :=
                  match l with
                  | [] => Forall_nil _
                  | x :: l' => Forall_cons x (pyval_ind x) (all l')
                  end) l)
  | PDict d =>
      HDict d ((fix all (d : list (string * pyval))
                  : Forall (fun kv => P (snd kv)) d :=
                  match d with
                  | [] => Forall_nil _
                  | kv :: d' => Forall_cons kv (pyval_ind (snd kv)) (all d')
                  end) d)
  end.
End PyvalInduction.

Section Dict.
Context {V : Type}.

(** [d.get(k)] *)
Fixpoint dict_get (k : string) (d : list (string * V)) : option V :=
  match d with
  | [] => None
  | (k', v) :: d' => if String.eqb k' k then Some v else dict_get k d'
  end.

(** [d[k] = v]: an existing key keeps its place and takes the new value. *)
Fixpoint dict_set (k : string) (v : V) (d : list (string * V)) : list (string * V) :=
  match d with
  | [] => [(k, v)]
  | (k', v') :: d' =>
      if String.eqb k' k then (k', v) :: d' else (k', v') :: dict_set k v d'
  end.

Definition dict_keys (d : list (string * V)) : list string := map fst d.
Definition dict_values (d : list (string * V)) : list V := map snd d.

Definition dict_has (k : string) (d : list (string * V)) : bool :=
  match dict_get k d with Some _ => true | None => false end.

Fixpoint keys_unique (d : list (string * V)) : bool :=
  match d with
  | [] => true
  | (k, _) :: d' => negb (dict_has k d') && keys_unique d'
  end.
End Dict.

(** The lookup in continuation form, for the recursive functions on [pyval]:
    [dict_find k some none d] is [some d[k]] when [k] is in [d], else [none]. *)
Definition dict_find {A : Type} (k : string) (some : pyval -> A) (none : A)
  : list (string * pyval) -> A :=
  fix find d :=
    match d with
    | [] => none
    | (k', v) :: d' => if String.eqb k' k then some v else find d'
    end.

(** Every dictionary inside the value has each key once. *)
Fixpoint dict_wf (v : pyval) : bool :=
  match v with
  | PStr _ => true
  | PList l => forallb dict_wf l
  | PDict d => keys_unique d && forallb (fun kv => dict_wf (snd kv)) d
  end.

(** ** [str] and [repr] of a value *)

(** The quote [repr] puts around a string: a double quote when the string
    holds a single quote and no double quote, else a single quote. *)
Definition repr_quote (s : string) : ascii :=
  if string_mem "'"%char s && negb (string_mem dquote s) then dquote else "'"%char.

Definition repr_escape (q c : ascii) : string :=
  if Ascii.eqb c q || Ascii.eqb c backslash then String backslash (String c "")
  else if (code c =? 9)%N then String backslash "t"
  else if (code c =? 10)%N then String backslash "n"
  else if (code c =? 13)%N then String backslash "r"
  else if is_printable c then String c ""
  else String backslash (String "x" (hex2 c)).

Definition repr_str (s : string) : string :=
  let q := repr_quote s in
  String q (string_concat_map (repr_escape q) s ++ String q "").

Fixpoint py_repr (v : pyval) : string :=
  match v with
  | PStr s => repr_str s
  | PList l => "[" ++ String.concat ", " (map py_repr l) ++ "]"
  | PDict d =>
      "{" ++ String.concat ", "
               (map (fun kv => repr_str (fst kv) ++ ": " ++ py_repr (snd kv)) d)
          ++ "}"
  end.

(** [str(v)] *)
Definition py_str (v : pyval) : string :=
  match v with
  | PStr s => s
  | _ => py_repr v
  end.

(** ** [json.dumps(dic, indent=4)] *)

(** One character of a string under [ensure_ascii]. *)
Definition json_escape (c : ascii) : string :=
  if Ascii.eqb c dquote then String backslash (String dquote "")
  else if Ascii.eqb c backslash then String backslash (String backslash "")
  else if (code c =? 10)%N then String backslash "n"
  else if (code c =? 13)%N then String backslash "r"
  else if (code c =? 9)%N then String backslash "t"
  else if (code c =? 8)%N then String backslash "b"
  else if (code c =? 12)%N then String backslash "f"
  else if in_range 32 126 c then String c ""
  else String backslash ("u00" ++ hex2 c).

Definition encode_basestring_ascii (s : string) : string :=
  String dquote (string_concat_map json_escape s ++ String dquote "").

Definition newline_indent (level : nat) : string :=
  String newline (spaces (4 * level)).

Definition item_separator (level : nat) : string := "," ++ newline_indent level.

Fixpoint iterencode (level : nat) (v : pyval) : string :=
  match v with
  | PStr s => encode_basestring_ascii s
  | PList l =>
      match l with
      | [] => "[]"
      | _ :: _ =>
          "[" ++ newline_indent (S level)
              ++ String.concat (item_separator (S level)) (map (iterencode (S level)) l)
              ++ newline_indent level ++ "]"
      end
  | PDict d =>
      match d with
      | [] => "{}"
      | _ :: _ =>
          "{" ++ newline_indent (S level)
              ++ String.concat (item_separator (S level))
                   (map (fun kv => encode_basestring_ascii (fst kv) ++ ": "
                                     ++ iterencode (S level) (snd kv)) d)
              ++ newline_indent level ++ "}"
      end
  end.

Definition dumps (v : pyval) : string := iterencode 0 v.

(** ** The class [Tree] *)

#[local] Unset Elimination Schemes.

Inductive Tree : Type := mkTree {
  json : string;
  content : string;
  children : list (string * Tree);
  height : Z;
  width : Z
}.

#[local] Set Elimination Schemes.

Section TreeInduction.
Variable P : Tree -> Prop.
Hypothesis HTree : forall j c ch h w,
    Forall (fun kv => P (snd kv)) ch -> P (mkTree j c ch h w).

Fixpoint Tree_ind (t : Tree) : P t :=
  match t with
  | mkTree j c ch h w =>
      HTree j c ch h w
        ((fix all (ch : list (string * Tree)) : Forall (fun kv => P (snd kv)) ch :=
            match ch with
            | [] => Forall_nil _
            | kv :: ch' => Forall_cons kv (Tree_ind (snd kv)) (all ch')
            end) ch)
  end.
End TreeInduction.

(** [max(l, default=d)] *)
Definition py_max (l : list Z) (d : Z) : Z :=
  match l with
  | [] => d
  | x :: l' => fold_left Z.max l' x
  end.

(** [sum(l)] *)
Definition py_sum (l : list Z) : Z := fold_left Z.add l 0.

Definition schema_message : string :=
  "Each of the options must have a value and a tree key.".

(** [try: ... except KeyError: raise KeyError(schema_message)] *)
Definition except_KeyError {A : Type} (r : pyresult A) : pyresult A :=
  match r with
  | Raise (KeyError _) => Raise (KeyError schema_message)
  | _ => r
  end.

(** A dictionary key must be hashable: a string is, a list or a dictionary
    is not. *)
Definition hash_key (v : pyval) : pyresult string :=
  match v with
  | PStr s => Ok s
  | _ => Raise TypeError
  end.

(** The dictionary comprehension [{key: value for x in xs}], [entry x] giving
    the key and the value of one [x]. *)
Definition dict_comprehension {V : Type} (entry : pyval -> pyresult (string * V))
  : list pyval -> list (string * V) -> pyresult (list (string * V)) :=
  fix loop xs acc :=
    match xs with
    | [] => Ok acc
    | x :: xs' => kv <- entry x ;; loop xs' (dict_set (fst kv) (snd kv) acc)
    end.

(** [Tree.__init__(self, dic)].  In the comprehension the key [x['value']] is
    evaluated first, then [Tree(x['tree'])], and the key is hashed when the
    pair is stored.  Iterating a string yields its characters and iterating a
    dictionary its keys, all strings, on which [x['value']] is a [TypeError]. *)
Fixpoint Tree_init (dic : pyval) : pyresult Tree :=
  match dic with
  | PDict d =>
      let json := dumps dic in
      let content := py_str (dict_find "content" (fun v => v) (PStr "") d) in
      children <-
        except_KeyError
          (dict_find "options"
             (fun options =>
                match options with
                | PList xs =>
                    dict_comprehension
                      (fun x =>
                         match x with
                         | PDict e =>
                             dict_find "value"
                               (fun value =>
                                  dict_find "tree"
                                    (fun tree =>
                                       child <- Tree_init tree ;;
                                       key <- hash_key value ;;
                                       Ok (key, child))
                                    (Raise (KeyError "tree")) e)
                               (Raise (KeyError "value")) e
                         | _ => Raise TypeError
                         end)
                      xs []
                | PStr "" => Ok []
                | PDict [] => Ok []
                | _ => Raise TypeError
                end)
             (Ok []) d) ;;
      let height := py_max (map height (dict_values children)) 0 + 1 in
      let width :=
        match children with
        | [] => 1
        | _ :: _ => py_sum (map width (dict_values children))
        end in
      Ok (mkTree json content children height width)
  | _ => Raise AttributeError
  end.

(** ** [json.loads] on strings, arrays and objects

    The decoder of the standard library, restricted to the values of
    [pyval]: a number, [null], [true], [false] or an escape above code point 255
    gives [None], as a malformed text does. *)

Definition is_json_space (c : ascii) : bool :=
  (code c =? 32)%N || (code c =? 9)%N || (code c =? 10)%N || (code c =? 13)%N.

Fixpoint skip_space (s : string) : string :=
  match s with
  | String c s' => if is_json_space c then skip_space s' else s
  | EmptyString => s
  end.

Definition hex_value (c : ascii) : option N :=
  if in_range 48 57 c then Some (code c - 48)%N
  else if in_range 97 102 c then Some (code c - 87)%N
  else if in_range 65 70 c then Some (code c - 55)%N
  else None.

Definition hex4 (h1 h2 h3 h4 : ascii) : option N :=
  match hex_value h1, hex_value h2, hex_value h3, hex_value h4 with
  | Some a, Some b, Some c, Some d => Some (((a * 16 + b) * 16 + c) * 16 + d)%N
  | _, _, _, _ => None
  end.

(** The character a one-letter escape stands for. *)
Definition unescape (e : ascii) : option ascii :=
  if Ascii.eqb e dquote then Some dquote
  else if Ascii.eqb e backslash then Some backslash
  else if Ascii.eqb e "/" then Some "/"%char
  else if Ascii.eqb e "b" then Some "008"%char
  else if Ascii.eqb e "f" then Some "012"%char
  else if Ascii.eqb e "n" then Some newline
  else if Ascii.eqb e "r" then Some "013"%char
  else if Ascii.eqb e "t" then Some "009"%char
  else None.

Definition cons_char (c : ascii) (r : option (string * string)) : option (string * string) :=
  match r with
  | Some (s, rest) => Some (String c s, rest)
  | None => None
  end.

(** [scanstring], after the opening quote: the decoded string and the text
    after the closing quote.  A raw control character is refused. *)
Fixpoint scanstring (s : string) : option (string * string) :=
  match s with
  | EmptyString => None
  | String c s1 =>
      if Ascii.eqb c dquote then Some ("", s1)
      else if Ascii.eqb c backslash then
        match s1 with
        | EmptyString => None
        | String e s2 =>
            if Ascii.eqb e "u" then
              match s2 with
              | String h1 (String h2 (String h3 (String h4 s3))) =>
                  match hex4 h1 h2 h3 h4 with
                  | Some n =>
                      if (n <? 256)%N then cons_char (ascii_of_N n) (scanstring s3)
                      else None
                  | None => None
                  end
              | _ => None
              end
            else
              match unescape e with
              | Some ch => cons_char ch (scanstring s2)
              | None => None
              end
        end
      else if (code c <? 32)%N then None
      else cons_char c (scanstring s1)
  end.

(** [scan_once] with its two loops; [fuel] bounds the nesting and the number
    of items, and [loads] gives enough of it for any text (lemma
    [loads_fuel_enough]).  [parse_array] and [parse_object] start at the
    first item, the empty array and object being recognised by
    [scan_once]. *)
Fixpoint scan_once (fuel : nat) (s : string) {struct fuel} : option (pyval * string) :=
  match fuel with
  | O => None
  | S fuel' =>
      match s with
      | EmptyString => None
      | String c s1 =>
          if Ascii.eqb c dquote then
            match scanstring s1 with
            | Some (str, rest) => Some (PStr str, rest)
            | None => None
            end
          else if Ascii.eqb c "{" then
            match skip_space s1 with
            | EmptyString => None
            | String c' s2 =>
                if Ascii.eqb c' "}" then Some (PDict [], s2)
                else parse_object fuel' (String c' s2) []
            end
          else if Ascii.eqb c "[" then
            match skip_space s1 with
            | EmptyString => None
            | String c' s2 =>
                if Ascii.eqb c' "]" then Some (PList [], s2)
                else parse_array fuel' (String c' s2) []
            end
          else None
      end
  end

with parse_array (fuel : nat) (s : string) (acc : list pyval) {struct fuel}
  : option (pyval * string) :=
  match fuel with
  | O => None
  | S fuel' =>
      match scan_once fuel' s with
      | None => None
      | Some (v, s1) =>
          match skip_space s1 with
          | EmptyString => None
          | String c s2 =>
              if Ascii.eqb c "]" then Some (PList (acc ++ [v]), s2)
              else if Ascii.eqb c "," then parse_array fuel' (skip_space s2) (acc ++ [v])
              else None
          end
      end
  end

with parse_object (fuel : nat) (s : string) (acc : list (string * pyval)) {struct fuel}
  : option (pyval * string) :=
  match fuel with
  | O => None
  | S fuel' =>
      match s with
      | EmptyString => None
      | String q s1 =>
          if Ascii.eqb q dquote then
            match scanstring s1 with
            | None => None
            | Some (key, s2) =>
                match skip_space s2 with
                | EmptyString => None
                | String colon s3 =>
                    if Ascii.eqb colon ":" then
                      match scan_once fuel' (skip_space s3) with
                      | None => None
                      | Some (v, s4) =>
                          match skip_space s4 with
                          | EmptyString => None
                          | String c s5 =>
                              if Ascii.eqb c "}" then Some (PDict (dict_set key v acc), s5)
                              else if Ascii.eqb c "," then
                                parse_object fuel' (skip_space s5) (dict_set key v acc)
                              else None
                          end
                      end
                    else None
                end
            end
          else None
      end
  end.

(** [json.loads(s)]: one value, with only white space around it. *)
Definition loads (s : string) : option pyval :=
  match scan_once (S (2 * String.length s)) (skip_space s) with
  | Some (v, rest) =>
      match skip_space rest with
      | EmptyString => Some v
      | String _ _ => None
      end
  | None => None
  end.

(** [Tree.to_json(self, path)]: the text written to the file. *)
Definition to_json (t : Tree) : string := json t.

(** [Tree.from_json(cls, path)], from the text of the file. *)
Definition from_json (text : string) : pyresult Tree :=
  match loads text with
  | Some dic => Tree_init dic
  | None => Raise JSONDecodeError
  end.

(** ** The regular expressions of [parse_python]

    Each pattern is anchored at the start of the line by [^] and begins with
    the indentation found on the first line, which only holds white space
    and so stands for itself in the pattern. *)

(** The indentation of a line: group 1 of the search for white space, as
    much as there is, at the start of [s]. *)
Fixpoint leading_space (s : string) : string :=
  match s with
  | String c s' => if is_space c then String c (leading_space s') else ""
  | EmptyString => ""
  end.

(** What follows the prefix [p] in [s], when [s] starts with [p]. *)
Fixpoint strip_prefix (p s : string) : option string :=
  match p with
  | EmptyString => Some s
  | String a p' =>
      match s with
      | String b s' => if Ascii.eqb a b then strip_prefix p' s' else None
      | EmptyString => None
      end
  end.

(** The characters [.] can match from the start of [s]: up to the first
    line feed. *)
Fixpoint line_head (s : string) : string :=
  match s with
  | String c s' => if Ascii.eqb c newline then "" else String c (line_head s')
  | EmptyString => ""
  end.

(** The text before the last colon of [s]. *)
Fixpoint before_last_colon (s : string) : option string :=
  match s with
  | EmptyString => None
  | String c s' =>
      match before_last_colon s' with
      | Some g => Some (String c g)
      | None => if Ascii.eqb c ":" then Some "" else None
      end
  end.

(** The group of [(.+):] matched at the start of [s]: [.+] is greedy, so the
    group runs to the last colon of the line, and it is not empty. *)
Definition group_colon (s : string) : option string :=
  match before_last_colon (line_head s) with
  | Some (String c g) => Some (String c g)
  | _ => None
  end.

(** The group of [\s+(.+):] matched at the start of [s]: [\s+] takes as much
    white space as it can and gives some back when the rest fails. *)
Fixpoint spaces_group_colon (s : string) : option string :=
  match s with
  | String c s' =>
      if is_space c then
        match spaces_group_colon s' with
        | Some g => Some g
        | None => group_colon s'
        end
      else None
  | EmptyString => None
  end.

(** [re.search(f'^{indent}if\\b', line)] *)
Definition search_if_word (indent line : string) : bool :=
  match strip_prefix (indent ++ "if") line with
  | Some (String c _) => negb (is_word c)
  | Some EmptyString => true
  | None => false
  end.

(** [re.search(f'^{indent}if\\s(.+):', line)], with its group. *)
Definition search_if (indent line : string) : option string :=
  match strip_prefix (indent ++ "if") line with
  | Some (String c rest) => if is_space c then group_colon rest else None
  | _ => None
  end.

(** [re.search(f'^{indent}\\s+', line)] *)
Definition search_body (indent line : string) : bool :=
  match strip_prefix indent line with
  | Some (String c _) => is_space c
  | _ => false
  end.

(** [re.search(f'^{indent}elif\\s+(.+):', line)], with its group. *)
Definition search_elif (indent line : string) : option string :=
  match strip_prefix (indent ++ "elif") line with
  | Some rest => spaces_group_colon rest
  | None => None
  end.

(** [re.search(f'^{indent}else', line)] *)
Definition search_else (indent line : string) : bool :=
  match strip_prefix (indent ++ "else") line with
  | Some _ => true
  | None => false
  end.

(** ** [Tree.parse_python] *)

(** The label of the default clause. *)
Definition default_label : string := "else".

(** The local variables of the loop over the lines. *)
Record scan_state : Type := mkScan {
  permeated : list string;
  subtrees : list (option string * list string);
  initial_clause : option string;
  cur_clause : option string;
  cur_subtree : list string;
  start : bool
}.

Definition scan_init (carried : list string) : scan_state :=
  mkScan carried [] None None [] false.

(** One turn of [for line in code]. *)
Definition scan_line (indent : string) (st : scan_state) (line : string) : scan_state :=
  if negb (start st) && negb (search_if_word indent line) then
    mkScan (permeated st ++ [line]) (subtrees st) (initial_clause st)
           (cur_clause st) (cur_subtree st) (start st)
  else
    match search_if indent line with
    | Some clause =>
        mkScan (permeated st) (subtrees st)
               (match initial_clause st with
                | None => Some clause
                | Some c => Some c
                end)
               (Some clause) (cur_subtree st) true
    | None =>
        if start st && search_body indent line then
          mkScan (permeated st) (subtrees st) (initial_clause st)
                 (cur_clause st) (cur_subtree st ++ [line]) (start st)
        else
          match (if start st then search_elif indent line else None) with
          | Some clause =>
              mkScan (permeated st) (subtrees st ++ [(cur_clause st, cur_subtree st)])
                     (initial_clause st) (Some clause) [] (start st)
          | None =>
              if start st && search_else indent line then
                mkScan (permeated st) (subtrees st ++ [(cur_clause st, cur_subtree st)])
                       (initial_clause st) (Some default_label) [] (start st)
              else st
          end
    end.

(** The whole loop, with the [else] of the [for], which always runs since the
    loop has no [break]. *)
Definition scan_lines (indent : string) (code carried : list string) : scan_state :=
  let st := fold_left (scan_line indent) code (scan_init carried) in
  mkScan (permeated st) (subtrees st ++ [(cur_clause st, cur_subtree st)])
         (initial_clause st) (cur_clause st) (cur_subtree st) (start st).

Definition nonempty {A : Type} (l : list A) : bool :=
  match l with
  | [] => false
  | _ :: _ => true
  end.

(** The label kept under the key [value].  A clause is [None] only while no [if] has
    been seen, when the body is empty and the pair is filtered out (lemma
    [scan_lines_labelled]). *)
Definition clause_label (clause : option string) : pyval :=
  match clause with
  | Some c => PStr c
  | None => PStr ""
  end.

(** A list comprehension whose items may raise. *)
Fixpoint list_comprehension {A B : Type} (f : A -> pyresult B) (l : list A)
  : pyresult (list B) :=
  match l with
  | [] => Ok []
  | x :: l' => y <- f x ;; ys <- list_comprehension f l' ;; Ok (y :: ys)
  end.

(** [parse_python(code, permeated)] with a list [carried] for [permeated].
    Each call on a body is on fewer lines than [code]; [fuel] bounds the
    nesting, and running out of it is reported as [RecursionError], which
    the fuel [parse_python] gives excludes (lemmas [parse_python_rec_stable]
    and [parse_python_rec_returns]). *)
Fixpoint parse_python_rec (fuel : nat) (code carried : list string) : pyresult pyval :=
  match fuel with
  | O => Raise RecursionError
  | S fuel' =>
      match code with
      | [] => Raise IndexError
      | first :: _ =>
          let indent := leading_space first in
          let st := scan_lines indent code carried in
          options <-
            list_comprehension
              (fun x =>
                 tree <- parse_python_rec fuel' (snd x) (permeated st) ;;
                 Ok (PDict [("value", clause_label (fst x)); ("tree", tree)]))
              (filter (fun x => nonempty (snd x)) (subtrees st)) ;;
          match initial_clause st with
          | Some clause =>
              Ok (PDict [("content", PStr (strip clause)); ("options", PList options)])
          | None =>
              Ok (PDict [("content",
                          PStr (String.concat (String newline "") (map strip (permeated st))))])
          end
      end
  end.

(** [Tree.parse_python(code, permeated=None)]; the copies [permeated[:]]
    handed to the recursive calls make the list a plain value. *)
Definition parse_python (code : list string) (carried : option (list string))
  : pyresult pyval :=
  parse_python_rec (S (List.length code)) code
    (match carried with
     | None => []
     | Some p => p
     end).

(** [Tree.from_python(cls, path)], from the lines of the file. *)
Definition from_python (code : list string) : pyresult Tree :=
  dic <- parse_python code None ;; Tree_init dic.

(** ** Numbers: Python [int] and [float] *)

(** A number handed to [plot] is an [int], of any size, or a [float]: a
    binary64 double of the machine, with the operations of the machine,
    which round to the nearest double, ties to even. *)
Inductive pynum : Type :=
| PInt (z : Z)
| PFloat (f : float).

(** The conversion of an [int] operand that meets a [float]: the nearest
    double, ties to even, and [OverflowError] when the [int] is beyond the
    doubles. *)
Definition float_of_int (z : Z) : pyresult float :=
  match binary_normalize prec emax z 0 false with
  | S754_infinity _ => Raise OverflowError
  | x => Ok (SF2Prim x)
  end.

Definition as_float (a : pynum) : pyresult float :=
  match a with
  | PInt z => float_of_int z
  | PFloat f => Ok f
  end.

(** A binary operation: on two [int]s that of the integers, which is exact;
    otherwise that of the doubles, an [int] operand being converted. *)
Definition py_binop (on_int : Z -> Z -> Z) (on_float : float -> float -> float)
  (a b : pynum) : pyresult pynum :=
  match a, b with
  | PInt x, PInt y => Ok (PInt (on_int x y))
  | _, _ => x <- as_float a ;; y <- as_float b ;; Ok (PFloat (on_float x y))
  end.

(** [a + b], [a - b] and [a * b] *)
Definition py_add : pynum -> pynum -> pyresult pynum := py_binop Z.add PrimFloat.add.
Definition py_sub : pynum -> pynum -> pyresult pynum := py_binop Z.sub PrimFloat.sub.
Definition py_mul : pynum -> pynum -> pyresult pynum := py_binop Z.mul PrimFloat.mul.

(** [- a] *)
Definition py_neg (a : pynum) : pynum :=
  match a with
  | PInt z => PInt (- z)
  | PFloat f => PFloat (PrimFloat.opp f)
  end.

(** [a / 2.0]: always a [float]. *)
Definition py_half (a : pynum) : pyresult pynum :=
  x <- as_float a ;; Ok (PFloat (PrimFloat.div x 2%float)).

(** What a number stands for: a rational, an infinity, or nothing for the
    [float] that is not a number. *)
Inductive extended : Type :=
| NotANumber
| Infinite (negative : bool)
| Finite (q : Q).

Definition extended_of (a : pynum) : extended :=
  match a with
  | PInt z => Finite (inject_Z z)
  | PFloat f =>
      match Prim2SF f with
      | S754_nan => NotANumber
      | S754_infinity s => Infinite s
      | S754_zero _ => Finite 0
      | S754_finite s m e =>
          Finite (inject_Z (if s then Zneg m else Zpos m) * Qpower 2 e)
      end
  end.

(** The rational a finite number stands for. *)
Definition value (a : pynum) : option Q :=
  match extended_of a with
  | Finite q => Some q
  | _ => None
  end.

(** [a > b]: numbers are compared by what they stand for, an [int] with a
    [float] too, and no comparison holds of the [float] that is not a
    number. *)
Definition py_gt (a b : pynum) : bool :=
  match extended_of a, extended_of b with
  | NotANumber, _ | _, NotANumber => false
  | Finite p, Finite q =>
      match Qcompare p q with
      | Gt => true
      | _ => false
      end
  | Infinite false, Infinite false => false
  | Infinite false, _ => true
  | Finite _, Infinite true => true
  | _, _ => false
  end.

(** ** Layout: [compute_total_width], [compute_total_height] and [plot] *)

Definition compute_total_width (t : Tree) (node_width gap_width : pynum)
  : pyresult pynum :=
  a <- py_mul (PInt (width t)) node_width ;;
  b <- py_mul (PInt (width t - 1)) gap_width ;;
  py_add a b.

Definition compute_total_height (t : Tree) (node_height gap_height : pynum)
  : pyresult pynum :=
  a <- py_mul (PInt (height t)) node_height ;;
  b <- py_mul (PInt (height t - 1)) gap_height ;;
  py_add a b.

(** The keyword arguments of [plot] that are handed down unchanged. *)
Record style : Type := mkStyle {
  node_width : pynum;
  node_height : pynum;
  gap_width : pynum;
  gap_height : pynum;
  node_color : string;
  text_color : string;
  arrow_label_color : string;
  arrow_color : string
}.

(** The default values of the keyword arguments. *)
Definition default_style : style :=
  mkStyle (PInt 30) (PInt 20) (PInt 10) (PInt 30) "#0377fc" "white" "black" "red".

Inductive halign : Type := ha_center | ha_left | ha_right.
Inductive valign : Type := va_center | va_bottom.

(** What the calls on the axes leave on it, in the order of the calls. *)
Inductive artist : Type :=
| set_xlim (lo hi : pynum)
| set_ylim (lo hi : pynum)
| axis_off
| Ellipse (x y w h : pynum) (color : string)
| text (x y : pynum) (s : string) (ha : halign) (va : valign)
       (color : string) (fontsize : Z) (bold : bool)
| arrow (x y dx dy : pynum) (color : string).

Definition axes : Type := list artist.

Inductive figure : Type := Figure.

(** [total_width / 2.0 + x_init], the abscissa of the centre of a node. *)
Definition centre_x (total_width x_init : pynum) : pyresult pynum :=
  half <- py_half total_width ;; py_add half x_init.

(** [-node_height / 2.0 + y_init], the ordinate of the centre of a node. *)
Definition centre_y (st : style) (y_init : pynum) : pyresult pynum :=
  half <- py_half (py_neg (node_height st)) ;; py_add half y_init.

(** [x_label], the abscissa the label of an edge is placed around. *)
Definition label_x (st : style) (total_width x_init x_exit : pynum) (child : Tree)
  : pyresult pynum :=
  x <- centre_x total_width x_init ;;
  s <- py_add x x_exit ;;
  child_width <- compute_total_width child (node_width st) (gap_width st) ;;
  half <- py_half child_width ;;
  s <- py_add s half ;;
  py_half s.

(** [y_label = -node_height - gap_height / 2.0 + y_init] *)
Definition label_y (st : style) (y_init : pynum) : pyresult pynum :=
  half <- py_half (gap_height st) ;;
  d <- py_sub (py_neg (node_height st)) half ;;
  py_add d y_init.

(** The label of the edge to one child: [ax.text] in one of the two
    branches on [x_label]. *)
Definition edge_label (st : style) (total_width x_init y_init x_exit : pynum)
  (name : string) (child : Tree) : pyresult artist :=
  x_label <- label_x st total_width x_init x_exit child ;;
  y_label <- label_y st y_init ;;
  x <- centre_x total_width x_init ;;
  if py_gt x_label x then
    lx <- py_add x_label (PInt 2) ;;
    Ok (text lx y_label name ha_left va_bottom (arrow_label_color st) 6 false)
  else
    lx <- py_sub x_label (PInt 2) ;;
    Ok (text lx y_label name ha_right va_bottom (arrow_label_color st) 6 false).

(** [ax.arrow] from the bottom of the node to the top of one child. *)
Definition edge_arrow (st : style) (total_width x_init y_init x_exit : pynum)
  (child : Tree) : pyresult artist :=
  x <- centre_x total_width x_init ;;
  y <- py_add (py_neg (node_height st)) y_init ;;
  child_width <- compute_total_width child (node_width st) (gap_width st) ;;
  half <- py_half child_width ;;
  cx <- py_add x_exit half ;;
  x' <- centre_x total_width x_init ;;
  dx <- py_sub cx x' ;;
  Ok (arrow x y dx (py_neg (gap_height st)) (arrow_color st)).

(** [x_exit += child.compute_total_width(node_width, gap_width) + gap_width] *)
Definition next_x_exit (st : style) (x_exit : pynum) (child : Tree) : pyresult pynum :=
  child_width <- compute_total_width child (node_width st) (gap_width st) ;;
  step <- py_add child_width (gap_width st) ;;
  py_add x_exit step.

(** [for name, child in self.children.items()], [plot_child] being the
    recursive call [child.plot] at the abscissa [x_exit]. *)
Definition plot_children (st : style) (total_width x_init y_init : pynum)
  (plot_child : pynum -> Tree -> axes -> pyresult axes)
  : list (string * Tree) -> pynum -> axes -> pyresult axes :=
  fix loop items x_exit ax :=
    match items with
    | [] => Ok ax
    | (name, child) :: items' =>
        label <- edge_label st total_width x_init y_init x_exit name child ;;
        let ax := (ax ++ [label])%list in
        arr <- edge_arrow st total_width x_init y_init x_exit child ;;
        let ax := (ax ++ [arr])%list in
        ax <- plot_child x_exit child ax ;;
        x_exit <- next_x_exit st x_exit child ;;
        loop items' x_exit ax
    end.

(** [y_init - node_height - gap_height], the [y_init] of the children. *)
Definition child_y (st : style) (y_init : pynum) : pyresult pynum :=
  y <- py_sub y_init (node_height st) ;; py_sub y (gap_height st).

(** The body of [plot] once the axes exists: what the call adds to [ax].
    Each call computes the two totals before anything else. *)
Fixpoint plot_on (st : style) (x_init y_init : pynum) (t : Tree) (ax : axes) {struct t}
  : pyresult axes :=
  total_width <- compute_total_width t (node_width st) (gap_width st) ;;
  total_height <- compute_total_height t (node_height st) (gap_height st) ;;
  x <- centre_x total_width x_init ;;
  y <- centre_y st y_init ;;
  let ax :=
    (ax ++ [Ellipse x y (node_width st) (node_height st) (node_color st)])%list in
  let ax :=
    (ax ++ [text x y (content t) ha_center va_center (text_color st) 8 true])%list in
  plot_children st total_width x_init y_init
    (fun x_exit child ax =>
       y_child <- child_y st y_init ;;
       plot_on st x_exit y_child child ax)
    (children t) x_init ax.

(** [Tree.plot(self, ..., x_init, y_init, fig, ax, ...)], returning
    [(fig, ax)].  A figure and an axes are objects, hence true; without both
    the call makes them and sets the limits.  With a figure and no axes,
    [ax.add_patch] is an attribute of [None]. *)
Definition plot (st : style) (x_init y_init : pynum) (fig : option figure)
  (ax : option axes) (t : Tree) : pyresult (option figure * axes) :=
  total_width <- compute_total_width t (node_width st) (gap_width st) ;;
  total_height <- compute_total_height t (node_height st) (gap_height st) ;;
  match fig, ax with
  | None, None =>
      let ax0 :=
        [set_xlim (PInt (-10)) total_width;
         set_ylim (py_neg total_height) (PInt 10);
         axis_off] in
      ax1 <- plot_on st x_init y_init t ax0 ;;
      Ok (Some Figure, ax1)
  | Some _, None => Raise AttributeError
  | _, Some ax0 =>
      ax1 <- plot_on st x_init y_init t ax0 ;;
      Ok (fig, ax1)
  end.

(** ** Notions used in the statements *)

(** The nodes of a tree: the tree itself and the nodes of its children. *)
Fixpoint nodes (t : Tree) : list Tree :=
  t :: flat_map (fun kv => nodes (snd kv)) (children t).

Definition Zsum (l : list Z) : Z := fold_right Z.add 0 l.

(** The typing of the serialized format, a key being free to be absent:
    a record is a dictionary, its options a list of dictionaries, the value
    of an option a string and its tree a record. *)
Fixpoint record_shape (v : pyval) : bool :=
  match v with
  | PDict d =>
      dict_find "options"
        (fun options =>
           match options with
           | PList xs =>
               forallb
                 (fun x =>
                    match x with
                    | PDict e =>
                        dict_find "value"
                          (fun value => match value with PStr _ => true | _ => false end)
                          true e
                        && dict_find "tree" record_shape true e
                    | _ => false
                    end)
                 xs
           | _ => false
           end)
        true d
  | _ => false
  end.

(** Every option, at every depth, has both its value and its tree. *)
Fixpoint entries_complete (v : pyval) : bool :=
  match v with
  | PDict d =>
      dict_find "options"
        (fun options =>
           match options with
           | PList xs =>
               forallb
                 (fun x =>
                    match x with
                    | PDict e =>
                        dict_has "value" e && dict_find "tree" entries_complete false e
                    | _ => true
                    end)
                 xs
           | _ => true
           end)
        true d
  | _ => true
  end.

(** The label of an option, when it is a dictionary with a string value. *)
Definition entry_label (x : pyval) : option string :=
  match x with
  | PDict e =>
      match dict_get "value" e with
      | Some (PStr s) => Some s
      | _ => None
      end
  | _ => None
  end.

Definition entry_tree (x : pyval) : option pyval :=
  match x with
  | PDict e => dict_get "tree" e
  | _ => None
  end.

Definition has_label (label : string) (x : pyval) : bool :=
  match entry_label x with
  | Some s => String.eqb s label
  | None => false
  end.

(** The last option of the list that carries the label. *)
Definition last_with_label (label : string) (xs : list pyval) : option pyval :=
  find (has_label label) (rev xs).

(** ** [Tree.__init__] in terms of [dict_get] *)

(** The key and the value the comprehension computes for one option. *)
Definition build_entry (x : pyval) : pyresult (string * Tree) :=
  match x with
  | PDict e =>
      match dict_get "value" e with
      | None => Raise (KeyError "value")
      | Some value =>
          match dict_get "tree" e with
          | None => Raise (KeyError "tree")
          | Some tree =>
              child <- Tree_init tree ;;
              key <- hash_key value ;;
              Ok (key, child)
          end
      end
  | _ => Raise TypeError
  end.

(** The comprehension over [dic.get('options', [])]. *)
Definition build_children (options : pyval) : pyresult (list (string * Tree)) :=
  match options with
  | PList xs => dict_comprehension build_entry xs []
  | PStr "" => Ok []
  | PDict [] => Ok []
  | _ => Raise TypeError
  end.

(** The attributes set once the children are built. *)
Definition make_node (d : list (string * pyval)) (ch : list (string * Tree)) : Tree :=
  mkTree (dumps (PDict d))
         (py_str (match dict_get "content" d with Some v => v | None => PStr "" end))
         ch
         (py_max (map height (dict_values ch)) 0 + 1)
         (match ch with
          | [] => 1
          | _ :: _ => py_sum (map width (dict_values ch))
          end).

(** What the constructor establishes at a node: a leaf is one by one; a
    node with children is as wide as its children together and one level
    higher than the highest of them. *)
Definition node_invariant (n : Tree) : Prop :=
  let cs := dict_values (children n) in
  (cs = [] -> width n = 1 /\ height n = 1)
  /\ (cs <> [] ->
      width n = Zsum (map width cs)
      /\ (exists c, In c cs /\ height n = 1 + height c)
      /\ (forall c, In c cs -> 1 + height c <= height n))
  /\ 1 <= width n /\ 1 <= height n.

(** The typing and the completeness of one option, as [record_shape] and
    [entries_complete] ask for them. *)
Definition entry_shape (x : pyval) : bool :=
  match x with
  | PDict e =>
      match dict_get "value" e with
      | Some (PStr _) | None => true
      | Some _ => false
      end
      && match dict_get "tree" e with
         | Some tree => record_shape tree
         | None => true
         end
  | _ => false
  end.

Definition entry_complete (x : pyval) : bool :=
  match x with
  | PDict e =>
      dict_has "value" e
      && match dict_get "tree" e with
         | Some tree => entries_complete tree
         | None => false
         end
  | _ => true
  end.

(** The number of values in a value, each item of a list or dictionary
    counting once more: enough fuel for [scan_once] to read it back. *)
Fixpoint pyval_size (v : pyval) : nat :=
  match v with
  | PStr _ => 1
  | PList l => S (list_sum (map (fun x => S (pyval_size x)) l))
  | PDict d => S (list_sum (map (fun kv => S (pyval_size (snd kv))) d))
  end.

(** What holds of the variables of the loop after [k] lines: before the
    first [if] nothing has been collected; after it the current clause is
    set and each body is shorter than the lines read. *)
Definition scan_invariant (k : nat) (st : scan_state) : Prop :=
  (start st = false ->
   cur_subtree st = [] /\ subtrees st = [])
  /\ (start st = true ->
      cur_clause st <> None
      /\ (List.length (cur_subtree st) < k)%nat
      /\ Forall (fun x => fst x <> None /\ (List.length (snd x) < k)%nat) (subtrees st)).

(** The abscissa [x_exit] has reached once the children [done] are drawn. *)
Fixpoint x_exit_after (st : style) (x_exit : pynum) (done : list (string * Tree))
  : pyresult pynum :=
  match done with
  | [] => Ok x_exit
  | kv :: done' =>
      x_exit <- next_x_exit st x_exit (snd kv) ;;
      x_exit_after st x_exit done'
  end.

(** A drawing step that only adds to the axes: what it draws, and whether
    it raises, is the same on every axes. *)
Definition appends (draw : axes -> pyresult axes) : Prop :=
  forall ax, draw ax = (drawn <- draw [] ;; Ok (ax ++ drawn)%list).

(** ** Numbers in the statements *)

(** Whether the number [a] stands for the rational [q]. *)
Definition stands_for (a : pynum) (q : Q) : bool :=
  match value a with
  | Some r => Qeq_bool r q
  | None => false
  end.

(** An operation on [a] and [b] gave [c] without rounding: [c] stands for
    [op] of what [a] and [b] stand for. *)
Definition exact2 (op : Q -> Q -> Q) (a b c : pynum) : bool :=
  match value a, value b with
  | Some p, Some q => stands_for c (op p q)
  | _, _ => false
  end.

Definition exact1 (op : Q -> Q) (a c : pynum) : bool :=
  match value a with
  | Some p => stands_for c (op p)
  | None => false
  end.

Definition Qhalf (q : Q) : Q := (q / 2)%Q.

(** No rounding in the abscissas about the edge from the node [t], drawn at
    [x_init], to [child], drawn at [x_exit]: in the two sums and the halving
    that make [x_label] of the centre of the node, in the sum that makes the
    centre of the child, and in the move of the label by 2. *)
Definition label_x_exact (st : style) (t : Tree) (x_init x_exit : pynum) (child : Tree)
  : bool :=
  match
    (total_width <- compute_total_width t (node_width st) (gap_width st) ;;
     x <- centre_x total_width x_init ;;
     s1 <- py_add x x_exit ;;
     child_width <- compute_total_width child (node_width st) (gap_width st) ;;
     half <- py_half child_width ;;
     s2 <- py_add s1 half ;;
     x_label <- py_half s2 ;;
     cx <- py_add half x_exit ;;
     right <- py_add x_label (PInt 2) ;;
     left <- py_sub x_label (PInt 2) ;;
     Ok (exact2 Qplus x x_exit s1
         && exact2 Qplus s1 half s2
         && exact1 Qhalf s2 x_label
         && exact2 Qplus half x_exit cx
         && exact2 Qplus x_label (PInt 2) right
         && exact2 Qminus x_label (PInt 2) left))
  with
  | Ok b => b
  | Raise _ => false
  end.

(** No rounding in the ordinates about an edge from a node drawn at
    [y_init]: in the centre of the node, in the [y_init] and the centre of
    the child, and in [y_label]. *)
Definition label_y_exact (st : style) (y_init : pynum) : bool :=
  match
    (let up := py_neg (node_height st) in
     half <- py_half up ;;
     y <- py_add half y_init ;;
     y1 <- py_sub y_init (node_height st) ;;
     y_child <- py_sub y1 (gap_height st) ;;
     cy <- py_add half y_child ;;
     half_gap <- py_half (gap_height st) ;;
     d <- py_sub up half_gap ;;
     y_label <- py_add d y_init ;;
     Ok (exact1 Qopp (node_height st) up
         && exact1 Qhalf up half
         && exact2 Qplus half y_init y
         && exact2 Qminus y_init (node_height st) y1
         && exact2 Qminus y1 (gap_height st) y_child
         && exact2 Qplus half y_child cy
         && exact1 Qhalf (gap_height st) half_gap
         && exact2 Qminus up half_gap d
         && exact2 Qplus d y_init y_label))
  with
  | Ok b => b
  | Raise _ => false
  end.

(** [sum(l)]: the numbers added from the left, starting from the [int] 0. *)
Definition num_sum (l : list pynum) : pyresult pynum :=
  fold_left (fun acc x => a <- acc ;; py_add a x) l (Ok (PInt 0)).

(** A number the arithmetic of doubles takes: a [float], or an [int] within
    the range of the doubles. *)
Definition fits (a : pynum) : bool :=
  match as_float a with
  | Ok _ => true
  | Raise _ => false
  end.

Definition is_float (a : pynum) : bool :=
  match a with
  | PFloat _ => true
  | PInt _ => false
  end.

(** The two sizes and the two gaps are given as [float]s. *)
Definition float_sizes (st : style) : bool :=
  is_float (node_width st) && is_float (node_height st)
  && is_float (gap_width st) && is_float (gap_height st).

(** The width and the height of every node are within the range of the
    doubles, as those of any tree that can be built are. *)
Definition counts_fit (t : Tree) : bool :=
  forallb
    (fun n =>
       fits (PInt (width n)) && fits (PInt (width n - 1))
       && fits (PInt (height n)) && fits (PInt (height n - 1)))
    (nodes t).

(** Sizes and gaps that are floats, from origins and for a tree within the
    doubles. *)
Definition float_sizes_in_range (st : style) (x_init y_init : pynum) (t : Tree) : Prop :=
  float_sizes st = true /\ fits x_init = true /\ fits y_init = true
  /\ counts_fit t = true.

(** Sizes and gaps that are integers, from integer origins, such that every
    abscissa and every ordinate of the layout of [t] is below [2 ^ 53] in
    absolute value, where the doubles hold every integer. *)
Definition int_sizes_in_range (st : style) (x_init y_init : pynum) (t : Tree) : Prop :=
  exists nw nh gw gh x y,
    node_width st = PInt nw /\ node_height st = PInt nh
    /\ gap_width st = PInt gw /\ gap_height st = PInt gh
    /\ x_init = PInt x /\ y_init = PInt y
    /\ Z.abs x + width t * (Z.abs nw + Z.abs gw) < 2 ^ 53
    /\ Z.abs y + height t * (Z.abs nh + Z.abs gh) < 2 ^ 53.

(** ** Notions used in the proofs *)

(** One assignment [d[k] = v] of a comprehension, on the pair [(k, v)]. *)
Definition store {V : Type} (d : list (string * V)) (kv : string * V)
  : list (string * V) :=
  dict_set (fst kv) (snd kv) d.

Definition all_nodes_ok (t : Tree) : Prop := Forall node_invariant (nodes t).

(** The three parts a value plays in a record: the record itself, its list
    of options, one option. *)
Definition built_ok (Q : Tree -> Prop) (v : pyval) : Prop :=
  (forall t, Tree_init v = Ok t -> Q t)
  /\ (forall ch, build_children v = Ok ch -> Forall (fun kv => Q (snd kv)) ch)
  /\ (forall kv, build_entry v = Ok kv -> Q (snd kv)).

(** Whether a call raises [KeyError], whatever the message. *)
Definition raises_KeyError {A : Type} (r : pyresult A) : Prop :=
  exists msg, r = Raise (KeyError msg).

Definition returns {A : Type} (r : pyresult A) : Prop := exists a, r = Ok a.

(** On a typed value the only failure is [KeyError], and it comes exactly
    when an option is not complete. *)
Definition outcome {A : Type} (complete : bool) (r : pyresult A) : Prop :=
  if complete then returns r else raises_KeyError r.

Definition typed_outcome (v : pyval) : Prop :=
  (record_shape v = true -> outcome (entries_complete v) (Tree_init v))
  /\ (forall xs, v = PList xs -> forallb entry_shape xs = true ->
      forall acc,
        outcome (forallb entry_complete xs) (dict_comprehension build_entry xs acc))
  /\ (entry_shape v = true -> outcome (entry_complete v) (build_entry v)).

(** The first character of an encoded value opens a string, an array or an
    object. *)
Definition opens_value (s : string) : Prop :=
  exists c s', s = String c s' /\ (c = dquote \/ c = "["%char \/ c = "{"%char).

(** What reading back a value [v] means, at any depth and before any text. *)
Definition reads_back (v : pyval) : Prop :=
  forall level fuel rest,
    (pyval_size v <= fuel)%nat ->
    scan_once fuel (iterencode level v ++ rest) = Some (v, rest).

(** One item of an object as [iterencode] writes it. *)
Definition encode_item (level : nat) (kv : string * pyval) : string :=
  encode_basestring_ascii (fst kv) ++ ": " ++ iterencode level (snd kv).

(** ** Examples *)

Definition leaf_record (s : string) : pyval := PDict [("content", PStr s)].

Definition leaf (s : string) : Tree := mkTree (dumps (leaf_record s)) s [] 1 1.

(** The record of [if a: x else: y]. *)
Definition example_record : pyval :=
  PDict [("content", PStr "a");
         ("options",
          PList [PDict [("value", PStr "a"); ("tree", leaf_record "x")];
                 PDict [("value", PStr default_label); ("tree", leaf_record "y")]])].

Definition example_tree : Tree :=
  mkTree (dumps example_record) "a"
         [("a", leaf "x"); (default_label, leaf "y")] 2 2.

(** An option without its value. *)
Definition incomplete_entry : list (string * pyval) := [("tree", leaf_record "x")].

Definition incomplete_record : list (string * pyval) :=
  [("content", PStr "a"); ("options", PList [PDict incomplete_entry])].

(** Two options under the label [a]. *)
Definition first_option : pyval := PDict [("value", PStr "a"); ("tree", leaf_record "x")].
Definition second_option : pyval := PDict [("value", PStr "a"); ("tree", leaf_record "y")].

Definition duplicate_record : list (string * pyval) :=
  [("content", PStr "a"); ("options", PList [first_option; second_option])].

Definition duplicate_tree : Tree :=
  mkTree (dumps (PDict duplicate_record)) "a" [("a", leaf "y")] 2 1.

(** Sizes that are not positive. *)
Definition degenerate_style : style :=
  mkStyle (PInt 0) (PInt (-20)) (PInt 0) (PInt (-30)) "#0377fc" "white" "black" "red".

(** A record whose first child is two leaves wide and whose second child is
    one leaf wide. *)
Definition wide_record : pyval :=
  PDict [("content", PStr "r");
         ("options",
          PList [PDict [("value", PStr "b"); ("tree", example_record)];
                 PDict [("value", PStr "c"); ("tree", leaf_record "z")]])].

(** A record with one option. *)
Definition single_record : pyval :=
  PDict [("content", PStr "a");
         ("options", PList [PDict [("value", PStr "a"); ("tree", leaf_record "x")]])].

#[local] Set Warnings "-inexact-float".

(** The doubles nearest to one tenth, two tenths and three tenths, and the
    sum of the first two, which is the double after the third. *)
Definition tenth : pynum := PFloat 0.1.
Definition two_tenths : pynum := PFloat 0.2.
Definition three_tenths : pynum := PFloat 0.3.
Definition tenth_plus_two_tenths : pynum := PFloat 0.30000000000000004.

#[local] Set Warnings "+inexact-float".

(** A node width of one tenth and a gap of two tenths. *)
Definition tenths_style : style :=
  mkStyle tenth (PInt 20) two_tenths (PInt 30) "#0377fc" "white" "black" "red".

(** Sizes that are floats and not positive. *)
Definition negative_style : style :=
  mkStyle (PFloat 0) (PFloat (-20)) (PFloat 0) (PFloat (-30))
          "#0377fc" "white" "black" "red".

(** Sizes that are positive, one of them an integer beyond the doubles. *)
Definition huge_style : style :=
  mkStyle (PInt (10 ^ 400)) (PInt 20) (PInt 10) (PInt 30)
          "#0377fc" "white" "black" "red".

(** ** Further notions: shape of a tree, artists, indentation *)

Definition is_leaf (t : Tree) : bool :=
  match children t with
  | [] => true
  | _ :: _ => false
  end.

(** The number of nodes without children. *)
Definition leaves (t : Tree) : nat := List.length (filter is_leaf (nodes t)).

(** The number of nodes on the longest way down from the root. *)
Fixpoint levels (t : Tree) : nat :=
  S (list_max (map (fun kv => levels (snd kv)) (children t))).

Definition is_ellipse (a : artist) : bool :=
  match a with
  | Ellipse _ _ _ _ _ => true
  | _ => false
  end.

Definition is_arrow (a : artist) : bool :=
  match a with
  | arrow _ _ _ _ _ => true
  | _ => false
  end.

Definition is_text (a : artist) : bool :=
  match a with
  | text _ _ _ _ _ _ _ _ => true
  | _ => false
  end.

(** A string of white space only. *)
Fixpoint all_space (s : string) : bool :=
  match s with
  | EmptyString => true
  | String c s' => is_space c && all_space s'
  end.

(** The lines of a block moved to the right by [pad]. *)
Definition indent_lines (pad : string) (code : list string) : list string :=
  map (fun line => pad ++ line) code.

(** The exceptions [Tree.__init__] lets out. *)
Definition init_error (e : exn) : Prop :=
  e = KeyError schema_message \/ e = TypeError \/ e = AttributeError.

(** The same before the [except] clause, where a [KeyError] has the
    missing key as message. *)
Definition raw_init_error (e : exn) : Prop :=
  (exists msg, e = KeyError msg) \/ e = TypeError \/ e = AttributeError.

(** The three parts of a value again, for what they raise. *)
Definition raises_only (v : pyval) : Prop :=
  (forall e, Tree_init v = Raise e -> init_error e)
  /\ (forall e, build_children v = Raise e -> raw_init_error e)
  /\ (forall e, build_entry v = Raise e -> raw_init_error e).

(** A record as the parser makes it: typed as the serialized format, with
    complete options and no key twice. *)
Definition parsed_record (dic : pyval) : Prop :=
  record_shape dic = true /\ entries_complete dic = true /\ dict_wf dic = true.

(** Two states of the loop of the parser, one on lines moved to the right
    by [pad]. *)
Definition padded_state (pad : string) (st' st : scan_state) : Prop :=
  map strip (permeated st') = map strip (permeated st)
  /\ subtrees st' = map (fun x => (fst x, indent_lines pad (snd x))) (subtrees st)
  /\ initial_clause st' = initial_clause st
  /\ cur_clause st' = cur_clause st
  /\ cur_subtree st' = indent_lines pad (cur_subtree st)
  /\ start st' = start st.

(** The list [permeated] stands for: [[]] when the argument is [None]. *)
Definition carried_lines (carried : option (list string)) : list string :=
  match carried with
  | Some p => p
  | None => []
  end.

(** The option the parser makes of a label and a parsed body. *)
Definition parsed_option_of (label : string) (tree : pyval) : pyval :=
  PDict [("value", PStr label); ("tree", tree)].

(** A call that raises nothing but [OverflowError]. *)
Definition overflow_only {A : Type} (r : pyresult A) : Prop :=
  forall e, r = Raise e -> e = OverflowError.

(** What a finite double of mantissa [m] and exponent [e] stands for, the
    sign apart. *)
Definition magnitude (m : positive) (e : Z) : Q := (inject_Z (Zpos m) * Qpower 2 e)%Q.

(** * Properties *)

(** ** Dictionaries *)

Lemma dict_find_get {A : Type} (k : string) (some : pyval -> A) (none : A) d :
  dict_find k some none d
  = match dict_get k d with Some v => some v | None => none end.
Proof.
  induction d as [|[k' v] d IH]; simpl; [reflexivity|].
  destruct (String.eqb k' k); [reflexivity | exact IH].
Qed.

Lemma dict_comprehension_ext {V : Type} (f g : pyval -> pyresult (string * V)) xs :
  Forall (fun x => f x = g x) xs ->
  forall acc, dict_comprehension f xs acc = dict_comprehension g xs acc.
Proof.
  induction 1 as [|x xs Hx _ IH]; intros acc; simpl; [reflexivity|].
  rewrite Hx. destruct (g x) as [kv|e]; simpl; [apply IH | reflexivity].
Qed.

Lemma Tree_init_dict d :
  Tree_init (PDict d)
  = (ch <- except_KeyError
             (match dict_get "options" d with
              | Some options => build_children options
              | None => Ok []
              end) ;;
     Ok (make_node d ch)).
Proof.
  cbn [Tree_init]. rewrite !dict_find_get.
  destruct (dict_get "options" d) as [[s|xs|e]|]; try reflexivity.
  cbn [build_children].
  erewrite dict_comprehension_ext; [reflexivity|].
  apply Forall_forall. intros [s|l|e] _; try reflexivity.
  cbn [build_entry]. rewrite dict_find_get.
  destruct (dict_get "value" e); [|reflexivity].
  rewrite dict_find_get. reflexivity.
Qed.

Lemma Tree_init_not_dict v :
  (forall d, v <> PDict d) -> Tree_init v = Raise AttributeError.
Proof. destruct v; intros H; try reflexivity. now elim (H d). Qed.

Lemma dict_set_values_Forall {V : Type} (Q : V -> Prop) k v (d : list (string * V)) :
  Forall (fun kv => Q (snd kv)) d -> Q v ->
  Forall (fun kv => Q (snd kv)) (dict_set k v d).
Proof.
  induction 1 as [|[k' v'] d Hd Hrest IH]; intros Hv; simpl.
  - constructor; [exact Hv | constructor].
  - destruct (String.eqb k' k); constructor; simpl in *; auto.
Qed.

Lemma dict_comprehension_Forall {V : Type} (Q : V -> Prop)
      (entry : pyval -> pyresult (string * V)) xs :
  Forall (fun x => forall kv, entry x = Ok kv -> Q (snd kv)) xs ->
  forall acc ch,
    Forall (fun kv => Q (snd kv)) acc ->
    dict_comprehension entry xs acc = Ok ch ->
    Forall (fun kv => Q (snd kv)) ch.
Proof.
  induction 1 as [|x xs Hx _ IH]; intros acc ch Hacc Hrun; simpl in Hrun.
  - now inversion Hrun; subst.
  - destruct (entry x) as [kv|e] eqn:E; simpl in Hrun; [|discriminate].
    eapply IH; [|exact Hrun].
    apply dict_set_values_Forall; auto.
Qed.

(** ** Sums and maxima *)

Lemma fold_left_add_shift l : forall a, fold_left Z.add l a = a + Zsum l.
Proof.
  induction l as [|x l IH]; intros a; simpl; [lia|].
  rewrite IH. unfold Zsum. simpl. fold (Zsum l). lia.
Qed.

Lemma py_sum_Zsum l : py_sum l = Zsum l.
Proof. unfold py_sum. now rewrite fold_left_add_shift. Qed.

Lemma fold_left_max_ge l : forall a, a <= fold_left Z.max l a.
Proof.
  induction l as [|x l IH]; intros a; simpl; [lia|].
  specialize (IH (Z.max a x)). lia.
Qed.

Lemma fold_left_max_upper l : forall a x, In x l -> x <= fold_left Z.max l a.
Proof.
  induction l as [|y l IH]; intros a x Hin; simpl; [easy|].
  destruct Hin as [->|Hin]; [|now apply IH].
  pose proof (fold_left_max_ge l (Z.max a x)). lia.
Qed.

Lemma fold_left_max_attained l : forall a,
  fold_left Z.max l a = a \/ In (fold_left Z.max l a) l.
Proof.
  induction l as [|y l IH]; intros a; simpl; [now left|].
  destruct (IH (Z.max a y)) as [E|Hin]; [|now right; right].
  rewrite E. destruct (Z.max_spec a y) as [[_ ->]|[_ ->]]; [right; now left | now left].
Qed.

Lemma py_max_upper l d x : In x l -> x <= py_max l d.
Proof.
  destruct l as [|y l]; [easy|]. simpl. intros [->|Hin].
  - apply fold_left_max_ge.
  - now apply fold_left_max_upper.
Qed.

Lemma py_max_attained l d : l <> [] -> In (py_max l d) l.
Proof.
  destruct l as [|y l]; [easy|]. intros _. simpl.
  destruct (fold_left_max_attained l y) as [->|Hin]; [now left | now right].
Qed.

Lemma Zsum_ge_length l : (forall x, In x l -> 1 <= x) -> Z.of_nat (List.length l) <= Zsum l.
Proof.
  induction l as [|x l IH]; intros H; [simpl; lia|].
  change (Zsum (x :: l)) with (x + Zsum l).
  change (List.length (x :: l)) with (S (List.length l)).
  pose proof (H x (or_introl eq_refl)).
  assert (Z.of_nat (List.length l) <= Zsum l) by (apply IH; intros; apply H; now right).
  lia.
Qed.

(** ** The invariant of the constructor *)

Lemma all_nodes_ok_root t : all_nodes_ok t -> node_invariant t.
Proof. destruct t. unfold all_nodes_ok. simpl. now inversion 1. Qed.

Lemma nodes_children_Forall (Q : Tree -> Prop) (ch : list (string * Tree)) :
  Forall (fun kv => Forall Q (nodes (snd kv))) ch ->
  Forall Q (flat_map (fun kv => nodes (snd kv)) ch).
Proof.
  induction 1 as [|kv ch H _ IH]; simpl; [constructor|].
  apply Forall_app. split; assumption.
Qed.

Lemma make_node_invariant d ch :
  Forall (fun kv => all_nodes_ok (snd kv)) ch ->
  node_invariant (make_node d ch).
Proof.
  intros Hch.
  assert (Hroot : forall c, In c (dict_values ch) -> node_invariant c).
  { intros c Hc. unfold dict_values in Hc. apply in_map_iff in Hc.
    destruct Hc as [kv [<- Hkv]]. rewrite Forall_forall in Hch.
    apply all_nodes_ok_root. now apply Hch. }
  unfold node_invariant. cbn [children make_node width height].
  destruct ch as [|kv ch].
  - simpl. split; [intros _; split; reflexivity|].
    split; [intros Hne; now elim Hne | split; lia].
  - set (cs := dict_values (kv :: ch)) in *.
    assert (Hne : cs <> []) by (subst cs; discriminate).
    assert (Hw : 1 <= Zsum (map width cs)).
    { assert (Z.of_nat (List.length (map width cs)) <= Zsum (map width cs)).
      { apply Zsum_ge_length. intros x Hx. apply in_map_iff in Hx.
        destruct Hx as [c [<- Hc]]. apply Hroot in Hc. apply Hc. }
      rewrite length_map in H. subst cs. simpl in H. simpl. lia. }
    assert (Hmax : In (py_max (map height cs) 0) (map height cs)).
    { apply py_max_attained. subst cs. discriminate. }
    apply in_map_iff in Hmax. destruct Hmax as [c [Ec Hc]].
    rewrite py_sum_Zsum.
    split; [intros H; now elim Hne|].
    split.
    + intros _. split; [reflexivity|]. split.
      * exists c. split; [exact Hc | lia].
      * intros c' Hc'.
        assert (height c' <= py_max (map height cs) 0)
          by (apply py_max_upper; now apply in_map).
        lia.
    + split; [exact Hw|].
      pose proof (Hroot c Hc) as Hinv. destruct Hinv as (_ & _ & _ & Hh). lia.
Qed.

Lemma make_node_all_ok d ch :
  Forall (fun kv => all_nodes_ok (snd kv)) ch ->
  all_nodes_ok (make_node d ch).
Proof.
  intros Hch. unfold all_nodes_ok. cbn [nodes make_node children].
  constructor.
  - now apply make_node_invariant.
  - now apply nodes_children_Forall.
Qed.

Lemma except_KeyError_Ok {A : Type} (r : pyresult A) a :
  except_KeyError r = Ok a -> r = Ok a.
Proof. destruct r as [x|[]]; simpl; congruence. Qed.

Lemma Tree_init_Ok_inv v t :
  Tree_init v = Ok t ->
  exists d ch,
    v = PDict d
    /\ match dict_get "options" d with
       | Some options => build_children options
       | None => Ok []
       end = Ok ch
    /\ t = make_node d ch.
Proof.
  destruct v as [s|l|d]; try discriminate.
  rewrite Tree_init_dict. intros H.
  destruct (except_KeyError _) as [ch|e] eqn:E; simpl in H; [|discriminate].
  apply except_KeyError_Ok in E. inversion H; subst.
  now exists d, ch.
Qed.

Lemma dict_get_In {V : Type} k (d : list (string * V)) v :
  dict_get k d = Some v -> In (k, v) d.
Proof.
  induction d as [|[k' v'] d IH]; simpl; [discriminate|].
  destruct (String.eqb_spec k' k) as [->|_].
  - intros [= ->]. now left.
  - intros H. right. now apply IH.
Qed.

Lemma Forall_dict_get {V : Type} (Q : V -> Prop) k (d : list (string * V)) v :
  Forall (fun kv => Q (snd kv)) d -> dict_get k d = Some v -> Q v.
Proof.
  intros HF Hg. apply dict_get_In in Hg. rewrite Forall_forall in HF.
  exact (HF _ Hg).
Qed.

Lemma built_ok_all (Q : Tree -> Prop) :
  (forall d ch, Forall (fun kv => Q (snd kv)) ch -> Q (make_node d ch)) ->
  forall v, built_ok Q v.
Proof.
  intros Hnode. induction v as [s|l IH|d IH] using pyval_ind.
  - repeat split.
    + discriminate.
    + destruct s; simpl; [intros ch [= <-]; constructor | discriminate].
    + discriminate.
  - repeat split.
    + discriminate.
    + intros ch Hrun. cbn [build_children] in Hrun.
      eapply dict_comprehension_Forall; [| constructor | exact Hrun].
      eapply Forall_impl; [|exact IH]. intros x Hx. apply Hx.
    + discriminate.
  - repeat split.
    + intros t Ht. apply Tree_init_Ok_inv in Ht.
      destruct Ht as (d' & ch & [= <-] & Hch & ->).
      apply Hnode.
      destruct (dict_get "options" d) as [o|] eqn:Eo.
      * eapply (Forall_dict_get _ _ _ _ IH) in Eo. now apply Eo.
      * inversion Hch; subst. constructor.
    + destruct d; simpl; [intros ch [= <-]; constructor | discriminate].
    + intros kv Hkv. cbn [build_entry] in Hkv.
      destruct (dict_get "value" d) as [value|]; [|discriminate].
      destruct (dict_get "tree" d) as [tree|] eqn:Et; [|discriminate].
      destruct (Tree_init tree) as [child|] eqn:Ec; simpl in Hkv; [|discriminate].
      destruct (hash_key value) as [key|]; simpl in Hkv; [|discriminate].
      inversion Hkv; subst. simpl.
      eapply (Forall_dict_get _ _ _ _ IH) in Et. now apply Et.
Qed.

Lemma Tree_init_all_nodes_ok dic t : Tree_init dic = Ok t -> all_nodes_ok t.
Proof. apply (built_ok_all all_nodes_ok make_node_all_ok dic). Qed.

(** C1. Every node of a constructed tree has width 1 and height 1 when it
    has no children, and otherwise the sum of its children's widths as
    width and one more than the greatest of its children's heights as
    height; so both are at least 1. *)
Theorem C1_node_dimensions (dic : pyval) (t n : Tree) :
  Tree_init dic = Ok t ->
  In n (nodes t) ->
  (children n = [] -> width n = 1 /\ height n = 1)
  /\ (children n <> [] ->
      width n = Zsum (map width (dict_values (children n)))
      /\ (exists c, In c (dict_values (children n)) /\ height n = 1 + height c)
      /\ (forall c, In c (dict_values (children n)) -> 1 + height c <= height n))
  /\ 1 <= width n /\ 1 <= height n.
Proof.
  intros Ht Hn. apply Tree_init_all_nodes_ok in Ht.
  unfold all_nodes_ok in Ht. rewrite Forall_forall in Ht.
  destruct (Ht n Hn) as (Hleaf & Hbranch & Hw & Hh).
  split; [|split; [|split; assumption]].
  - intros E. apply Hleaf. unfold dict_values. now rewrite E.
  - intros Hne. apply Hbranch. unfold dict_values.
    destruct (children n); [now elim Hne | discriminate].
Qed.

(** ** Nodes of a constructed tree *)

Lemma all_nodes_ok_sub t : forall n, all_nodes_ok t -> In n (nodes t) -> all_nodes_ok n.
Proof.
  induction t as [j c ch h w IH] using Tree_ind. intros n Hok Hn.
  cbn [nodes children] in Hn. destruct Hn as [<-|Hn]; [exact Hok|].
  unfold all_nodes_ok in Hok. cbn [nodes children] in Hok.
  apply Forall_cons_iff in Hok. destruct Hok as [_ Hsub].
  apply Forall_flat_map in Hsub. apply in_flat_map in Hn.
  destruct Hn as (kv & Hkv & Hn). rewrite Forall_forall in IH, Hsub.
  exact (IH kv Hkv n (Hsub kv Hkv) Hn).
Qed.

Lemma all_nodes_ok_children n :
  all_nodes_ok n -> Forall (fun kv => all_nodes_ok (snd kv)) (children n).
Proof.
  intros Hok. apply Forall_forall. intros kv Hkv.
  apply (all_nodes_ok_sub n _ Hok).
  destruct n as [j c ch h w]. cbn [nodes children] in *. right.
  apply in_flat_map. exists kv. split; [exact Hkv|].
  destruct (snd kv). now left.
Qed.

(** ** Total widths *)

(** On [int] sizes the totals are those of the integers. *)
Lemma compute_total_width_int t (a b : Z) :
  compute_total_width t (PInt a) (PInt b) = Ok (PInt (width t * a + (width t - 1) * b)).
Proof. reflexivity. Qed.

Lemma compute_total_height_int t (a b : Z) :
  compute_total_height t (PInt a) (PInt b) = Ok (PInt (height t * a + (height t - 1) * b)).
Proof. reflexivity. Qed.

Lemma Zsum_total_width (cs : list Tree) (a b : Z) :
  Zsum (map (fun c => width c * a + (width c - 1) * b) cs)
  = Zsum (map width cs) * a + (Zsum (map width cs) - Z.of_nat (List.length cs)) * b.
Proof.
  induction cs as [|c cs IH]; [reflexivity|].
  cbn [map List.length]. unfold Zsum in *. cbn [fold_right]. rewrite IH. lia.
Qed.

(** C4, on sizes that are integers. At a node with children, the total
    width is the sum of the total widths of the children plus one gap
    between each two neighbours. *)
Theorem C4_total_width_of_children (dic : pyval) (t n : Tree) (nodeW gapW : Z) :
  Tree_init dic = Ok t ->
  In n (nodes t) ->
  children n <> [] ->
  exists total totals,
    compute_total_width n (PInt nodeW) (PInt gapW) = Ok (PInt total)
    /\ total = width n * nodeW + (width n - 1) * gapW
    /\ Forall2 (fun c v => compute_total_width c (PInt nodeW) (PInt gapW) = Ok (PInt v))
               (dict_values (children n)) totals
    /\ total = Zsum totals + (Z.of_nat (List.length (children n)) - 1) * gapW.
Proof.
  intros Ht Hn Hne.
  apply Tree_init_all_nodes_ok in Ht. unfold all_nodes_ok in Ht.
  rewrite Forall_forall in Ht.
  destruct (Ht n Hn) as (_ & Hbranch & _).
  assert (Hcs : dict_values (children n) <> []).
  { unfold dict_values. destruct (children n); [now elim Hne | discriminate]. }
  destruct (Hbranch Hcs) as (Hw & _).
  exists (width n * nodeW + (width n - 1) * gapW).
  exists (map (fun c => width c * nodeW + (width c - 1) * gapW) (dict_values (children n))).
  split; [apply compute_total_width_int|]. split; [reflexivity|]. split.
  - clear. induction (dict_values (children n)) as [|c cs IH]; constructor.
    + apply compute_total_width_int.
    + exact IH.
  - rewrite Zsum_total_width, <- Hw.
    replace (List.length (dict_values (children n))) with (List.length (children n))
      by (symmetry; apply length_map).
    lia.
Qed.

(** ** Records typed as the serialized format *)

Lemma forallb_ext_Forall {A : Type} (f g : A -> bool) l :
  Forall (fun x => f x = g x) l -> forallb f l = forallb g l.
Proof. induction 1 as [|x l Hx _ IH]; simpl; [reflexivity | now rewrite Hx, IH]. Qed.

Lemma record_shape_dict d :
  record_shape (PDict d)
  = match dict_get "options" d with
    | Some (PList xs) => forallb entry_shape xs
    | Some _ => false
    | None => true
    end.
Proof.
  cbn [record_shape]. rewrite dict_find_get.
  destruct (dict_get "options" d) as [[s|xs|e]|]; try reflexivity.
  apply forallb_ext_Forall, Forall_forall. intros [s|l|e] _; try reflexivity.
  cbn [entry_shape]. rewrite !dict_find_get.
  destruct (dict_get "value" e) as [[]|]; destruct (dict_get "tree" e); reflexivity.
Qed.

Lemma entries_complete_dict d :
  entries_complete (PDict d)
  = match dict_get "options" d with
    | Some (PList xs) => forallb entry_complete xs
    | _ => true
    end.
Proof.
  cbn [entries_complete]. rewrite dict_find_get.
  destruct (dict_get "options" d) as [[s|xs|e]|]; try reflexivity.
  apply forallb_ext_Forall, Forall_forall. intros [s|l|e] _; try reflexivity.
  cbn [entry_complete]. rewrite !dict_find_get. reflexivity.
Qed.

Lemma outcome_except_KeyError {A : Type} b (r : pyresult A) :
  outcome b r ->
  if b then returns (except_KeyError r)
  else except_KeyError r = Raise (KeyError schema_message).
Proof.
  destruct b; simpl.
  - intros [a ->]. now exists a.
  - intros [msg ->]. reflexivity.
Qed.

Lemma typed_outcome_all v : typed_outcome v.
Proof.
  induction v as [s|l IH|d IH] using pyval_ind.
  - repeat split; try discriminate.
  - split; [discriminate|]. split; [|discriminate].
    intros xs [= <-]. induction IH as [|x xs Hx _ IHxs]; intros Hshape acc.
    + simpl. now exists acc.
    + simpl in Hshape. apply andb_prop in Hshape. destruct Hshape as [Sx Sxs].
      destruct Hx as (_ & _ & Hentry). specialize (Hentry Sx).
      cbn [forallb dict_comprehension].
      destruct (entry_complete x); simpl in Hentry |- *.
      * destruct Hentry as [kv ->]. simpl. apply IHxs. exact Sxs.
      * destruct Hentry as [msg ->]. simpl.
        now exists msg.
  - split; [|split; [discriminate|]].
    + rewrite record_shape_dict, entries_complete_dict, Tree_init_dict.
      destruct (dict_get "options" d) as [[s|xs|e]|] eqn:Eo; try discriminate.
      * intros Hshape.
        destruct (Forall_dict_get _ _ _ _ IH Eo) as (_ & Hopts & _).
        specialize (Hopts xs eq_refl Hshape []).
        apply outcome_except_KeyError in Hopts. cbn [build_children].
        destruct (forallb entry_complete xs); simpl.
        -- destruct Hopts as [ch ->]. simpl. now eexists.
        -- rewrite Hopts. simpl. now eexists.
      * intros _. simpl. now eexists.
    + cbn [entry_shape entry_complete build_entry]. unfold dict_has.
      destruct (dict_get "value" d) as [[s|l|e]|]; try discriminate.
      * destruct (dict_get "tree" d) as [tree|] eqn:Et; simpl.
        -- intros Hshape.
           destruct (Forall_dict_get _ _ _ _ IH Et) as (Hrec & _).
           specialize (Hrec Hshape).
           destruct (entries_complete tree); simpl in Hrec |- *.
           ++ destruct Hrec as [child ->]. simpl. now eexists.
           ++ destruct Hrec as [msg ->]. simpl. now eexists.
        -- intros _. now eexists.
      * intros _. simpl. now eexists.
Qed.

Lemma typed_Tree_init v :
  record_shape v = true ->
  if entries_complete v then returns (Tree_init v)
  else Tree_init v = Raise (KeyError schema_message).
Proof.
  intros Hshape. destruct v as [s|l|d]; try discriminate.
  rewrite record_shape_dict in Hshape.
  rewrite entries_complete_dict, Tree_init_dict.
  destruct (dict_get "options" d) as [[s|xs|e]|] eqn:Eo; try discriminate.
  - destruct (typed_outcome_all (PList xs)) as (_ & Hopts & _).
    specialize (Hopts xs eq_refl Hshape []).
    apply outcome_except_KeyError in Hopts. cbn [build_children].
    destruct (forallb entry_complete xs).
    + destruct Hopts as [ch ->]. simpl. now eexists.
    + rewrite Hopts. reflexivity.
  - simpl. now eexists.
Qed.

(** C5. A record, typed as the serialized format, one of whose options has
    no value or no tree: the constructor raises the [KeyError] of the
    schema and returns no tree. *)
Theorem C5_missing_key_raises (d : list (string * pyval)) (xs : list pyval)
        (e : list (string * pyval)) :
  record_shape (PDict d) = true ->
  dict_get "options" d = Some (PList xs) ->
  In (PDict e) xs ->
  dict_get "value" e = None \/ dict_get "tree" e = None ->
  Tree_init (PDict d) = Raise (KeyError schema_message)
  /\ forall t, Tree_init (PDict d) <> Ok t.
Proof.
  intros Hshape Hopts Hin Hmiss.
  assert (Hc : entries_complete (PDict d) = false).
  { rewrite entries_complete_dict, Hopts.
    apply not_true_is_false. intros Hall.
    rewrite forallb_forall in Hall. specialize (Hall _ Hin).
    cbn [entry_complete] in Hall. unfold dict_has in Hall.
    destruct Hmiss as [E|E]; rewrite E in Hall; [discriminate|].
    now rewrite andb_false_r in Hall. }
  pose proof (typed_Tree_init _ Hshape) as H. rewrite Hc in H.
  split; [exact H|]. intros t. rewrite H. discriminate.
Qed.

(** C9. A dictionary without the key content: when the constructor
    returns, the content of the node is the empty string.  When the
    dictionary is typed as the serialized format, the constructor returns
    if every option has its value and its tree, and otherwise raises the
    [KeyError] of the schema: the absent content is never the cause of a
    failure. *)
Theorem C9_missing_content (d : list (string * pyval)) :
  dict_get "content" d = None ->
  (forall t, Tree_init (PDict d) = Ok t -> content t = "")
  /\ (record_shape (PDict d) = true ->
      (entries_complete (PDict d) = true ->
       exists t, Tree_init (PDict d) = Ok t /\ content t = "")
      /\ (entries_complete (PDict d) = false ->
          Tree_init (PDict d) = Raise (KeyError schema_message))).
Proof.
  intros Hcontent.
  assert (Hempty : forall t, Tree_init (PDict d) = Ok t -> content t = "").
  { intros t Ht. apply Tree_init_Ok_inv in Ht.
    destruct Ht as (d' & ch & [= <-] & _ & ->).
    cbn [content make_node]. now rewrite Hcontent. }
  split; [exact Hempty|]. intros Hshape.
  pose proof (typed_Tree_init _ Hshape) as H.
  split; intros Hc; rewrite Hc in H; [|exact H].
  destruct H as [t Ht]. exists t. split; [exact Ht | now apply Hempty].
Qed.

(** ** Options with the same label *)

Section DictSet.
Context {V : Type}.
Implicit Types (d : list (string * V)) (k : string) (v : V).

Lemma dict_get_set_same k v d : dict_get k (dict_set k v d) = Some v.
Proof.
  induction d as [|[k' v'] d IH]; simpl.
  - now rewrite String.eqb_refl.
  - destruct (String.eqb k' k) eqn:E; simpl; rewrite E; [reflexivity | exact IH].
Qed.

Lemma dict_get_set_other k k' v d :
  k <> k' -> dict_get k' (dict_set k v d) = dict_get k' d.
Proof.
  intros Hne. induction d as [|[k0 v0] d IH]; simpl.
  - destruct (String.eqb_spec k k'); [contradiction | reflexivity].
  - destruct (String.eqb_spec k0 k) as [->|_]; simpl.
    + destruct (String.eqb_spec k k'); [contradiction | reflexivity].
    + now rewrite IH.
Qed.

Lemma dict_has_keys k d : dict_has k d = true <-> In k (dict_keys d).
Proof.
  unfold dict_has. induction d as [|[k' v'] d IH]; simpl; [easy|].
  destruct (String.eqb_spec k' k) as [->|Hne].
  - split; [now left | reflexivity].
  - rewrite IH. split; [now right | intros [E|H]; [contradiction | exact H]].
Qed.

Lemma dict_keys_set k v d :
  dict_keys (dict_set k v d)
  = if dict_has k d then dict_keys d else (dict_keys d ++ [k])%list.
Proof.
  unfold dict_has. induction d as [|[k' v'] d IH]; simpl; [reflexivity|].
  destruct (String.eqb k' k); simpl; [reflexivity|].
  rewrite IH. now destruct (dict_get k d).
Qed.

Lemma dict_keys_set_NoDup k v d :
  NoDup (dict_keys d) -> NoDup (dict_keys (dict_set k v d)).
Proof.
  intros Hd. rewrite dict_keys_set.
  destruct (dict_has k d) eqn:E; [exact Hd|].
  apply NoDup_app; [exact Hd | repeat constructor; easy |].
  intros x Hx [<-|[]]. apply dict_has_keys in Hx. congruence.
Qed.

Lemma fold_store_NoDup kvs : forall d,
  NoDup (dict_keys d) -> NoDup (dict_keys (fold_left store kvs d)).
Proof.
  induction kvs as [|kv kvs IH]; intros d Hd; simpl; [exact Hd|].
  apply IH. now apply dict_keys_set_NoDup.
Qed.

Lemma fold_store_get k kvs : forall d,
  dict_get k (fold_left store kvs d)
  = match find (fun kv => String.eqb (fst kv) k) (rev kvs) with
    | Some kv => Some (snd kv)
    | None => dict_get k d
    end.
Proof.
  induction kvs as [|kv kvs IH] using rev_ind; intros d; [reflexivity|].
  rewrite fold_left_app, rev_app_distr. cbn [fold_left rev app find].
  unfold store at 1. destruct (String.eqb_spec (fst kv) k) as [<-|Hne].
  - apply dict_get_set_same.
  - rewrite dict_get_set_other by exact Hne. apply IH.
Qed.

Lemma length_dict_set k v d :
  List.length (dict_set k v d)
  = if dict_has k d then List.length d else S (List.length d).
Proof.
  pose proof (f_equal (@List.length _) (dict_keys_set k v d)) as H.
  unfold dict_keys in H. rewrite length_map in H. rewrite H.
  destruct (dict_has k d); [now rewrite length_map|].
  rewrite length_app, length_map. simpl. lia.
Qed.

Lemma fold_store_length kvs : forall d,
  (List.length (fold_left store kvs d) <= List.length d + List.length kvs)%nat.
Proof.
  induction kvs as [|kv kvs IH]; intros d; simpl; [lia|].
  specialize (IH (store d kv)).
  change (store d kv) with (dict_set (fst kv) (snd kv) d) in IH |- *.
  rewrite length_dict_set in IH. destruct (dict_has (fst kv) d); lia.
Qed.

Lemma fold_store_has k kvs : forall d,
  dict_has k d = true -> dict_has k (fold_left store kvs d) = true.
Proof.
  induction kvs as [|kv kvs IH]; intros d Hd; simpl; [exact Hd|].
  apply IH. unfold store. apply dict_has_keys. rewrite dict_keys_set.
  apply dict_has_keys in Hd.
  destruct (dict_has (fst kv) d); [exact Hd | apply in_or_app; now left].
Qed.

(** A key stored twice makes the dictionary shorter than the list of the
    pairs stored. *)
Lemma fold_store_length_twice k v1 v2 pre mid post :
  (List.length (fold_left store (pre ++ (k, v1) :: mid ++ (k, v2) :: post) [])
   < List.length (pre ++ (k, v1) :: mid ++ (k, v2) :: post))%nat.
Proof.
  rewrite fold_left_app. cbn [fold_left]. rewrite fold_left_app. cbn [fold_left].
  set (d1 := fold_left store pre []).
  set (d2 := fold_left store mid (store d1 (k, v1))).
  assert (H2 : dict_has k d2 = true).
  { subst d2. apply fold_store_has. unfold store. cbn [fst snd].
    unfold dict_has. now rewrite dict_get_set_same. }
  pose proof (fold_store_length post (store d2 (k, v2))) as Hpost.
  change (store d2 (k, v2)) with (dict_set k v2 d2) in Hpost |- *.
  rewrite length_dict_set, H2 in Hpost.
  pose proof (fold_store_length mid (store d1 (k, v1))) as Hmid. fold d2 in Hmid.
  change (store d1 (k, v1)) with (dict_set k v1 d1) in Hmid |- *.
  rewrite length_dict_set in Hmid.
  pose proof (fold_store_length pre []) as Hpre. fold d1 in Hpre. simpl in Hpre.
  rewrite !length_app. cbn [List.length]. rewrite length_app. cbn [List.length].
  destruct (dict_has k d1); lia.
Qed.
End DictSet.

Lemma dict_comprehension_fold {V : Type} (entry : pyval -> pyresult (string * V)) xs :
  forall acc ch,
    dict_comprehension entry xs acc = Ok ch ->
    exists kvs,
      Forall2 (fun x kv => entry x = Ok kv) xs kvs
      /\ ch = fold_left store kvs acc.
Proof.
  induction xs as [|x xs IH]; intros acc ch Hrun; simpl in Hrun.
  - inversion Hrun; subst. exists []. split; [constructor | reflexivity].
  - destruct (entry x) as [kv|e] eqn:E; simpl in Hrun; [|discriminate].
    destruct (IH _ _ Hrun) as (kvs & HF & ->).
    exists (kv :: kvs). split; [now constructor | reflexivity].
Qed.

Lemma build_entry_Ok_inv x kv :
  build_entry x = Ok kv ->
  entry_label x = Some (fst kv)
  /\ exists tree, entry_tree x = Some tree /\ Tree_init tree = Ok (snd kv).
Proof.
  destruct x as [s|l|e]; try discriminate. cbn [build_entry entry_label entry_tree].
  destruct (dict_get "value" e) as [value|]; [|discriminate].
  destruct (dict_get "tree" e) as [tree|]; [|discriminate].
  destruct (Tree_init tree) as [child|] eqn:Ec; simpl; [|discriminate].
  destruct value as [s|l|e']; simpl; try discriminate.
  intros [= <-]. split; [reflexivity|]. now exists tree.
Qed.

Lemma Forall2_rev {A B : Type} (R : A -> B -> Prop) l1 l2 :
  Forall2 R l1 l2 -> Forall2 R (rev l1) (rev l2).
Proof.
  induction 1 as [|x y l1 l2 Hxy _ IH]; simpl; [constructor|].
  apply Forall2_app; [exact IH | now repeat constructor].
Qed.

Lemma Forall2_find {A B : Type} (R : A -> B -> Prop) (p : A -> bool) (q : B -> bool) l1 l2 :
  Forall2 (fun a b => R a b /\ p a = q b) l1 l2 ->
  match find p l1, find q l2 with
  | Some a, Some b => R a b
  | None, None => True
  | _, _ => False
  end.
Proof.
  induction 1 as [|a b l1 l2 [Hab Hpq] _ IH]; simpl; [exact I|].
  rewrite Hpq. destruct (q b); [exact Hab | exact IH].
Qed.

(** C10. Two options of a record with the same label: the children hold
    one entry under that label, the tree of the last option that carries
    it; there are fewer children than options, and the width and the
    height are those of the children kept. *)
Theorem C10_duplicate_labels (d : list (string * pyval))
        (before between after : list pyval) (x1 x2 : pyval) (label : string) (t : Tree) :
  let xs := (before ++ x1 :: between ++ x2 :: after)%list in
  Tree_init (PDict d) = Ok t ->
  dict_get "options" d = Some (PList xs) ->
  entry_label x1 = Some label ->
  entry_label x2 = Some label ->
  count_occ string_dec (dict_keys (children t)) label = 1%nat
  /\ (exists x tree child,
         last_with_label label xs = Some x
         /\ entry_tree x = Some tree
         /\ Tree_init tree = Ok child
         /\ dict_get label (children t) = Some child)
  /\ (List.length (children t) < List.length xs)%nat
  /\ width t = Zsum (map width (dict_values (children t)))
  /\ (exists c, In c (dict_values (children t)) /\ height t = 1 + height c)
  /\ (forall c, In c (dict_values (children t)) -> 1 + height c <= height t).
Proof.
  intros xs Ht Hopts L1 L2.
  pose proof (all_nodes_ok_root _ (Tree_init_all_nodes_ok _ _ Ht)) as Hinv.
  apply Tree_init_Ok_inv in Ht. destruct Ht as (d' & ch & [= <-] & Hch & ->).
  rewrite Hopts in Hch. cbn [build_children] in Hch.
  apply dict_comprehension_fold in Hch. destruct Hch as (kvs & HF & Hfold).
  cbn [children make_node] in *.
  (* the child stored under the label *)
  assert (Hlast : exists x tree child,
             last_with_label label xs = Some x /\ entry_tree x = Some tree
             /\ Tree_init tree = Ok child /\ dict_get label ch = Some child).
  { assert (HF' : Forall2 (fun x kv => build_entry x = Ok kv
                                       /\ has_label label x = String.eqb (fst kv) label)
                          (rev xs) (rev kvs)).
    { apply Forall2_rev. eapply Forall2_impl; [|exact HF].
      intros x kv Hx. split; [exact Hx|].
      apply build_entry_Ok_inv in Hx. destruct Hx as [Hl _].
      unfold has_label. now rewrite Hl. }
    apply Forall2_find in HF'. unfold last_with_label.
    destruct (find (has_label label) (rev xs)) as [x|] eqn:Ex.
    - destruct (find (fun kv => String.eqb (fst kv) label) (rev kvs)) as [kv|] eqn:Ekv;
        [|contradiction].
      apply build_entry_Ok_inv in HF'. destruct HF' as (_ & tree & Htree & Hchild).
      exists x, tree, (snd kv). repeat split; try assumption.
      rewrite Hfold, fold_store_get, Ekv. reflexivity.
    - exfalso. apply find_none with (x := x2) in Ex.
      + unfold has_label in Ex. rewrite L2, String.eqb_refl in Ex. discriminate.
      + apply in_rev. rewrite rev_involutive. subst xs.
        apply in_or_app. right. right. apply in_or_app. right. now left. }
  split.
  { apply NoDup_count_occ'.
    - rewrite Hfold. apply fold_store_NoDup. constructor.
    - destruct Hlast as (_ & _ & child & _ & _ & _ & Hget).
      apply dict_has_keys. unfold dict_has. now rewrite Hget. }
  split; [exact Hlast|].
  split.
  { subst xs.
    apply Forall2_app_inv_l in HF. destruct HF as (pre & rest1 & Hpre & Hrest1 & ->).
    inversion Hrest1 as [|x1' kv1 l1 rest2 Hkv1 Hrest2]; subst.
    apply Forall2_app_inv_l in Hrest2. destruct Hrest2 as (mid & rest3 & Hmid & Hrest3 & ->).
    inversion Hrest3 as [|x2' kv2 l2 post Hkv2 Hpost]; subst.
    apply build_entry_Ok_inv in Hkv1, Hkv2.
    destruct Hkv1 as [E1 _]. destruct Hkv2 as [E2 _].
    rewrite L1 in E1. rewrite L2 in E2.
    destruct kv1 as [k1 c1]. destruct kv2 as [k2 c2]. simpl in E1, E2.
    injection E1 as <-. injection E2 as <-.
    pose proof (fold_store_length_twice label c1 c2 pre mid post) as Hlt.
    apply Forall2_length in Hpre, Hmid, Hpost.
    rewrite !length_app in *. cbn [List.length] in *. rewrite !length_app in *.
    cbn [List.length] in *. lia. }
  destruct Hinv as (_ & Hbranch & _). cbn [children make_node] in Hbranch.
  apply Hbranch.
  destruct Hlast as (_ & _ & child & _ & _ & _ & Hget).
  destruct ch; [discriminate | discriminate].
Qed.

(** ** Strings *)

Lemma append_assoc (a b c : string) : (a ++ b) ++ c = a ++ (b ++ c).
Proof. induction a as [|x a IH]; simpl; [reflexivity | now rewrite IH]. Qed.

Lemma append_empty_r (a : string) : a ++ "" = a.
Proof. induction a as [|x a IH]; simpl; [reflexivity | now rewrite IH]. Qed.

Lemma length_append (a b : string) :
  String.length (a ++ b) = (String.length a + String.length b)%nat.
Proof. induction a as [|x a IH]; simpl; [reflexivity | now rewrite IH]. Qed.

Lemma concat_cons2 sep (a b : string) l :
  String.concat sep (a :: b :: l) = a ++ sep ++ String.concat sep (b :: l).
Proof. reflexivity. Qed.

(** ** Reading back what [json.dumps] wrote *)

Lemma scanstring_escape (c : ascii) (tail : string) :
  scanstring (json_escape c ++ tail) = cons_char c (scanstring tail).
Proof.
  destruct c as [b0 b1 b2 b3 b4 b5 b6 b7].
  destruct b0, b1, b2, b3, b4, b5, b6, b7; reflexivity.
Qed.

Lemma scanstring_encoded (s rest : string) :
  scanstring (string_concat_map json_escape s ++ String dquote rest) = Some (s, rest).
Proof.
  induction s as [|c s IH]; [reflexivity|].
  cbn [string_concat_map]. rewrite append_assoc, scanstring_escape, IH. reflexivity.
Qed.

Lemma encode_basestring_ascii_append (s rest : string) :
  encode_basestring_ascii s ++ rest
  = String dquote (string_concat_map json_escape s ++ String dquote rest).
Proof. unfold encode_basestring_ascii. cbn [append]. now rewrite append_assoc. Qed.

Lemma scan_once_S fuel s :
  scan_once (S fuel) s
  = match s with
    | EmptyString => None
    | String c s1 =>
        if Ascii.eqb c dquote then
          match scanstring s1 with
          | Some (str, rest) => Some (PStr str, rest)
          | None => None
          end
        else if Ascii.eqb c "{" then
          match skip_space s1 with
          | EmptyString => None
          | String c' s2 =>
              if Ascii.eqb c' "}" then Some (PDict [], s2)
              else parse_object fuel (String c' s2) []
          end
        else if Ascii.eqb c "[" then
          match skip_space s1 with
          | EmptyString => None
          | String c' s2 =>
              if Ascii.eqb c' "]" then Some (PList [], s2)
              else parse_array fuel (String c' s2) []
          end
        else None
    end.
Proof. reflexivity. Qed.

Lemma parse_array_S fuel s acc :
  parse_array (S fuel) s acc
  = match scan_once fuel s with
    | None => None
    | Some (v, s1) =>
        match skip_space s1 with
        | EmptyString => None
        | String c s2 =>
            if Ascii.eqb c "]" then Some (PList (acc ++ [v]), s2)
            else if Ascii.eqb c "," then parse_array fuel (skip_space s2) (acc ++ [v])
            else None
        end
    end.
Proof. reflexivity. Qed.

Lemma parse_object_S fuel s acc :
  parse_object (S fuel) s acc
  = match s with
    | EmptyString => None
    | String q s1 =>
        if Ascii.eqb q dquote then
          match scanstring s1 with
          | None => None
          | Some (key, s2) =>
              match skip_space s2 with
              | EmptyString => None
              | String colon s3 =>
                  if Ascii.eqb colon ":" then
                    match scan_once fuel (skip_space s3) with
                    | None => None
                    | Some (v, s4) =>
                        match skip_space s4 with
                        | EmptyString => None
                        | String c s5 =>
                            if Ascii.eqb c "}" then Some (PDict (dict_set key v acc), s5)
                            else if Ascii.eqb c "," then
                              parse_object fuel (skip_space s5) (dict_set key v acc)
                            else None
                        end
                    end
                  else None
              end
          end
        else None
    end.
Proof. reflexivity. Qed.

Lemma iterencode_opens level v : opens_value (iterencode level v).
Proof.
  destruct v as [s|[|x l]|[|kv d]]; cbn [iterencode encode_basestring_ascii append];
    eexists _, _; (split; [reflexivity|]); auto.
Qed.

Lemma opens_value_append s t : opens_value s -> opens_value (s ++ t).
Proof. intros (c & s' & -> & H). now exists c, (s' ++ t). Qed.

Lemma skip_space_opens s : opens_value s -> skip_space s = s.
Proof. intros (c & s' & -> & [->|[->| ->]]); reflexivity. Qed.

Lemma skip_space_spaces n s : skip_space (spaces n ++ s) = skip_space s.
Proof. induction n as [|n IH]; [reflexivity | exact IH]. Qed.

Lemma skip_space_newline_indent level s :
  skip_space (newline_indent level ++ s) = skip_space s.
Proof. unfold newline_indent. cbn [append skip_space]. apply skip_space_spaces. Qed.

Lemma concat_opens sep (f : string) l : opens_value f -> opens_value (String.concat sep (f :: l)).
Proof.
  destruct l as [|g l]; [trivial|]. rewrite concat_cons2. apply opens_value_append.
Qed.

Lemma parse_array_items level rest xs : forall x acc fuel,
  Forall reads_back (x :: xs) ->
  (list_sum (map (fun y => S (pyval_size y)) (x :: xs)) <= fuel)%nat ->
  parse_array fuel
    (String.concat (item_separator (S level)) (map (iterencode (S level)) (x :: xs))
     ++ newline_indent level ++ String "]" rest) acc
  = Some (PList (acc ++ x :: xs), rest).
Proof.
  induction xs as [|y ys IH]; intros x acc fuel Hall Hfuel;
    inversion Hall as [|x' l' Hx Hrest]; subst;
    match type of Hfuel with
    | (list_sum (map ?f (x :: ?l)) <= _)%nat =>
        change (S (pyval_size x) + list_sum (map f l) <= fuel)%nat in Hfuel
    end;
    (destruct fuel as [|fuel]; [lia|]);
    rewrite parse_array_S.
  - cbn [map String.concat]. rewrite Hx by lia.
    rewrite skip_space_newline_indent. reflexivity.
  - cbn [map]. rewrite concat_cons2, !append_assoc.
    rewrite Hx by lia.
    unfold item_separator at 1. cbn [append skip_space is_json_space].
    change (is_json_space ","%char) with false. cbv iota.
    change (Ascii.eqb "," "]") with false. change (Ascii.eqb "," ",") with true. cbv iota.
    rewrite skip_space_newline_indent.
    rewrite skip_space_opens.
    + change (iterencode (S level) y :: map (iterencode (S level)) ys)
        with (map (iterencode (S level)) (y :: ys)).
      rewrite IH; [| exact Hrest | lia].
      now rewrite <- app_assoc.
    + apply opens_value_append, concat_opens, iterencode_opens.
Qed.

Lemma dict_set_fresh {V : Type} k (v : V) d :
  dict_get k d = None -> dict_set k v d = (d ++ [(k, v)])%list.
Proof.
  induction d as [|[k' v'] d IH]; simpl; [reflexivity|].
  destruct (String.eqb k' k); [discriminate|]. intros H. now rewrite IH.
Qed.

Lemma dict_get_app_None {V : Type} k (d1 d2 : list (string * V)) :
  dict_get k (d1 ++ d2) = None -> dict_get k d1 = None /\ dict_get k d2 = None.
Proof.
  induction d1 as [|[k' v'] d1 IH]; simpl; [now split|].
  destruct (String.eqb k' k); [discriminate | exact IH].
Qed.

Lemma keys_unique_fresh {V : Type} (acc : list (string * V)) k v rest :
  keys_unique (acc ++ (k, v) :: rest) = true -> dict_get k acc = None.
Proof.
  induction acc as [|[k' v'] acc IH]; simpl; [reflexivity|].
  intros H. apply andb_prop in H. destruct H as [Hk' Hrest].
  destruct (String.eqb_spec k' k) as [->|Hne]; [|now apply IH].
  unfold dict_has in Hk'.
  destruct (dict_get k (acc ++ (k, v) :: rest)) eqn:E; [discriminate|].
  apply dict_get_app_None in E. destruct E as [_ E]. simpl in E.
  now rewrite String.eqb_refl in E.
Qed.

Lemma skip_space_other c s :
  is_json_space c = false -> skip_space (String c s) = String c s.
Proof. intros H. cbn [skip_space]. now rewrite H. Qed.

Lemma skip_space_blank s : skip_space (String " " s) = skip_space s.
Proof. reflexivity. Qed.

Lemma encode_item_opens level kv : opens_value (encode_item level kv).
Proof.
  unfold encode_item, encode_basestring_ascii. cbn [append].
  eexists _, _. split; [reflexivity | now left].
Qed.

(** One item of an object: the key is read by [scanstring], the colon and
    the blank are passed, and the value is read by the hypothesis [Hv] on
    it. *)
Ltac read_key_and_value Hv :=
  rewrite !append_assoc, encode_basestring_ascii_append;
  change (Ascii.eqb dquote dquote) with true; cbv iota;
  rewrite scanstring_encoded;
  cbn [append]; rewrite (skip_space_other ":") by reflexivity;
  change (Ascii.eqb ":" ":") with true; cbv iota;
  rewrite skip_space_blank;
  rewrite skip_space_opens by apply opens_value_append, iterencode_opens;
  rewrite Hv by lia.

Lemma parse_object_items level rest kvs : forall kv acc fuel,
  Forall (fun kv => reads_back (snd kv)) (kv :: kvs) ->
  keys_unique (acc ++ kv :: kvs) = true ->
  (list_sum (map (fun kv => S (pyval_size (snd kv))) (kv :: kvs)) <= fuel)%nat ->
  parse_object fuel
    (String.concat (item_separator (S level)) (map (encode_item (S level)) (kv :: kvs))
     ++ newline_indent level ++ String "}" rest) acc
  = Some (PDict (acc ++ kv :: kvs), rest).
Proof.
  induction kvs as [|kv' kvs IH]; intros [k v] acc fuel Hall Huniq Hfuel;
    inversion Hall as [|x' l' Hv Hrest]; subst; cbn [snd] in Hv;
    match type of Hfuel with
    | (list_sum (map ?f (_ :: ?l)) <= _)%nat =>
        change (S (pyval_size v) + list_sum (map f l) <= fuel)%nat in Hfuel
    end;
    (destruct fuel as [|fuel]; [lia|]);
    rewrite parse_object_S;
    pose proof (keys_unique_fresh _ _ _ _ Huniq) as Hfresh.
  - cbn [map String.concat]. unfold encode_item at 1. cbn [fst snd].
    read_key_and_value Hv.
    rewrite skip_space_newline_indent, (dict_set_fresh k v acc Hfresh). reflexivity.
  - cbn [map]. rewrite concat_cons2. unfold encode_item at 1. cbn [fst snd].
    read_key_and_value Hv.
    rewrite (dict_set_fresh k v acc Hfresh).
    unfold item_separator at 1. cbn [append].
    rewrite (skip_space_other ",") by reflexivity.
    change (Ascii.eqb "," "}") with false. change (Ascii.eqb "," ",") with true. cbv iota.
    rewrite skip_space_newline_indent.
    rewrite skip_space_opens.
    + change (encode_item (S level) kv' :: map (encode_item (S level)) kvs)
        with (map (encode_item (S level)) (kv' :: kvs)).
      rewrite IH; [| exact Hrest | now rewrite <- app_assoc | lia].
      now rewrite <- app_assoc.
    + apply opens_value_append, concat_opens, encode_item_opens.
Qed.

Lemma reads_back_all v : dict_wf v = true -> reads_back v.
Proof.
  induction v as [s|l IH|d IH] using pyval_ind; intros Hwf level fuel rest Hfuel.
  - destruct fuel as [|fuel]; [simpl in Hfuel; lia|].
    cbn [iterencode]. rewrite encode_basestring_ascii_append, scan_once_S.
    change (Ascii.eqb dquote dquote) with true. cbv iota.
    now rewrite scanstring_encoded.
  - cbn [dict_wf] in Hwf.
    assert (Hall : Forall reads_back l).
    { rewrite Forall_forall in IH |- *. rewrite forallb_forall in Hwf. auto. }
    destruct l as [|x xs]; (destruct fuel as [|fuel]; [simpl in Hfuel; lia|]).
    + reflexivity.
    + cbn [pyval_size] in Hfuel. apply le_S_n in Hfuel.
      cbn [iterencode]. rewrite scan_once_S. cbn [append].
      change (Ascii.eqb "[" dquote) with false. change (Ascii.eqb "[" "{") with false.
      change (Ascii.eqb "[" "[") with true. cbv iota.
      rewrite !append_assoc, skip_space_newline_indent.
      change ("]" ++ rest) with (String "]" rest).
      pose proof (parse_array_items level rest xs x [] fuel Hall Hfuel) as Hloop.
      assert (Hopen : opens_value
                (String.concat (item_separator (S level))
                   (map (iterencode (S level)) (x :: xs))
                 ++ newline_indent level ++ String "]" rest)).
      { apply opens_value_append. cbn [map]. apply concat_opens, iterencode_opens. }
      rewrite (skip_space_opens _ Hopen).
      destruct Hopen as (c & s' & E & Hc). rewrite E in Hloop |- *.
      replace (Ascii.eqb c "]") with false
        by (destruct Hc as [->|[->| ->]]; reflexivity).
      exact Hloop.
  - cbn [dict_wf] in Hwf. apply andb_prop in Hwf. destruct Hwf as [Huniq Hwf].
    assert (Hall : Forall (fun kv => reads_back (snd kv)) d).
    { rewrite Forall_forall in IH |- *. rewrite forallb_forall in Hwf. auto. }
    destruct d as [|kv kvs]; (destruct fuel as [|fuel]; [simpl in Hfuel; lia|]).
    + reflexivity.
    + cbn [pyval_size] in Hfuel. apply le_S_n in Hfuel.
      cbn [iterencode].
      change (fun kv0 : string * pyval =>
                encode_basestring_ascii (fst kv0) ++ ": " ++ iterencode (S level) (snd kv0))
        with (encode_item (S level)).
      rewrite scan_once_S. cbn [append].
      change (Ascii.eqb "{" dquote) with false. change (Ascii.eqb "{" "{") with true.
      cbv iota.
      rewrite !append_assoc, skip_space_newline_indent.
      change ("}" ++ rest) with (String "}" rest).
      pose proof (parse_object_items level rest kvs kv [] fuel Hall Huniq Hfuel) as Hloop.
      assert (Hopen : opens_value
                (String.concat (item_separator (S level))
                   (map (encode_item (S level)) (kv :: kvs))
                 ++ newline_indent level ++ String "}" rest)).
      { apply opens_value_append. cbn [map]. apply concat_opens, encode_item_opens. }
      rewrite (skip_space_opens _ Hopen).
      destruct Hopen as (c & s' & E & Hc). rewrite E in Hloop |- *.
      replace (Ascii.eqb c "}") with false
        by (destruct Hc as [->|[->| ->]]; reflexivity).
      exact Hloop.
Qed.

(** The text is long enough for the fuel [loads] gives. *)
Lemma concat_length_lower sep (ls : list string) :
  (1 <= String.length sep)%nat ->
  (list_sum (map (fun s => S (String.length s)) ls)
   <= String.length (String.concat sep ls) + 1)%nat.
Proof.
  intros Hsep. induction ls as [|a [|b ls] IH].
  - simpl. lia.
  - simpl. lia.
  - rewrite concat_cons2, !length_append.
    change (list_sum (map (fun s => S (String.length s)) (a :: b :: ls)))
      with (S (String.length a)
            + list_sum (map (fun s => S (String.length s)) (b :: ls)))%nat.
    lia.
Qed.

Lemma list_sum_map_le {A : Type} (f g : A -> nat) l :
  Forall (fun x => (f x <= g x)%nat) l ->
  (list_sum (map f l) <= list_sum (map g l))%nat.
Proof.
  induction 1 as [|x l Hx _ IH]; [simpl; lia|].
  change (f x + list_sum (map f l) <= g x + list_sum (map g l))%nat. lia.
Qed.

Lemma item_separator_length level : (1 <= String.length (item_separator level))%nat.
Proof. unfold item_separator. simpl. lia. Qed.

Lemma encode_basestring_ascii_length s :
  (2 <= String.length (encode_basestring_ascii s))%nat.
Proof.
  unfold encode_basestring_ascii. cbn [String.length].
  rewrite length_append. simpl. lia.
Qed.

Lemma pyval_size_le_length v : forall level,
  (pyval_size v <= String.length (iterencode level v))%nat.
Proof.
  induction v as [s|l IH|d IH] using pyval_ind; intros level.
  - cbn [pyval_size iterencode]. pose proof (encode_basestring_ascii_length s). lia.
  - destruct l as [|x xs]; [simpl; lia|].
    cbn [pyval_size iterencode]. rewrite !length_append.
    pose proof (concat_length_lower (item_separator (S level))
                  (map (iterencode (S level)) (x :: xs))
                  (item_separator_length _)) as Hc.
    rewrite map_map in Hc.
    assert (Hle : (list_sum (map (fun y => S (pyval_size y)) (x :: xs))
                   <= list_sum (map (fun y => S (String.length (iterencode (S level) y)))
                                    (x :: xs)))%nat).
    { apply list_sum_map_le. eapply Forall_impl; [|exact IH].
      intros y Hy. specialize (Hy (S level)). simpl in Hy |- *. lia. }
    unfold newline_indent at 1 2. cbn [String.length]. lia.
  - destruct d as [|kv kvs]; [simpl; lia|].
    cbn [pyval_size iterencode]. rewrite !length_append.
    pose proof (concat_length_lower (item_separator (S level))
                  (map (fun kv0 => encode_basestring_ascii (fst kv0) ++ ": "
                                     ++ iterencode (S level) (snd kv0)) (kv :: kvs))
                  (item_separator_length _)) as Hc.
    rewrite map_map in Hc.
    assert (Hle : (list_sum (map (fun y => S (pyval_size (snd y))) (kv :: kvs))
                   <= list_sum
                        (map (fun y => S (String.length
                                            (encode_basestring_ascii (fst y) ++ ": "
                                               ++ iterencode (S level) (snd y))))
                             (kv :: kvs)))%nat).
    { apply list_sum_map_le. eapply Forall_impl; [|exact IH].
      intros y Hy. specialize (Hy (S level)). cbn beta in Hy |- *.
      rewrite !length_append. lia. }
    unfold newline_indent at 1 2. cbn [String.length]. lia.
Qed.

Lemma loads_dumps v : dict_wf v = true -> loads (dumps v) = Some v.
Proof.
  intros Hwf. unfold loads, dumps.
  rewrite skip_space_opens by apply iterencode_opens.
  rewrite <- (append_empty_r (iterencode 0 v)) at 2.
  rewrite (reads_back_all v Hwf).
  - reflexivity.
  - pose proof (pyval_size_le_length v 0). lia.
Qed.

(** ** The round trip through a file *)

Lemma Tree_init_json dic t : Tree_init dic = Ok t -> json t = dumps dic.
Proof.
  intros Ht. apply Tree_init_Ok_inv in Ht.
  destruct Ht as (d & ch & -> & _ & ->). reflexivity.
Qed.

(** C3. The text a tree built from a record writes, read back by
    [from_json], gives a tree that writes the same text again, character
    for character; it is the same tree. *)
Theorem C3_json_round_trip (dic : pyval) (t : Tree) :
  dict_wf dic = true ->
  Tree_init dic = Ok t ->
  exists t', from_json (to_json t) = Ok t' /\ to_json t' = to_json t /\ t' = t.
Proof.
  intros Hwf Ht. exists t. split; [|now split].
  unfold from_json, to_json. rewrite (Tree_init_json _ _ Ht), (loads_dumps _ Hwf).
  exact Ht.
Qed.

(** ** The fuel of [loads] *)

Lemma skip_space_length s : (String.length (skip_space s) <= String.length s)%nat.
Proof.
  induction s as [|c s IH]; [simpl; lia|].
  cbn [skip_space]. destruct (is_json_space c); simpl in *; lia.
Qed.

Lemma cons_char_inv c r x rest :
  cons_char c r = Some (x, rest) ->
  exists y, r = Some (y, rest) /\ x = String c y.
Proof.
  destruct r as [[y r']|]; simpl; [|discriminate].
  intros [= <- <-]. now exists y.
Qed.

Lemma scanstring_shrinks n : forall s x rest,
  (String.length s <= n)%nat ->
  scanstring s = Some (x, rest) ->
  (String.length rest < String.length s)%nat.
Proof.
  induction n as [|n IH]; intros s x rest Hn Hs;
    destruct s as [|c s1]; try discriminate; [simpl in Hn; lia|].
  cbn [String.length] in Hn |- *. apply le_S_n in Hn.
  cbn [scanstring] in Hs.
  destruct (Ascii.eqb c dquote).
  { injection Hs as _ <-. lia. }
  destruct (Ascii.eqb c backslash).
  - destruct s1 as [|e s2]; [discriminate|]. cbn [String.length] in Hn |- *.
    destruct (Ascii.eqb e "u").
    + destruct s2 as [|h1 [|h2 [|h3 [|h4 s3]]]]; try discriminate.
      destruct (hex4 h1 h2 h3 h4) as [k|]; [|discriminate].
      destruct (k <? 256)%N; [|discriminate].
      apply cons_char_inv in Hs. destruct Hs as (y & Hs & _).
      cbn [String.length] in Hn |- *.
      apply IH in Hs; lia.
    + destruct (unescape e) as [ch|]; [|discriminate].
      apply cons_char_inv in Hs. destruct Hs as (y & Hs & _).
      apply IH in Hs; lia.
  - destruct (code c <? 32)%N; [discriminate|].
    apply cons_char_inv in Hs. destruct Hs as (y & Hs & _).
    apply IH in Hs; lia.
Qed.

Lemma skip_space_cons s c s' :
  skip_space s = String c s' -> (String.length s' < String.length s)%nat.
Proof.
  intros H. pose proof (skip_space_length s) as Hl. rewrite H in Hl. simpl in Hl. lia.
Qed.

(** Each of the three functions leaves less text than it was given. *)
Lemma scan_shrinks n :
  (forall s v rest, scan_once n s = Some (v, rest) ->
                    (String.length rest < String.length s)%nat)
  /\ (forall s acc v rest, parse_array n s acc = Some (v, rest) ->
                           (String.length rest < String.length s)%nat)
  /\ (forall s acc v rest, parse_object n s acc = Some (v, rest) ->
                           (String.length rest < String.length s)%nat).
Proof.
  induction n as [|n (IHs & IHa & IHo)]; [repeat split; discriminate|].
  split; [|split].
  - intros s v rest H. rewrite scan_once_S in H.
    destruct s as [|c s1]; [discriminate|]. cbn [String.length].
    destruct (Ascii.eqb c dquote).
    { destruct (scanstring s1) as [[x r]|] eqn:E; [|discriminate].
      injection H as _ <-. apply (scanstring_shrinks _ _ _ _ (le_n _)) in E. lia. }
    destruct (Ascii.eqb c "{").
    { destruct (skip_space s1) as [|c' s2] eqn:E; [discriminate|].
      pose proof (skip_space_length s1) as Hl. rewrite E in Hl.
      destruct (Ascii.eqb c' "}").
      - injection H as _ <-. simpl in Hl. lia.
      - apply IHo in H. lia. }
    destruct (Ascii.eqb c "["); [|discriminate].
    destruct (skip_space s1) as [|c' s2] eqn:E; [discriminate|].
    pose proof (skip_space_length s1) as Hl. rewrite E in Hl.
    destruct (Ascii.eqb c' "]").
    + injection H as _ <-. simpl in Hl. lia.
    + apply IHa in H. lia.
  - intros s acc v rest H. rewrite parse_array_S in H.
    destruct (scan_once n s) as [[v1 s1]|] eqn:E; [|discriminate].
    apply IHs in E.
    destruct (skip_space s1) as [|c s2] eqn:E1; [discriminate|].
    apply skip_space_cons in E1.
    destruct (Ascii.eqb c "]").
    + injection H as _ <-. lia.
    + destruct (Ascii.eqb c ","); [|discriminate].
      apply IHa in H. pose proof (skip_space_length s2). lia.
  - intros s acc v rest H. rewrite parse_object_S in H.
    destruct s as [|q s1]; [discriminate|]. cbn [String.length].
    destruct (Ascii.eqb q dquote); [|discriminate].
    destruct (scanstring s1) as [[key s2]|] eqn:E; [|discriminate].
    apply (scanstring_shrinks _ _ _ _ (le_n _)) in E.
    destruct (skip_space s2) as [|colon s3] eqn:E2; [discriminate|].
    apply skip_space_cons in E2.
    destruct (Ascii.eqb colon ":"); [|discriminate].
    destruct (scan_once n (skip_space s3)) as [[v1 s4]|] eqn:E3; [|discriminate].
    apply IHs in E3. pose proof (skip_space_length s3).
    destruct (skip_space s4) as [|c s5] eqn:E4; [discriminate|].
    apply skip_space_cons in E4.
    destruct (Ascii.eqb c "}").
    + injection H as _ <-. lia.
    + destruct (Ascii.eqb c ","); [|discriminate].
      apply IHo in H. pose proof (skip_space_length s5). lia.
Qed.

(** With twice the length of the text as fuel, and one more, [scan_once]
    has all it needs: more fuel gives the same result. *)
Lemma scan_fuel_stable n :
  (forall s m,
      (2 * String.length s + 1 <= n)%nat -> (2 * String.length s + 1 <= m)%nat ->
      scan_once n s = scan_once m s)
  /\ (forall s acc m,
         (2 * String.length s + 2 <= n)%nat -> (2 * String.length s + 2 <= m)%nat ->
         parse_array n s acc = parse_array m s acc)
  /\ (forall s acc m,
         (2 * String.length s + 2 <= n)%nat -> (2 * String.length s + 2 <= m)%nat ->
         parse_object n s acc = parse_object m s acc).
Proof.
  induction n as [|n (IHs & IHa & IHo)]; [repeat split; intros; lia|].
  split; [|split].
  - intros s m Hn Hm. destruct m as [|m]; [lia|].
    rewrite !scan_once_S. destruct s as [|c s1]; [reflexivity|].
    cbn [String.length] in Hn, Hm.
    destruct (Ascii.eqb c dquote); [reflexivity|].
    pose proof (skip_space_length s1) as Hl.
    destruct (Ascii.eqb c "{").
    { destruct (skip_space s1) as [|c' s2]; [reflexivity|].
      destruct (Ascii.eqb c' "}"); [reflexivity|]. apply IHo; lia. }
    destruct (Ascii.eqb c "["); [|reflexivity].
    destruct (skip_space s1) as [|c' s2]; [reflexivity|].
    destruct (Ascii.eqb c' "]"); [reflexivity|]. apply IHa; lia.
  - intros s acc m Hn Hm. destruct m as [|m]; [lia|].
    rewrite !parse_array_S. rewrite (IHs s m) by lia.
    destruct (scan_once m s) as [[v1 s1]|] eqn:E; [|reflexivity].
    apply (proj1 (scan_shrinks m)) in E.
    destruct (skip_space s1) as [|c s2] eqn:E1; [reflexivity|].
    apply skip_space_cons in E1. pose proof (skip_space_length s2).
    destruct (Ascii.eqb c "]"); [reflexivity|].
    destruct (Ascii.eqb c ","); [|reflexivity]. apply IHa; lia.
  - intros s acc m Hn Hm. destruct m as [|m]; [lia|].
    rewrite !parse_object_S. destruct s as [|q s1]; [reflexivity|].
    cbn [String.length] in Hn, Hm.
    destruct (Ascii.eqb q dquote); [|reflexivity].
    destruct (scanstring s1) as [[key s2]|] eqn:E; [|reflexivity].
    apply (scanstring_shrinks _ _ _ _ (le_n _)) in E.
    destruct (skip_space s2) as [|colon s3] eqn:E2; [reflexivity|].
    apply skip_space_cons in E2.
    destruct (Ascii.eqb colon ":"); [|reflexivity].
    pose proof (skip_space_length s3).
    rewrite (IHs (skip_space s3) m) by lia.
    destruct (scan_once m (skip_space s3)) as [[v1 s4]|] eqn:E3; [|reflexivity].
    apply (proj1 (scan_shrinks m)) in E3.
    destruct (skip_space s4) as [|c s5] eqn:E4; [reflexivity|].
    apply skip_space_cons in E4. pose proof (skip_space_length s5).
    destruct (Ascii.eqb c "}"); [reflexivity|].
    destruct (Ascii.eqb c ","); [|reflexivity]. apply IHo; lia.
Qed.

(** The fuel [loads] gives is enough for any text. *)
Lemma loads_fuel_enough s m :
  (2 * String.length s < m)%nat ->
  scan_once m (skip_space s) = scan_once (S (2 * String.length s)) (skip_space s).
Proof.
  intros Hm. pose proof (skip_space_length s).
  apply (proj1 (scan_fuel_stable m)); lia.
Qed.

(** ** The parser *)

Lemma scan_line_invariant indent k st line :
  scan_invariant k st -> scan_invariant (S k) (scan_line indent st line).
Proof.
  intros [Hoff Hon]. unfold scan_line.
  destruct (start st) eqn:Es.
  - destruct (Hon eq_refl) as (Hc & Hlen & Hsub). cbn [negb andb].
    assert (Hsub' : Forall (fun x => fst x <> None /\ (List.length (snd x) < S k)%nat)
                           (subtrees st)).
    { eapply Forall_impl; [|exact Hsub]. intros x [H1 H2]. split; [exact H1 | lia]. }
    assert (Hpush : Forall (fun x => fst x <> None /\ (List.length (snd x) < S k)%nat)
                           (subtrees st ++ [(cur_clause st, cur_subtree st)])).
    { apply Forall_app. split; [exact Hsub'|]. constructor; [|constructor].
      split; [exact Hc | simpl; lia]. }
    destruct (search_if indent line) as [clause|].
    { split; cbn [start cur_clause cur_subtree subtrees]; [discriminate|].
      intros _. split; [discriminate|]. split; [lia | exact Hsub']. }
    destruct (search_body indent line).
    { split; cbn [start cur_clause cur_subtree subtrees]; [congruence|].
      intros _. split; [exact Hc|]. split; [|exact Hsub'].
      rewrite length_app. simpl. lia. }
    destruct (search_elif indent line) as [clause|].
    { split; cbn [start cur_clause cur_subtree subtrees]; [congruence|].
      intros _. split; [discriminate|]. split; [simpl; lia | exact Hpush]. }
    destruct (search_else indent line).
    { split; cbn [start cur_clause cur_subtree subtrees]; [congruence|].
      intros _. split; [discriminate|]. split; [simpl; lia | exact Hpush]. }
    split; [congruence|]. intros _. split; [exact Hc|]. split; [lia | exact Hsub'].
  - destruct (Hoff eq_refl) as (Hcur & Hsub). cbn [negb andb].
    destruct (search_if_word indent line); cbn [negb].
    + destruct (search_if indent line) as [clause|].
      * split; cbn [start cur_clause cur_subtree subtrees]; [discriminate|].
        intros _. split; [discriminate|]. rewrite Hcur, Hsub.
        split; [simpl; lia | constructor].
      * split; [intros _; now split | congruence].
    + split; cbn [start cur_clause cur_subtree subtrees]; [intros _; now split | congruence].
Qed.

Lemma fold_scan_invariant indent code : forall k st,
  scan_invariant k st ->
  scan_invariant (k + List.length code) (fold_left (scan_line indent) code st).
Proof.
  induction code as [|line code IH]; intros k st Hst; simpl.
  - now rewrite Nat.add_0_r.
  - replace (k + S (List.length code))%nat with (S k + List.length code)%nat by lia.
    apply IH. now apply scan_line_invariant.
Qed.

(** Every body that is kept has a label and fewer lines than the code. *)
Lemma scan_lines_labelled indent code carried x :
  In x (filter (fun x => nonempty (snd x)) (subtrees (scan_lines indent code carried))) ->
  fst x <> None /\ snd x <> [] /\ (List.length (snd x) < List.length code)%nat.
Proof.
  intros Hin. apply filter_In in Hin. destruct Hin as [Hin Hne].
  assert (Hne' : snd x <> []) by (destruct (snd x); [discriminate | discriminate]).
  pose proof (fold_scan_invariant indent code 0 (scan_init carried)) as Hinv.
  cbn [Nat.add] in Hinv.
  assert (H0 : scan_invariant 0 (scan_init carried)).
  { split; cbn [scan_init start]; [intros _; now split | discriminate]. }
  specialize (Hinv H0). destruct Hinv as [Hoff Hon].
  unfold scan_lines in Hin. cbn [subtrees] in Hin.
  set (st := fold_left (scan_line indent) code (scan_init carried)) in *.
  apply in_app_or in Hin.
  destruct (start st) eqn:Es.
  - destruct (Hon eq_refl) as (Hc & Hlen & Hsub).
    destruct Hin as [Hin|[<-|[]]].
    + rewrite Forall_forall in Hsub. destruct (Hsub _ Hin). now repeat split.
    + now repeat split.
  - destruct (Hoff eq_refl) as (Hcur & Hsub). exfalso.
    destruct Hin as [Hin|[<-|[]]].
    + rewrite Hsub in Hin. exact Hin.
    + now apply Hne'.
Qed.

Lemma list_comprehension_ext {A B : Type} (f g : A -> pyresult B) l :
  (forall x, In x l -> f x = g x) ->
  list_comprehension f l = list_comprehension g l.
Proof.
  induction l as [|x l IH]; intros H; simpl; [reflexivity|].
  rewrite (H x (or_introl eq_refl)), IH; [reflexivity|].
  intros y Hy. apply H. now right.
Qed.

Lemma list_comprehension_returns {A B : Type} (f : A -> pyresult B) l :
  (forall x, In x l -> exists y, f x = Ok y) ->
  exists ys, list_comprehension f l = Ok ys.
Proof.
  induction l as [|x l IH]; intros H; simpl; [now exists []|].
  destruct (H x (or_introl eq_refl)) as [y ->].
  destruct IH as [ys ->]; [intros z Hz; apply H; now right|].
  simpl. now eexists.
Qed.

(** The fuel of [parse_python] is enough: more of it changes nothing. *)
Lemma parse_python_rec_stable n : forall m code carried,
  (List.length code < n)%nat -> (List.length code < m)%nat ->
  parse_python_rec n code carried = parse_python_rec m code carried.
Proof.
  induction n as [|n IH]; intros m code carried Hn Hm; [lia|].
  destruct m as [|m]; [lia|].
  destruct code as [|first code]; [reflexivity|].
  cbn [parse_python_rec].
  set (st := scan_lines (leading_space first) (first :: code) carried).
  erewrite list_comprehension_ext; [reflexivity|].
  intros x Hx. apply scan_lines_labelled in Hx. destruct Hx as (_ & _ & Hlen).
  rewrite (IH m); [reflexivity | lia | lia].
Qed.

(** On at least one line the parser returns a dictionary. *)
Lemma parse_python_rec_returns n : forall code carried,
  code <> [] -> (List.length code < n)%nat ->
  exists dic, parse_python_rec n code carried = Ok dic.
Proof.
  induction n as [|n IH]; intros code carried Hne Hn; [lia|].
  destruct code as [|first code]; [now elim Hne|].
  cbn [parse_python_rec].
  set (st := scan_lines (leading_space first) (first :: code) carried).
  destruct (list_comprehension_returns
              (fun x => tree <- parse_python_rec n (snd x) (permeated st) ;;
                        Ok (PDict [("value", clause_label (fst x)); ("tree", tree)]))
              (filter (fun x => nonempty (snd x)) (subtrees st))) as [ys ->].
  - intros x Hx. apply scan_lines_labelled in Hx. destruct Hx as (_ & Hbody & Hlen).
    destruct (IH (snd x) (permeated st) Hbody) as [tree ->]; [lia|].
    cbn [bind]. eexists; reflexivity.
  - cbn [bind]. destruct (initial_clause st); eexists; reflexivity.
Qed.

Lemma parse_python_returns code carried :
  code <> [] -> exists dic, parse_python code carried = Ok dic.
Proof. intros Hne. apply parse_python_rec_returns; [exact Hne | lia]. Qed.

(** C2. The lines [if a:], [    x], [else:], [    y] parse to a node of
    content [a] with two children in the order of the clauses, a leaf [x]
    under the label [a] and a leaf [y] under the default label; the tree
    is 2 wide and 2 high. *)
Theorem C2_if_else_example :
  exists t x y,
    from_python ["if a:"; "    x"; "else:"; "    y"] = Ok t
    /\ content t = "a"
    /\ children t = [("a", x); (default_label, y)]
    /\ content x = "x" /\ children x = []
    /\ content y = "y" /\ children y = []
    /\ width t = 2 /\ height t = 2.
Proof.
  eexists _, _, _. split; [vm_compute; reflexivity|].
  repeat split.
Qed.

(** C6. On no line at all the parser does not return the empty leaf: the
    first line it indexes is missing and [IndexError] is raised.  One empty
    line, or the lone line [if:], does give the leaf with empty content. *)
Theorem C6_empty_input_raises :
  parse_python [] None = Raise IndexError
  /\ from_python [] = Raise IndexError
  /\ (forall carried dic, parse_python [] carried <> Ok dic)
  /\ parse_python [""] None = Ok (leaf_record "")
  /\ parse_python ["if:"] None = Ok (leaf_record "").
Proof.
  split; [reflexivity|]. split; [reflexivity|]. split; [|split; reflexivity].
  intros carried dic. destruct carried; discriminate.
Qed.

(** ** The layout *)

Lemma bind_Ok {A B : Type} (r : pyresult A) (k : A -> pyresult B) (b : B) :
  bind r k = Ok b -> exists a, r = Ok a /\ k a = Ok b.
Proof. destruct r as [a|e]; cbn; [now exists a | discriminate]. Qed.

Lemma plot_on_unfold st x_init y_init t ax :
  plot_on st x_init y_init t ax
  = (total_width <- compute_total_width t (node_width st) (gap_width st) ;;
     total_height <- compute_total_height t (node_height st) (gap_height st) ;;
     x <- centre_x total_width x_init ;;
     y <- centre_y st y_init ;;
     plot_children st total_width x_init y_init
       (fun x_exit child ax =>
          y_child <- child_y st y_init ;; plot_on st x_exit y_child child ax)
       (children t) x_init
       ((ax ++ [Ellipse x y (node_width st) (node_height st) (node_color st)])
          ++ [text x y (content t) ha_center va_center (text_color st) 8 true])%list).
Proof. destruct t; reflexivity. Qed.

Lemma plot_children_appends st tw x_init y_init plot_child items :
  Forall (fun kv => forall x, appends (plot_child x (snd kv))) items ->
  forall x_exit, appends (plot_children st tw x_init y_init plot_child items x_exit).
Proof.
  induction 1 as [|[name child] items Hc _ IH]; intros x_exit ax; cbn [plot_children].
  - cbn. now rewrite app_nil_r.
  - cbn [snd] in Hc.
    destruct (edge_label st tw x_init y_init x_exit name child) as [label|e]; [|reflexivity].
    destruct (edge_arrow st tw x_init y_init x_exit child) as [arr|e]; [|reflexivity].
    cbn [bind app].
    rewrite (Hc x_exit ((ax ++ [label]) ++ [arr])%list), (Hc x_exit [label; arr]).
    destruct (plot_child x_exit child []) as [drawn|e]; [|reflexivity].
    cbn [bind].
    destruct (next_x_exit st x_exit child) as [x'|e]; [|reflexivity].
    cbn [bind].
    rewrite (IH x' (((ax ++ [label]) ++ [arr]) ++ drawn)%list), (IH x' ([label; arr] ++ drawn)%list).
    destruct (plot_children st tw x_init y_init plot_child items x' []) as [rest|e];
      [|reflexivity].
    cbn [bind app]. now rewrite <- !app_assoc.
Qed.

Lemma plot_on_appends st t : forall x_init y_init, appends (plot_on st x_init y_init t).
Proof.
  induction t as [j c ch h w IH] using Tree_ind; intros x_init y_init ax.
  rewrite !plot_on_unfold. cbn [children content].
  destruct (compute_total_width _ _ _) as [tw|e]; [|reflexivity].
  destruct (compute_total_height _ _ _) as [th|e]; [|reflexivity].
  cbn [bind].
  destruct (centre_x tw x_init) as [x|e]; [|reflexivity].
  destruct (centre_y st y_init) as [y|e]; [|reflexivity].
  cbn [bind app].
  set (pc := fun (x_exit : pynum) (child : Tree) (ax : axes) =>
               y_child <- child_y st y_init ;; plot_on st x_exit y_child child ax).
  assert (Hch : Forall (fun kv => forall x, appends (pc x (snd kv))) ch).
  { eapply Forall_impl; [|exact IH]. intros kv Hkv x0 ax0. unfold pc.
    destruct (child_y st y_init) as [y_child|e]; [|reflexivity].
    cbn [bind]. apply Hkv. }
  rewrite (plot_children_appends _ _ _ _ _ _ Hch).
  rewrite (plot_children_appends _ _ _ _ _ _ Hch _ [_; _]).
  destruct (plot_children st tw x_init y_init pc ch x_init []) as [rest|e]; [|reflexivity].
  cbn [bind app]. now rewrite <- !app_assoc.
Qed.

Lemma plot_child_appends st y_init (items : list (string * Tree)) :
  Forall (fun kv => forall x,
              appends ((fun x_exit child ax =>
                          y_child <- child_y st y_init ;;
                          plot_on st x_exit y_child child ax) x (snd kv))) items.
Proof.
  apply Forall_forall. intros kv _ x ax.
  destruct (child_y st y_init) as [y_child|e]; [|reflexivity].
  cbn [bind]. apply plot_on_appends.
Qed.

(** The drawing of a node: its ellipse, its text, then what the loop over
    the children draws. *)
Lemma plot_on_root st x_init y_init t :
  plot_on st x_init y_init t []
  = (total_width <- compute_total_width t (node_width st) (gap_width st) ;;
     total_height <- compute_total_height t (node_height st) (gap_height st) ;;
     x <- centre_x total_width x_init ;;
     y <- centre_y st y_init ;;
     rest <- plot_children st total_width x_init y_init
               (fun x_exit child ax =>
                  y_child <- child_y st y_init ;; plot_on st x_exit y_child child ax)
               (children t) x_init [] ;;
     Ok (Ellipse x y (node_width st) (node_height st) (node_color st)
         :: text x y (content t) ha_center va_center (text_color st) 8 true
         :: rest)).
Proof.
  rewrite plot_on_unfold.
  destruct (compute_total_width _ _ _) as [tw|e]; [|reflexivity].
  destruct (compute_total_height _ _ _) as [th|e]; [|reflexivity].
  cbn [bind].
  destruct (centre_x tw x_init) as [x|e]; [|reflexivity].
  destruct (centre_y st y_init) as [y|e]; [|reflexivity].
  cbn [bind app].
  rewrite (plot_children_appends _ _ _ _ _ _ (plot_child_appends st y_init (children t))).
  destruct (plot_children _ _ _ _ _ _ _ []) as [rest|e]; reflexivity.
Qed.

Lemma plot_children_app st tw x_init y_init plot_child done items :
  forall x_exit ax,
    plot_children st tw x_init y_init plot_child (done ++ items) x_exit ax
    = (ax' <- plot_children st tw x_init y_init plot_child done x_exit ax ;;
       x_exit' <- x_exit_after st x_exit done ;;
       plot_children st tw x_init y_init plot_child items x_exit' ax').
Proof.
  induction done as [|[name child] done IH]; intros x_exit ax; [reflexivity|].
  cbn [app plot_children x_exit_after snd].
  destruct (edge_label st tw x_init y_init x_exit name child) as [label|e]; [|reflexivity].
  destruct (edge_arrow st tw x_init y_init x_exit child) as [arr|e]; [|reflexivity].
  cbn [bind].
  destruct (plot_child x_exit child _) as [drawn|e]; [|reflexivity].
  cbn [bind].
  destruct (next_x_exit st x_exit child) as [x'|e]; [|reflexivity].
  cbn [bind]. apply IH.
Qed.

(** The drawing of a node with the part of one child set apart. *)
Lemma plot_on_child st x_init y_init t before name child after drawn :
  children t = (before ++ (name, child) :: after)%list ->
  plot_on st x_init y_init t [] = Ok drawn ->
  exists tw x y x_exit y_child label arr child_drawn pre post,
    compute_total_width t (node_width st) (gap_width st) = Ok tw
    /\ centre_x tw x_init = Ok x
    /\ centre_y st y_init = Ok y
    /\ x_exit_after st x_init before = Ok x_exit
    /\ child_y st y_init = Ok y_child
    /\ edge_label st tw x_init y_init x_exit name child = Ok label
    /\ edge_arrow st tw x_init y_init x_exit child = Ok arr
    /\ plot_on st x_exit y_child child [] = Ok child_drawn
    /\ drawn
       = (Ellipse x y (node_width st) (node_height st) (node_color st)
          :: pre ++ label :: arr :: child_drawn ++ post)%list.
Proof.
  intros Hch Hplot.
  rewrite plot_on_root, Hch in Hplot.
  apply bind_Ok in Hplot. destruct Hplot as (tw & Htw & Hplot).
  apply bind_Ok in Hplot. destruct Hplot as (th & Hth & Hplot).
  apply bind_Ok in Hplot. destruct Hplot as (x & Hx & Hplot).
  apply bind_Ok in Hplot. destruct Hplot as (y & Hy & Hplot).
  apply bind_Ok in Hplot. destruct Hplot as (rest & Hrest & Hplot).
  injection Hplot as <-.
  rewrite plot_children_app in Hrest.
  apply bind_Ok in Hrest. destruct Hrest as (pre & Hpre & Hrest).
  apply bind_Ok in Hrest. destruct Hrest as (x_exit & Hx_exit & Hrest).
  cbn [plot_children] in Hrest.
  apply bind_Ok in Hrest. destruct Hrest as (label & Hlabel & Hrest).
  apply bind_Ok in Hrest. destruct Hrest as (arr & Harr & Hrest).
  apply bind_Ok in Hrest. destruct Hrest as (ax1 & Hchild & Hrest).
  apply bind_Ok in Hchild. destruct Hchild as (y_child & Hy_child & Hchild).
  rewrite plot_on_appends in Hchild.
  apply bind_Ok in Hchild. destruct Hchild as (child_drawn & Hchild & Hax1).
  injection Hax1 as <-.
  apply bind_Ok in Hrest. destruct Hrest as (x' & Hx' & Hrest).
  rewrite (plot_children_appends _ _ _ _ _ _ (plot_child_appends st y_init after)) in Hrest.
  apply bind_Ok in Hrest. destruct Hrest as (post & Hpost & Hrest).
  injection Hrest as <-.
  exists tw, x, y, x_exit, y_child, label, arr, child_drawn.
  exists (text x y (content t) ha_center va_center (text_color st) 8 true :: pre), post.
  repeat (split; [assumption|]).
  cbn [app]. now rewrite <- !app_assoc.
Qed.

Lemma plot_on_head st x_init y_init t drawn :
  plot_on st x_init y_init t [] = Ok drawn ->
  exists tw x y rest,
    compute_total_width t (node_width st) (gap_width st) = Ok tw
    /\ centre_x tw x_init = Ok x
    /\ centre_y st y_init = Ok y
    /\ drawn = Ellipse x y (node_width st) (node_height st) (node_color st) :: rest.
Proof.
  intros Hplot. rewrite plot_on_root in Hplot.
  apply bind_Ok in Hplot. destruct Hplot as (tw & Htw & Hplot).
  apply bind_Ok in Hplot. destruct Hplot as (th & Hth & Hplot).
  apply bind_Ok in Hplot. destruct Hplot as (x & Hx & Hplot).
  apply bind_Ok in Hplot. destruct Hplot as (y & Hy & Hplot).
  apply bind_Ok in Hplot. destruct Hplot as (rest & Hrest & Hplot).
  injection Hplot as <-.
  now exists tw, x, y, (text x y (content t) ha_center va_center (text_color st) 8 true :: rest).
Qed.

#[local] Open Scope Q_scope.

Lemma value_extended a q : value a = Some q -> extended_of a = Finite q.
Proof. unfold value. destruct (extended_of a); intros H; now inversion H. Qed.

Lemma py_gt_values a b p q :
  value a = Some p -> value b = Some q ->
  (py_gt a b = true -> q < p) /\ (py_gt a b = false -> p <= q).
Proof.
  intros Ha Hb. unfold py_gt.
  rewrite (value_extended _ _ Ha), (value_extended _ _ Hb).
  destruct (Qcompare p q) eqn:E; split; intros H; try discriminate.
  - apply Qeq_alt in E. rewrite E. apply Qle_refl.
  - apply Qlt_alt in E. now apply Qlt_le_weak.
  - now apply Qgt_alt in E.
Qed.

Lemma stands_for_true a q : stands_for a q = true -> exists r, value a = Some r /\ r == q.
Proof.
  unfold stands_for. destruct (value a) as [r|]; [|discriminate].
  intros H. exists r. split; [reflexivity | now apply Qeq_bool_iff].
Qed.

Lemma exact2_true op a b c :
  exact2 op a b c = true ->
  exists p q r, value a = Some p /\ value b = Some q /\ value c = Some r /\ r == op p q.
Proof.
  unfold exact2. destruct (value a) as [p|]; [|discriminate].
  destruct (value b) as [q|]; [|discriminate].
  intros H. apply stands_for_true in H. destruct H as (r & Hr & E).
  now exists p, q, r.
Qed.

Lemma exact1_true op a c :
  exact1 op a c = true ->
  exists p r, value a = Some p /\ value c = Some r /\ r == op p.
Proof.
  unfold exact1. destruct (value a) as [p|]; [|discriminate].
  intros H. apply stands_for_true in H. destruct H as (r & Hr & E).
  now exists p, r.
Qed.

Lemma is_true_Ok (r : pyresult bool) :
  match r with Ok b => b | Raise _ => false end = true -> r = Ok true.
Proof. destruct r as [[|]|e]; intros H; try discriminate; reflexivity. Qed.

(** Two readings of what one number stands for are the same. *)
Ltac same_values :=
  repeat match goal with
         | H1 : value ?a = Some ?p, H2 : value ?a = Some ?q |- _ =>
             rewrite H1 in H2; injection H2 as H2; subst q
         end.

(** C7, where the doubles do not round.  For a node and each of its
    children: the label of the edge is drawn between the ellipse of the
    node, centred at [(px, py)], and the ellipse of the child, centred at
    [(cx, cy)].  When no operation on the way rounds ([label_x_exact],
    [label_y_exact]), its ordinate is half way between the bottom of the
    first and the top of the second, and its abscissa is the middle of [px]
    and [cx] moved by 2: to the right and aligned left when the middle is
    right of [px], to the left and aligned right otherwise. *)
Theorem C7_edge_label_position (st : style) (x_init y_init x_exit : pynum) (t : Tree)
        (before after : list (string * Tree)) (name : string) (child : Tree)
        (drawn : axes) :
  children t = (before ++ (name, child) :: after)%list ->
  x_exit_after st x_init before = Ok x_exit ->
  plot_on st x_init y_init t [] = Ok drawn ->
  label_x_exact st t x_init x_exit child = true ->
  label_y_exact st y_init = true ->
  exists px py cx cy lx ly ha y_child pre a child_drawn child_rest post,
    drawn
    = (Ellipse px py (node_width st) (node_height st) (node_color st)
       :: pre
       ++ text lx ly name ha va_bottom (arrow_label_color st) 6 false
       :: a
       :: child_drawn ++ post)%list
    /\ child_y st y_init = Ok y_child
    /\ plot_on st x_exit y_child child [] = Ok child_drawn
    /\ child_drawn
       = Ellipse cx cy (node_width st) (node_height st) (node_color st) :: child_rest
    /\ exists p q c d l m h,
         value px = Some p /\ value py = Some q
         /\ value cx = Some c /\ value cy = Some d
         /\ value lx = Some l /\ value ly = Some m
         /\ value (node_height st) = Some h
         /\ m == ((q - h / 2) + (d + h / 2)) / 2
         /\ (p < (p + c) / 2 -> ha = ha_left /\ l == (p + c) / 2 + 2)
         /\ ((p + c) / 2 <= p -> ha = ha_right /\ l == (p + c) / 2 - 2).
Proof.
  intros Hch Hexit Hplot Hx Hy.
  destruct (plot_on_child st x_init y_init t before name child after drawn Hch Hplot)
    as (tw & px & py & x_exit' & y_child & label & arr & child_drawn & pre & post
        & Htw & Hpx & Hpy & Hexit' & Hy_child & Hlabel & Harr & Hchild & ->).
  rewrite Hexit in Hexit'. injection Hexit' as <-.
  destruct (plot_on_head st x_exit y_child child child_drawn Hchild)
    as (ctw & cx & cy & child_rest & Hctw & Hcx & Hcy & ->).
  (* the abscissas *)
  apply is_true_Ok in Hx. rewrite Htw in Hx. cbn [bind] in Hx. rewrite Hpx in Hx.
  cbn [bind] in Hx. apply bind_Ok in Hx. destruct Hx as (s1 & Hs1 & Hx).
  rewrite Hctw in Hx. cbn [bind] in Hx.
  apply bind_Ok in Hx. destruct Hx as (half & Hhalf & Hx).
  apply bind_Ok in Hx. destruct Hx as (s2 & Hs2 & Hx).
  apply bind_Ok in Hx. destruct Hx as (x_label & Hx_label & Hx).
  unfold centre_x in Hcx. rewrite Hhalf in Hcx. cbn [bind] in Hcx. rewrite Hcx in Hx.
  cbn [bind] in Hx.
  apply bind_Ok in Hx. destruct Hx as (right & Hright & Hx).
  apply bind_Ok in Hx. destruct Hx as (left & Hleft & Hx).
  injection Hx as Hx. repeat (apply andb_true_iff in Hx; destruct Hx as [Hx ?]).
  (* the ordinates *)
  apply is_true_Ok in Hy. cbv zeta in Hy.
  apply bind_Ok in Hy. destruct Hy as (hn & Hhn & Hy).
  unfold centre_y in Hpy, Hcy. rewrite Hhn in Hpy, Hcy. cbn [bind] in Hpy, Hcy.
  rewrite Hpy in Hy. cbn [bind] in Hy.
  pose proof Hy_child as Hy_child0. unfold child_y in Hy_child.
  apply bind_Ok in Hy_child. destruct Hy_child as (y1 & Hy1 & Hy_child).
  rewrite Hy1 in Hy. cbn [bind] in Hy. rewrite Hy_child in Hy. cbn [bind] in Hy.
  rewrite Hcy in Hy. cbn [bind] in Hy.
  apply bind_Ok in Hy. destruct Hy as (hg & Hhg & Hy).
  apply bind_Ok in Hy. destruct Hy as (dd & Hdd & Hy).
  apply bind_Ok in Hy. destruct Hy as (y_label & Hy_label & Hy).
  injection Hy as Hy. repeat (apply andb_true_iff in Hy; destruct Hy as [Hy ?]).
  (* the label *)
  unfold edge_label, label_x, label_y in Hlabel.
  rewrite Hpx in Hlabel. cbn [bind] in Hlabel.
  rewrite Hs1 in Hlabel. cbn [bind] in Hlabel.
  rewrite Hctw in Hlabel. cbn [bind] in Hlabel.
  rewrite Hhalf in Hlabel. cbn [bind] in Hlabel.
  rewrite Hs2 in Hlabel. cbn [bind] in Hlabel.
  rewrite Hx_label in Hlabel. cbn [bind] in Hlabel.
  rewrite Hhg in Hlabel. cbn [bind] in Hlabel.
  rewrite Hdd in Hlabel. cbn [bind] in Hlabel.
  rewrite Hy_label in Hlabel. cbn [bind] in Hlabel.
  repeat match goal with
         | H : exact2 _ _ _ _ = true |- _ =>
             apply exact2_true in H; destruct H as (? & ? & ? & ? & ? & ? & ?)
         | H : exact1 _ _ _ = true |- _ =>
             apply exact1_true in H; destruct H as (? & ? & ? & ? & ?)
         end.
  same_values. unfold Qhalf in *.
  repeat match goal with
         | H : value (PInt 2) = Some ?q |- _ => cbn in H; injection H as H; subst q
         end.
  change (inject_Z 2) with 2 in *.
  match goal with
  | Hl : value x_label = Some ?l, Hp : value px = Some ?p |- _ =>
      destruct (py_gt_values x_label px l p Hl Hp) as [Hgt Hle]
  end.
  unfold Qdiv in *. change (/ 2) with (1 # 2) in *.
  destruct (py_gt x_label px) eqn:Eside.
  - specialize (Hgt eq_refl). clear Hle.
    rewrite Hright in Hlabel. cbn [bind] in Hlabel. injection Hlabel as <-.
    exists px, py, cx, cy, right, y_label, ha_left, y_child, pre, arr.
    eexists _, child_rest, post.
    split; [reflexivity|]. split; [exact Hy_child0|]. split; [exact Hchild|].
    split; [reflexivity|].
    do 7 eexists.
    repeat (split; [eassumption|]).
    split; [lra|]. split.
    + intros _. split; [reflexivity | lra].
    + intros Hmid. exfalso. lra.
  - specialize (Hle eq_refl). clear Hgt.
    rewrite Hleft in Hlabel. cbn [bind] in Hlabel. injection Hlabel as <-.
    exists px, py, cx, cy, left, y_label, ha_right, y_child, pre, arr.
    eexists _, child_rest, post.
    split; [reflexivity|]. split; [exact Hy_child0|]. split; [exact Hchild|].
    split; [reflexivity|].
    do 7 eexists.
    repeat (split; [eassumption|]).
    split; [lra|]. split.
    + intros Hmid. exfalso. lra.
    + intros _. split; [reflexivity | lra].
Qed.

#[local] Close Scope Q_scope.

(** ** No size is checked *)

Lemma fits_as_float a : fits a = true -> exists f, as_float a = Ok f.
Proof. unfold fits. destruct (as_float a) as [f|e]; [now exists f | discriminate]. Qed.

Lemma py_binop_float_l on_int on_float f b :
  fits b = true -> exists g, py_binop on_int on_float (PFloat f) b = Ok (PFloat g).
Proof.
  intros Hb. apply fits_as_float in Hb. destruct Hb as (y & Hy).
  unfold py_binop. cbn [as_float bind]. rewrite Hy. cbn [bind]. now eexists.
Qed.

Lemma py_binop_float_r on_int on_float a g :
  fits a = true -> exists h, py_binop on_int on_float a (PFloat g) = Ok (PFloat h).
Proof.
  intros Ha. apply fits_as_float in Ha. destruct Ha as (x & Hx).
  unfold py_binop. destruct a as [z|f]; cbn [as_float] in *; rewrite ?Hx; cbn [bind];
    [|injection Hx as <-]; now eexists.
Qed.

Lemma py_half_float f : py_half (PFloat f) = Ok (PFloat (PrimFloat.div f 2)).
Proof. reflexivity. Qed.

Lemma fits_float f : fits (PFloat f) = true.
Proof. reflexivity. Qed.

Lemma is_float_true a : is_float a = true -> exists f, a = PFloat f.
Proof. destruct a as [z|f]; [discriminate | now exists f]. Qed.

(** With a float size and a float gap, the total along one side is a
    double whenever the count fits. *)
Lemma total_float (count : Z) (size gap : float) :
  fits (PInt count) = true -> fits (PInt (count - 1)) = true ->
  exists f,
    (a <- py_mul (PInt count) (PFloat size) ;;
     b <- py_mul (PInt (count - 1)) (PFloat gap) ;;
     py_add a b) = Ok (PFloat f).
Proof.
  intros H1 H2.
  destruct (py_binop_float_r Z.mul PrimFloat.mul (PInt count) size H1) as (a & Ha).
  destruct (py_binop_float_r Z.mul PrimFloat.mul (PInt (count - 1)) gap H2) as (b & Hb).
  unfold py_mul. rewrite Ha. cbn [bind]. rewrite Hb. cbn [bind]. now eexists.
Qed.

Lemma counts_fit_root t :
  counts_fit t = true ->
  (fits (PInt (width t)) = true /\ fits (PInt (width t - 1)) = true
   /\ fits (PInt (height t)) = true /\ fits (PInt (height t - 1)) = true)
  /\ Forall (fun kv => counts_fit (snd kv) = true) (children t).
Proof.
  unfold counts_fit. destruct t as [j c ch h w]. cbn [nodes children forallb].
  intros H. apply andb_true_iff in H. destruct H as [Hroot Hsub].
  repeat (apply andb_true_iff in Hroot; destruct Hroot as [Hroot ?]).
  split; [now repeat split|].
  apply Forall_forall. intros kv Hkv.
  rewrite forallb_forall in Hsub |- *. intros n Hn. apply Hsub.
  apply in_flat_map. now exists kv.
Qed.

Section FloatSizes.

(** A style whose two sizes and two gaps are floats. *)
Variable st : style.
Variables nw nh gw gh : float.
Hypothesis Hnw : node_width st = PFloat nw.
Hypothesis Hnh : node_height st = PFloat nh.
Hypothesis Hgw : gap_width st = PFloat gw.
Hypothesis Hgh : gap_height st = PFloat gh.

Lemma centre_x_float tw x_init :
  fits x_init = true -> exists f, centre_x (PFloat tw) x_init = Ok (PFloat f).
Proof.
  intros Hx. unfold centre_x. rewrite py_half_float. cbn [bind].
  apply py_binop_float_l, Hx.
Qed.

Lemma centre_y_float y_init :
  fits y_init = true -> exists f, centre_y st y_init = Ok (PFloat f).
Proof.
  intros Hy. unfold centre_y. rewrite Hnh. cbn [py_neg]. rewrite py_half_float.
  cbn [bind]. apply py_binop_float_l, Hy.
Qed.

Lemma child_y_float y_init :
  fits y_init = true -> exists f, child_y st y_init = Ok (PFloat f).
Proof.
  intros Hy. unfold child_y. rewrite Hnh, Hgh.
  destruct (py_binop_float_r Z.sub PrimFloat.sub y_init nh Hy) as (y & E).
  unfold py_sub. rewrite E. cbn [bind]. now eexists.
Qed.

Lemma label_y_float y_init :
  fits y_init = true -> exists f, label_y st y_init = Ok (PFloat f).
Proof.
  intros Hy. unfold label_y. rewrite Hnh, Hgh. cbn [py_neg].
  rewrite py_half_float. cbn [bind].
  apply py_binop_float_l, Hy.
Qed.

Lemma label_x_float tw x_init x_exit child ctw :
  fits x_init = true -> fits x_exit = true ->
  compute_total_width child (node_width st) (gap_width st) = Ok (PFloat ctw) ->
  exists f, label_x st (PFloat tw) x_init x_exit child = Ok (PFloat f).
Proof.
  intros Hx He Hc. unfold label_x.
  destruct (centre_x_float tw x_init Hx) as (x & ->). cbn [bind].
  destruct (py_binop_float_l Z.add PrimFloat.add x x_exit He) as (s & Hs).
  unfold py_add at 1. rewrite Hs. cbn [bind]. rewrite Hc. cbn [bind].
  rewrite py_half_float. cbn [bind]. now eexists.
Qed.

Lemma edge_label_float tw x_init y_init x_exit name child ctw :
  fits x_init = true -> fits y_init = true -> fits x_exit = true ->
  compute_total_width child (node_width st) (gap_width st) = Ok (PFloat ctw) ->
  exists label, edge_label st (PFloat tw) x_init y_init x_exit name child = Ok label.
Proof.
  intros Hx Hy He Hc. unfold edge_label.
  destruct (label_x_float tw x_init x_exit child ctw Hx He Hc) as (xl & ->).
  destruct (label_y_float y_init Hy) as (yl & ->).
  destruct (centre_x_float tw x_init Hx) as (x & ->). cbn [bind].
  destruct (py_gt _ _); cbn; now eexists.
Qed.

Lemma edge_arrow_float tw x_init y_init x_exit child ctw :
  fits x_init = true -> fits y_init = true -> fits x_exit = true ->
  compute_total_width child (node_width st) (gap_width st) = Ok (PFloat ctw) ->
  exists arr, edge_arrow st (PFloat tw) x_init y_init x_exit child = Ok arr.
Proof.
  intros Hx Hy He Hc. unfold edge_arrow.
  destruct (centre_x_float tw x_init Hx) as (x & ->). cbn [bind].
  rewrite Hc. rewrite Hnh. cbn [py_neg].
  destruct (py_binop_float_l Z.add PrimFloat.add (PrimFloat.opp nh) y_init Hy) as (y & E).
  unfold py_add at 1. rewrite E. cbn [bind].
  rewrite py_half_float. cbn [bind].
  destruct (py_binop_float_r Z.add PrimFloat.add x_exit (PrimFloat.div ctw 2) He)
    as (cx & E').
  unfold py_add. rewrite E'. cbn [bind]. now eexists.
Qed.

Lemma next_x_exit_float x_exit child ctw :
  fits x_exit = true ->
  compute_total_width child (node_width st) (gap_width st) = Ok (PFloat ctw) ->
  exists f, next_x_exit st x_exit child = Ok (PFloat f).
Proof.
  intros He Hc. unfold next_x_exit. rewrite Hc. cbn [bind]. rewrite Hgw.
  cbn [py_add py_binop as_float bind].
  apply py_binop_float_r, He.
Qed.

Lemma compute_total_width_float t :
  fits (PInt (width t)) = true -> fits (PInt (width t - 1)) = true ->
  exists f, compute_total_width t (node_width st) (gap_width st) = Ok (PFloat f).
Proof. rewrite Hnw, Hgw. apply total_float. Qed.

Lemma compute_total_height_float t :
  fits (PInt (height t)) = true -> fits (PInt (height t - 1)) = true ->
  exists f, compute_total_height t (node_height st) (gap_height st) = Ok (PFloat f).
Proof. rewrite Hnh, Hgh. apply total_float. Qed.

Lemma plot_children_float tw x_init y_init plot_child items :
  fits x_init = true -> fits y_init = true ->
  Forall (fun kv =>
            counts_fit (snd kv) = true
            /\ forall x ax, fits x = true -> exists ax', plot_child x (snd kv) ax = Ok ax')
         items ->
  forall x_exit ax,
    fits x_exit = true ->
    exists ax',
      plot_children st (PFloat tw) x_init y_init plot_child items x_exit ax = Ok ax'.
Proof.
  intros Hx Hy. induction 1 as [|[name child] items [Hfit Hc] _ IH]; intros x_exit ax He.
  - now eexists.
  - cbn [plot_children]. cbn [snd] in Hfit, Hc.
    destruct (counts_fit_root child Hfit) as [(Hw & Hw1 & _) _].
    destruct (compute_total_width_float child Hw Hw1) as (ctw & Hctw).
    destruct (edge_label_float tw x_init y_init x_exit name child ctw Hx Hy He Hctw)
      as (label & ->).
    destruct (edge_arrow_float tw x_init y_init x_exit child ctw Hx Hy He Hctw)
      as (arr & ->).
    cbn [bind].
    destruct (Hc x_exit ((ax ++ [label]) ++ [arr])%list He) as (ax1 & ->). cbn [bind].
    destruct (next_x_exit_float x_exit child ctw He Hctw) as (x' & ->).
    cbn [bind]. apply IH. reflexivity.
Qed.

Lemma plot_on_float t :
  counts_fit t = true ->
  forall x_init y_init ax,
    fits x_init = true -> fits y_init = true ->
    exists ax', plot_on st x_init y_init t ax = Ok ax'.
Proof.
  induction t as [j c ch h w IH] using Tree_ind.
  intros Hfit x_init y_init ax Hx Hy.
  destruct (counts_fit_root _ Hfit) as [(Hw & Hw1 & Hh & Hh1) Hsub].
  cbn [children] in Hsub. rewrite plot_on_unfold. cbn [children content].
  destruct (compute_total_width_float _ Hw Hw1) as (tw & ->).
  destruct (compute_total_height_float _ Hh Hh1) as (th & ->).
  cbn [bind].
  destruct (centre_x_float tw x_init Hx) as (x & ->).
  destruct (centre_y_float y_init Hy) as (y & ->).
  cbn [bind].
  apply plot_children_float; try assumption.
  apply Forall_forall. intros kv Hkv. rewrite Forall_forall in IH, Hsub.
  split; [now apply Hsub|].
  intros x0 ax0 Hx0.
  destruct (child_y_float y_init Hy) as (yc & ->). cbn [bind].
  apply (IH kv Hkv (Hsub kv Hkv)); [exact Hx0 | reflexivity].
Qed.

End FloatSizes.

(** ** Integers within the doubles *)

Lemma digits2_pos_bounds (m : positive) :
  2 ^ (Zpos (digits2_pos m) - 1) <= Zpos m < 2 ^ Zpos (digits2_pos m).
Proof.
  induction m as [m IH|m IH|]; cbn [digits2_pos].
  - rewrite Pos2Z.inj_succ. replace (Z.succ (Zpos (digits2_pos m)) - 1) with (Zpos (digits2_pos m)) by lia.
    rewrite Z.pow_succ_r by lia.
    replace (2 ^ Zpos (digits2_pos m)) with (2 * 2 ^ (Zpos (digits2_pos m) - 1)) in *
      by (rewrite <- Z.pow_succ_r by lia; f_equal; lia).
    lia.
  - rewrite Pos2Z.inj_succ. replace (Z.succ (Zpos (digits2_pos m)) - 1) with (Zpos (digits2_pos m)) by lia.
    rewrite Z.pow_succ_r by lia.
    replace (2 ^ Zpos (digits2_pos m)) with (2 * 2 ^ (Zpos (digits2_pos m) - 1)) in *
      by (rewrite <- Z.pow_succ_r by lia; f_equal; lia).
    lia.
  - cbn. lia.
Qed.

Lemma digits2_pos_shift (m k : positive) :
  digits2_pos (Pos.iter xO m k) = (digits2_pos m + k)%positive.
Proof.
  induction k as [|k IH] using Pos.peano_ind.
  - cbn. lia.
  - rewrite Pos.iter_succ. cbn [digits2_pos]. rewrite IH. lia.
Qed.

Lemma digits2_pos_small (m : positive) :
  Zpos m < 2 ^ 53 -> Zpos (digits2_pos m) <= 53.
Proof.
  intros H. pose proof (digits2_pos_bounds m) as [Hlo _].
  destruct (Z_le_gt_dec (Zpos (digits2_pos m)) 53) as [|Hgt]; [assumption|].
  exfalso.
  assert (2 ^ 53 <= 2 ^ (Zpos (digits2_pos m) - 1)) by (apply Z.pow_le_mono_r; lia).
  lia.
Qed.

Lemma binary_round_small (s : bool) (m : positive) :
  Zpos m < 2 ^ 53 ->
  exists m' e', binary_round prec emax s m 0 = S754_finite s m' e'.
Proof.
  intros H. pose proof (digits2_pos_small m H) as Hd.
  unfold binary_round, shl_align, fexp, emin, prec, emax.
  set (d := digits2_pos m) in *.
  replace (Z.max (Zpos d + 0 - 53) (3 - 1024 - 53)) with (Zpos d - 53) by lia.
  destruct (Zpos d - 53 - 0) as [|k|k] eqn:Ek; try lia.
  - (* 53 digits *)
    unfold binary_round_aux, shr_fexp, fexp, emin. cbn [Zdigits2 shr_record_of_loc].
    fold d. replace (Z.max (Zpos d + 0 - 53) (3 - 1024 - 53) - 0) with 0 by lia.
    cbn [shr shr_m loc_of_shr_record round_nearest_even Zdigits2 shr_record_of_loc].
    fold d. replace (Z.max (Zpos d + 0 - 53) (3 - 1024 - 53) - 0) with 0 by lia.
    cbn [shr shr_m]. now eexists _, _.
  - (* fewer digits: the mantissa is moved to the left *)
    unfold binary_round_aux, shr_fexp, fexp, emin. cbn [Zdigits2 shr_record_of_loc].
    rewrite digits2_pos_shift. fold d.
    replace (Z.max (Zpos (d + k) + (Zpos d - 53) - 53) (3 - 1024 - 53) - (Zpos d - 53))
      with 0 by lia.
    cbn [shr shr_m loc_of_shr_record round_nearest_even Zdigits2 shr_record_of_loc].
    rewrite digits2_pos_shift. fold d.
    replace (Z.max (Zpos (d + k) + (Zpos d - 53) - 53) (3 - 1024 - 53) - (Zpos d - 53))
      with 0 by lia.
    cbn [shr shr_m].
    destruct (Zpos d - 53 <=? 1024 - 53) eqn:E; [now eexists _, _|].
    apply Z.leb_gt in E. lia.
Qed.

(** An [int] below [2 ^ 53] in absolute value is within the doubles. *)
Lemma fits_small (z : Z) : Z.abs z < 2 ^ 53 -> fits (PInt z) = true.
Proof.
  intros H. unfold fits, as_float, float_of_int, binary_normalize.
  destruct z as [|m|m].
  - reflexivity.
  - destruct (binary_round_small false m) as (m' & e' & ->); [exact H | reflexivity].
  - destruct (binary_round_small true m) as (m' & e' & ->); [exact H | reflexivity].
Qed.

(** ** The steps of the layout on numbers within the doubles *)

Lemma py_half_fits a : fits a = true -> exists f, py_half a = Ok (PFloat f).
Proof.
  intros Ha. apply fits_as_float in Ha. destruct Ha as (x & Hx).
  unfold py_half. rewrite Hx. cbn [bind]. now eexists.
Qed.

Lemma py_binop_fits on_int on_float a b :
  fits a = true -> fits b = true -> exists c, py_binop on_int on_float a b = Ok c.
Proof.
  intros Ha Hb. destruct a as [x|f].
  - destruct b as [y|g]; [now eexists|].
    destruct (py_binop_float_r on_int on_float (PInt x) g Ha) as (h & ->). now eexists.
  - destruct (py_binop_float_l on_int on_float f b Hb) as (h & ->). now eexists.
Qed.

Lemma centre_x_fits tw x_init :
  fits tw = true -> fits x_init = true -> exists f, centre_x tw x_init = Ok (PFloat f).
Proof.
  intros Ht Hx. unfold centre_x. destruct (py_half_fits tw Ht) as (h & ->). cbn [bind].
  apply py_binop_float_l, Hx.
Qed.

Lemma centre_y_fits st y_init :
  fits (py_neg (node_height st)) = true -> fits y_init = true ->
  exists f, centre_y st y_init = Ok (PFloat f).
Proof.
  intros Hn Hy. unfold centre_y. destruct (py_half_fits _ Hn) as (h & ->). cbn [bind].
  apply py_binop_float_l, Hy.
Qed.

Lemma label_y_fits st y_init :
  fits (py_neg (node_height st)) = true -> fits (gap_height st) = true ->
  fits y_init = true ->
  exists f, label_y st y_init = Ok (PFloat f).
Proof.
  intros Hn Hg Hy. unfold label_y. destruct (py_half_fits _ Hg) as (h & ->). cbn [bind].
  destruct (py_binop_float_r Z.sub PrimFloat.sub _ h Hn) as (d & E).
  unfold py_sub. rewrite E. cbn [bind]. apply py_binop_float_l, Hy.
Qed.

Lemma label_x_fits st tw x_init x_exit child ctw :
  fits tw = true -> fits x_init = true -> fits x_exit = true ->
  compute_total_width child (node_width st) (gap_width st) = Ok ctw ->
  fits ctw = true ->
  exists f, label_x st tw x_init x_exit child = Ok (PFloat f).
Proof.
  intros Ht Hx He Hc Hcf. unfold label_x.
  destruct (centre_x_fits tw x_init Ht Hx) as (x & ->). cbn [bind].
  destruct (py_binop_float_l Z.add PrimFloat.add x x_exit He) as (s & Hs).
  unfold py_add at 1. rewrite Hs. cbn [bind]. rewrite Hc. cbn [bind].
  destruct (py_half_fits ctw Hcf) as (h & ->). cbn [bind]. now eexists.
Qed.

Lemma edge_label_fits st tw x_init y_init x_exit name child ctw :
  fits tw = true -> fits x_init = true -> fits y_init = true -> fits x_exit = true ->
  fits (py_neg (node_height st)) = true -> fits (gap_height st) = true ->
  compute_total_width child (node_width st) (gap_width st) = Ok ctw ->
  fits ctw = true ->
  exists label, edge_label st tw x_init y_init x_exit name child = Ok label.
Proof.
  intros Ht Hx Hy He Hn Hg Hc Hcf. unfold edge_label.
  destruct (label_x_fits st tw x_init x_exit child ctw Ht Hx He Hc Hcf) as (xl & ->).
  destruct (label_y_fits st y_init Hn Hg Hy) as (yl & ->).
  destruct (centre_x_fits tw x_init Ht Hx) as (x & ->). cbn [bind].
  destruct (py_gt _ _); cbn; now eexists.
Qed.

Lemma edge_arrow_fits st tw x_init y_init x_exit child ctw :
  fits tw = true -> fits x_init = true -> fits y_init = true -> fits x_exit = true ->
  fits (py_neg (node_height st)) = true ->
  compute_total_width child (node_width st) (gap_width st) = Ok ctw ->
  fits ctw = true ->
  exists arr, edge_arrow st tw x_init y_init x_exit child = Ok arr.
Proof.
  intros Ht Hx Hy He Hn Hc Hcf. unfold edge_arrow.
  destruct (centre_x_fits tw x_init Ht Hx) as (x & ->). cbn [bind].
  destruct (py_binop_fits Z.add PrimFloat.add _ _ Hn Hy) as (y & E).
  unfold py_add at 1. rewrite E. cbn [bind]. rewrite Hc. cbn [bind].
  destruct (py_half_fits ctw Hcf) as (h & ->). cbn [bind].
  destruct (py_binop_float_r Z.add PrimFloat.add x_exit h He) as (cx & E').
  unfold py_add. rewrite E'. cbn [bind]. now eexists.
Qed.

Section IntSizes.

(** A style whose two sizes and two gaps are integers. *)
Variable st : style.
Variables nw nh gw gh : Z.
Hypothesis Hnw : node_width st = PInt nw.
Hypothesis Hnh : node_height st = PInt nh.
Hypothesis Hgw : gap_width st = PInt gw.
Hypothesis Hgh : gap_height st = PInt gh.

Lemma total_width_small t :
  1 <= width t ->
  Z.abs (width t * nw + (width t - 1) * gw) <= width t * (Z.abs nw + Z.abs gw).
Proof.
  intros Hw.
  pose proof (Z.abs_triangle (width t * nw) ((width t - 1) * gw)) as H.
  rewrite !Z.abs_mul in H.
  rewrite (Z.abs_eq (width t)), (Z.abs_eq (width t - 1)) in H by lia.
  assert (0 <= Z.abs gw) by apply Z.abs_nonneg.
  rewrite Z.mul_add_distr_l.
  assert ((width t - 1) * Z.abs gw <= width t * Z.abs gw)
    by (apply Z.mul_le_mono_nonneg_r; lia).
  lia.
Qed.

Lemma plot_children_int tw x_init y_init plot_child items :
  Z.abs tw < 2 ^ 53 -> Z.abs x_init < 2 ^ 53 -> Z.abs y_init < 2 ^ 53 ->
  Z.abs nh < 2 ^ 53 -> Z.abs gh < 2 ^ 53 ->
  Forall (fun kv =>
            1 <= width (snd kv)
            /\ forall x ax,
                 Z.abs x + width (snd kv) * (Z.abs nw + Z.abs gw) < 2 ^ 53 ->
                 exists ax', plot_child (PInt x) (snd kv) ax = Ok ax')
         items ->
  forall x_exit ax,
    Z.abs x_exit + Zsum (map width (dict_values items)) * (Z.abs nw + Z.abs gw) < 2 ^ 53 ->
    exists ax',
      plot_children st (PInt tw) (PInt x_init) (PInt y_init) plot_child items
        (PInt x_exit) ax = Ok ax'.
Proof.
  intros Htw Hx Hy Hnh' Hgh'.
  induction 1 as [|[name child] items [Hw Hc] Hitems IH]; intros x_exit ax He.
  - now eexists.
  - cbn [plot_children]. cbn [snd] in Hw, Hc.
    change (Zsum (map width (dict_values ((name, child) :: items))))
      with (width child + Zsum (map width (dict_values items))) in He.
    assert (Hrest : 0 <= Zsum (map width (dict_values items))).
    { clear - Hitems. induction Hitems as [|kv l [Hkv _] _ IHl]; [discriminate|].
      change (Zsum (map width (dict_values (kv :: l))))
        with (width (snd kv) + Zsum (map width (dict_values l))). lia. }
    pose proof (total_width_small child Hw) as Hctw.
    set (S := Z.abs nw + Z.abs gw) in *.
    assert (HS : 0 <= S) by (subst S; lia).
    rewrite Z.mul_add_distr_r in He.
    assert (H1 : 0 <= width child * S) by (apply Z.mul_nonneg_nonneg; lia).
    assert (H2 : 0 <= Zsum (map width (dict_values items)) * S)
      by (apply Z.mul_nonneg_nonneg; lia).
    assert (Hfe : fits (PInt x_exit) = true) by (apply fits_small; lia).
    assert (Hfc : fits (PInt (width child * nw + (width child - 1) * gw)) = true)
      by (apply fits_small; lia).
    assert (Hn : fits (py_neg (node_height st)) = true)
      by (rewrite Hnh; apply fits_small; lia).
    assert (Hg : fits (gap_height st) = true) by (rewrite Hgh; apply fits_small; lia).
    assert (Hc' : compute_total_width child (node_width st) (gap_width st)
                  = Ok (PInt (width child * nw + (width child - 1) * gw)))
      by (rewrite Hnw, Hgw; apply compute_total_width_int).
    destruct (edge_label_fits st (PInt tw) (PInt x_init) (PInt y_init) (PInt x_exit)
                name child _ (fits_small _ Htw) (fits_small _ Hx) (fits_small _ Hy)
                Hfe Hn Hg Hc' Hfc) as (label & ->).
    destruct (edge_arrow_fits st (PInt tw) (PInt x_init) (PInt y_init) (PInt x_exit)
                child _ (fits_small _ Htw) (fits_small _ Hx) (fits_small _ Hy)
                Hfe Hn Hc' Hfc) as (arr & ->).
    cbn [bind].
    destruct (Hc x_exit ((ax ++ [label]) ++ [arr])%list) as (ax1 & ->); [lia|].
    cbn [bind]. unfold next_x_exit. rewrite Hc'. cbn [bind]. rewrite Hgw.
    cbn [py_add py_binop bind]. apply IH.
    pose proof (Z.abs_triangle x_exit (width child * nw + (width child - 1) * gw + gw)) as Ht.
    assert (Hstep : Z.abs (width child * nw + (width child - 1) * gw + gw) <= width child * S).
    { replace (width child * nw + (width child - 1) * gw + gw)
        with (width child * (nw + gw)) by ring.
      rewrite Z.abs_mul, (Z.abs_eq (width child)) by lia.
      apply Z.mul_le_mono_nonneg_l; [lia|]. subst S. apply Z.abs_triangle. }
    lia.
Qed.

Lemma plot_on_int t :
  all_nodes_ok t ->
  forall x_init y_init ax,
    Z.abs x_init + width t * (Z.abs nw + Z.abs gw) < 2 ^ 53 ->
    Z.abs y_init + height t * (Z.abs nh + Z.abs gh) < 2 ^ 53 ->
    exists ax', plot_on st (PInt x_init) (PInt y_init) t ax = Ok ax'.
Proof.
  induction t as [j c ch h w IH] using Tree_ind.
  intros Hok x_init y_init ax Hx Hy.
  set (t := mkTree j c ch h w) in *.
  pose proof (all_nodes_ok_root t Hok) as (_ & Hbranch & Hw & Hh).
  pose proof (all_nodes_ok_children t Hok) as Hsub. cbn [children t] in Hsub.
  pose proof (total_width_small t Hw) as Htw.
  set (S := Z.abs nw + Z.abs gw) in *.
  set (T := Z.abs nh + Z.abs gh) in *.
  assert (HS : 0 <= S) by (subst S; lia).
  assert (HT : 0 <= T) by (subst T; lia).
  assert (HwS : 0 <= width t * S) by (apply Z.mul_nonneg_nonneg; lia).
  assert (HhT : T <= height t * T).
  { rewrite <- (Z.mul_1_l T) at 1. apply Z.mul_le_mono_nonneg_r; lia. }
  assert (Hnh' : Z.abs nh < 2 ^ 53) by (subst T; lia).
  assert (Hgh' : Z.abs gh < 2 ^ 53) by (subst T; lia).
  rewrite plot_on_unfold.
  assert (Etw : compute_total_width t (node_width st) (gap_width st)
                = Ok (PInt (width t * nw + (width t - 1) * gw)))
    by (rewrite Hnw, Hgw; apply compute_total_width_int).
  assert (Eth : compute_total_height t (node_height st) (gap_height st)
                = Ok (PInt (height t * nh + (height t - 1) * gh)))
    by (rewrite Hnh, Hgh; apply compute_total_height_int).
  rewrite Etw, Eth. cbn [bind].
  assert (Hn : fits (py_neg (node_height st)) = true)
    by (rewrite Hnh; apply fits_small; lia).
  destruct (centre_x_fits (PInt (width t * nw + (width t - 1) * gw)) (PInt x_init))
    as (x & ->); [apply fits_small; lia | apply fits_small; lia |].
  destruct (centre_y_fits st (PInt y_init) Hn) as (y & ->); [apply fits_small; lia|].
  cbn [bind children].
  destruct ch as [|kv0 ch0]; [now eexists|].
  set (ch := kv0 :: ch0) in *.
  assert (Hcs : dict_values (children t) <> []) by discriminate.
  destruct (Hbranch Hcs) as (Hwsum & _ & Hup). cbn [children t] in Hwsum, Hup.
  apply plot_children_int; try lia.
  - apply Forall_forall. intros kv Hkv. rewrite Forall_forall in IH, Hsub.
    pose proof (all_nodes_ok_root _ (Hsub kv Hkv)) as (_ & _ & Hkw & Hkh).
    split; [exact Hkw|].
    intros x0 ax0 Hx0. unfold child_y. rewrite Hnh, Hgh.
    cbn [py_sub py_binop bind].
    apply (IH kv Hkv (Hsub kv Hkv)); [exact Hx0|].
    assert (Hin : In (snd kv) (dict_values ch)) by (now apply in_map).
    pose proof (Hup _ Hin) as Hle. cbn [height t] in Hle.
    fold T.
    assert (Hmono : (1 + height (snd kv)) * T <= height t * T)
      by (apply Z.mul_le_mono_nonneg_r; [lia | exact Hle]).
    rewrite Z.mul_add_distr_r, Z.mul_1_l in Hmono.
    pose proof (Z.abs_triangle (y_init - nh) (- gh)) as H1.
    pose proof (Z.abs_triangle y_init (- nh)) as H2.
    rewrite !Z.abs_opp in *.
    replace (y_init - nh - gh) with (y_init - nh + - gh) by ring.
    replace (y_init - nh) with (y_init + - nh) in H1 by ring.
    subst T. lia.
  - change (children t) with ch. rewrite <- Hwsum. exact Hx.
Qed.

End IntSizes.


(** ** The statements at work on the examples *)

#[local] Close Scope Q_scope.

Lemma example_tree_built : Tree_init example_record = Ok example_tree.
Proof. reflexivity. Qed.

Lemma C1_witness :
  Tree_init example_record = Ok example_tree
  /\ (children example_tree <> [] ->
      width example_tree = Zsum (map width (dict_values (children example_tree)))).
Proof.
  split; [reflexivity|].
  intros Hne.
  exact (proj1 (proj1 (proj2 (C1_node_dimensions example_record example_tree example_tree
                                 eq_refl (or_introl eq_refl))) Hne)).
Defined.

Lemma C3_witness :
  dict_wf example_record = true
  /\ exists t', from_json (to_json example_tree) = Ok t'
                /\ to_json t' = to_json example_tree /\ t' = example_tree.
Proof.
  split; [reflexivity|].
  exact (C3_json_round_trip example_record example_tree eq_refl eq_refl).
Defined.

Lemma C5_witness :
  dict_get "value" incomplete_entry = None
  /\ Tree_init (PDict incomplete_record) = Raise (KeyError schema_message)
  /\ forall t, Tree_init (PDict incomplete_record) <> Ok t.
Proof.
  split; [reflexivity|].
  apply (C5_missing_key_raises incomplete_record [PDict incomplete_entry] incomplete_entry).
  - reflexivity.
  - reflexivity.
  - left. reflexivity.
  - left. reflexivity.
Defined.

Lemma C9_witness :
  exists t, Tree_init (PDict []) = Ok t /\ content t = "".
Proof.
  exact (proj1 (proj2 (C9_missing_content [] eq_refl) eq_refl) eq_refl).
Defined.

Lemma C10_witness :
  Tree_init (PDict duplicate_record) = Ok duplicate_tree
  /\ count_occ string_dec (dict_keys (children duplicate_tree)) "a" = 1%nat
  /\ (List.length (children duplicate_tree) < 2)%nat.
Proof.
  split; [reflexivity|].
  pose proof (C10_duplicate_labels duplicate_record [] [] [] first_option second_option
                "a" duplicate_tree eq_refl eq_refl eq_refl eq_refl) as H.
  split; [exact (proj1 H) | exact (proj1 (proj2 (proj2 H)))].
Defined.

Lemma C4_witness :
  exists total totals,
    compute_total_width example_tree (PInt 30) (PInt 10) = Ok (PInt total)
    /\ total = width example_tree * 30 + (width example_tree - 1) * 10
    /\ Forall2 (fun c v => compute_total_width c (PInt 30) (PInt 10) = Ok (PInt v))
               (dict_values (children example_tree)) totals
    /\ total = Zsum totals + (Z.of_nat (List.length (children example_tree)) - 1) * 10.
Proof.
  apply (C4_total_width_of_children example_record example_tree example_tree 30 10).
  - reflexivity.
  - left. reflexivity.
  - discriminate.
Defined.

(** Against C4 as the specification has it, for all values of the two
    parameters: with a node width of one tenth and a gap of two tenths, the
    total width of a node with a child two leaves wide and a child one leaf
    wide is greater than the sum of the total widths of the children plus
    one gap, as Python adds them and as exact numbers. *)
Lemma C4_counterexample :
  exists t c1 c2 total w1 w2 s g rhs,
    Tree_init wide_record = Ok t
    /\ dict_values (children t) = [c1; c2]
    /\ compute_total_width t tenth two_tenths = Ok total
    /\ compute_total_width c1 tenth two_tenths = Ok w1
    /\ compute_total_width c2 tenth two_tenths = Ok w2
    /\ num_sum [w1; w2] = Ok s
    /\ py_mul (PInt (Z.of_nat (List.length (children t)) - 1)) two_tenths = Ok g
    /\ py_add s g = Ok rhs
    /\ py_gt total rhs = true
    /\ exists q q1 q2 qg,
         value total = Some q /\ value w1 = Some q1 /\ value w2 = Some q2
         /\ value two_tenths = Some qg
         /\ ~ (q == q1 + q2 + inject_Z (2 - 1) * qg)%Q.
Proof.
  do 9 eexists.
  repeat (split; [vm_compute; reflexivity|]).
  do 4 eexists.
  repeat (split; [vm_compute; reflexivity|]).
  intros H. apply Qeq_bool_iff in H. vm_compute in H. discriminate H.
Qed.

Lemma C7_witness :
  label_x_exact default_style example_tree (PInt 0) (PInt 0) (leaf "x") = true
  /\ label_y_exact default_style (PInt 0) = true
  /\ exists drawn,
       plot_on default_style (PInt 0) (PInt 0) example_tree [] = Ok drawn
       /\ exists px py cx cy lx ly ha y_child pre a child_drawn child_rest post,
            drawn
            = (Ellipse px py (PInt 30) (PInt 20) "#0377fc"
               :: pre
               ++ text lx ly "a" ha va_bottom "black" 6 false
               :: a
               :: child_drawn ++ post)%list
            /\ child_y default_style (PInt 0) = Ok y_child
            /\ plot_on default_style (PInt 0) y_child (leaf "x") [] = Ok child_drawn
            /\ child_drawn = Ellipse cx cy (PInt 30) (PInt 20) "#0377fc" :: child_rest
            /\ exists p q c d l m h,
                 value px = Some p /\ value py = Some q
                 /\ value cx = Some c /\ value cy = Some d
                 /\ value lx = Some l /\ value ly = Some m
                 /\ value (PInt 20) = Some h
                 /\ (m == ((q - h / 2) + (d + h / 2)) / 2)%Q
                 /\ ((p < (p + c) / 2)%Q -> ha = ha_left /\ (l == (p + c) / 2 + 2)%Q)
                 /\ (((p + c) / 2 <= p)%Q -> ha = ha_right /\ (l == (p + c) / 2 - 2)%Q).
Proof.
  split; [vm_compute; reflexivity|]. split; [vm_compute; reflexivity|].
  eexists. split; [vm_compute; reflexivity|].
  apply (C7_edge_label_position default_style (PInt 0) (PInt 0) (PInt 0) example_tree
           [] [(default_label, leaf "y")] "a" (leaf "x")).
  - reflexivity.
  - reflexivity.
  - vm_compute. reflexivity.
  - vm_compute. reflexivity.
  - vm_compute. reflexivity.
Defined.

(** Against C7 as the specification has it: with a node width of one tenth
    and a gap of two tenths, the only child of a node drawn from the sum of
    one tenth and two tenths has its centre at the abscissa of the centre of
    the node, so that the middle of the two is that abscissa and not right
    of it; yet the label is aligned left, and it is not the middle moved by
    2 to the left. *)
Lemma C7_counterexample :
  exists t px py cx cy lx ly node_text a child_rest p c l,
    Tree_init single_record = Ok t
    /\ plot_on tenths_style tenth_plus_two_tenths (PInt 0) t []
       = Ok (Ellipse px py tenth (PInt 20) "#0377fc"
             :: node_text
             :: text lx ly "a" ha_left va_bottom "black" 6 false
             :: a
             :: Ellipse cx cy tenth (PInt 20) "#0377fc"
             :: child_rest)
    /\ value px = Some p /\ value cx = Some c /\ value lx = Some l
    /\ ((p + c) / 2 <= p)%Q
    /\ ~ (l == (p + c) / 2 - 2)%Q
    /\ ~ (l == (p + c) / 2 + 2)%Q.
Proof.
  do 13 eexists.
  split; [vm_compute; reflexivity|].
  split; [vm_compute; reflexivity|].
  repeat (split; [vm_compute; reflexivity|]).
  split; [|split].
  - apply Qle_bool_iff. vm_compute. reflexivity.
  - intros H. apply Qeq_bool_iff in H. vm_compute in H. discriminate H.
  - intros H. apply Qeq_bool_iff in H. vm_compute in H. discriminate H.
Qed.



(** * Further properties *)

(** ** The errors of the constructor *)

Lemma dict_comprehension_error {V : Type} (Q : exn -> Prop)
      (entry : pyval -> pyresult (string * V)) xs :
  Forall (fun x => forall e, entry x = Raise e -> Q e) xs ->
  forall acc e, dict_comprehension entry xs acc = Raise e -> Q e.
Proof.
  induction 1 as [|x xs Hx _ IH]; intros acc e Hrun; simpl in Hrun; [discriminate|].
  destruct (entry x) as [kv|e'] eqn:E; simpl in Hrun.
  - now apply (IH _ _ Hrun).
  - injection Hrun as <-. now apply Hx.
Qed.

Lemma except_KeyError_error {A : Type} (r : pyresult A) e :
  (forall e', r = Raise e' -> raw_init_error e') ->
  except_KeyError r = Raise e -> init_error e.
Proof.
  intros Hraw. destruct r as [a|e']; [discriminate|].
  destruct (Hraw e' eq_refl) as [[msg ->]|[-> | ->]]; simpl; intros [= <-].
  - now left.
  - right. now left.
  - right. now right.
Qed.

Lemma init_error_raw e : init_error e -> raw_init_error e.
Proof. intros [->|[-> | ->]]; [left; now eexists | right; now left | right; now right]. Qed.

Lemma raises_only_all v : raises_only v.
Proof.
  induction v as [s|l IH|d IH] using pyval_ind.
  - repeat split.
    + intros e [= <-]. right. now right.
    + intros e. destruct s; simpl; [discriminate|]. intros [= <-]. right. now left.
    + intros e [= <-]. right. now left.
  - repeat split.
    + intros e [= <-]. right. now right.
    + intros e Hrun. cbn [build_children] in Hrun.
      eapply dict_comprehension_error; [|exact Hrun].
      eapply Forall_impl; [|exact IH]. intros x Hx. apply Hx.
    + intros e [= <-]. right. now left.
  - repeat split.
    + intros e. rewrite Tree_init_dict.
      destruct (except_KeyError _) as [ch|e'] eqn:E; simpl; [discriminate|].
      intros [= <-]. eapply except_KeyError_error; [|exact E].
      destruct (dict_get "options" d) as [o|] eqn:Eo; [|discriminate].
      apply (Forall_dict_get _ _ _ _ IH Eo).
    + intros e. destruct d; simpl; [discriminate|]. intros [= <-]. right. now left.
    + intros e. cbn [build_entry].
      destruct (dict_get "value" d) as [value|]; [|intros [= <-]; left; now eexists].
      destruct (dict_get "tree" d) as [tree|] eqn:Et; [|intros [= <-]; left; now eexists].
      destruct (Tree_init tree) as [child|e'] eqn:Ec; simpl.
      * destruct value; simpl; try discriminate; intros [= <-]; right; now left.
      * intros [= <-]. apply init_error_raw.
        now apply (Forall_dict_get _ _ _ _ IH Et).
Qed.

(** X1. Whatever it is given, the constructor raises nothing but the
    [KeyError] of the schema, [TypeError] and [AttributeError]. *)
Theorem X1_Tree_init_errors (dic : pyval) (e : exn) :
  Tree_init dic = Raise e ->
  e = KeyError schema_message \/ e = TypeError \/ e = AttributeError.
Proof. apply (raises_only_all dic). Qed.

(** ** What the parser returns *)

Lemma list_comprehension_Forall2 {A B : Type} (f : A -> pyresult B) l : forall ys,
  list_comprehension f l = Ok ys -> Forall2 (fun x y => f x = Ok y) l ys.
Proof.
  induction l as [|x l IH]; intros ys H; simpl in H.
  - injection H as <-. constructor.
  - destruct (f x) as [y|] eqn:Ex; simpl in H; [|discriminate].
    destruct (list_comprehension f l) as [ys'|] eqn:El; simpl in H; [|discriminate].
    injection H as <-. constructor; [exact Ex | now apply IH].
Qed.

Lemma parsed_option clause tree :
  parsed_record tree ->
  let o := PDict [("value", clause_label clause); ("tree", tree)] in
  entry_shape o = true /\ entry_complete o = true /\ dict_wf o = true.
Proof.
  intros (Hs & Hc & Hw). cbn.
  rewrite Hs, Hc, Hw. destruct clause; repeat split; reflexivity.
Qed.

Lemma parsed_branch s options :
  Forall (fun o => entry_shape o = true /\ entry_complete o = true /\ dict_wf o = true)
         options ->
  parsed_record (PDict [("content", PStr s); ("options", PList options)]).
Proof.
  intros Hall. unfold parsed_record.
  rewrite record_shape_dict, entries_complete_dict. cbn.
  rewrite andb_true_r.
  repeat split; apply forallb_forall; intros o Ho;
    rewrite Forall_forall in Hall; now apply Hall.
Qed.

Lemma parse_python_rec_parsed n : forall code carried dic,
  parse_python_rec n code carried = Ok dic -> parsed_record dic.
Proof.
  induction n as [|n IH]; intros code carried dic H; [discriminate|].
  destruct code as [|first code]; [discriminate|].
  cbn [parse_python_rec] in H.
  set (st := scan_lines (leading_space first) (first :: code) carried) in *.
  destruct (list_comprehension _ _) as [options|] eqn:El; cbn [bind] in H; [|discriminate].
  destruct (initial_clause st) as [clause|]; injection H as <-.
  - apply parsed_branch.
    apply list_comprehension_Forall2 in El.
    induction El as [|x o xs os Hx _ IHl]; constructor; [|exact IHl].
    destruct (parse_python_rec n (snd x) (permeated st)) as [tree|] eqn:Et;
      cbn [bind] in Hx; [|discriminate].
    injection Hx as <-. apply parsed_option. exact (IH _ _ _ Et).
  - repeat split.
Qed.

(** X2. The dictionary the parser returns is a record of the serialized
    format: every option has its value, a string, and its tree, again such
    a record, and no dictionary has a key twice. *)
Theorem X2_parse_python_record (code : list string) (carried : option (list string))
        (dic : pyval) :
  parse_python code carried = Ok dic ->
  record_shape dic = true /\ entries_complete dic = true /\ dict_wf dic = true.
Proof. apply parse_python_rec_parsed. Qed.

(** X3. On at least one line, [from_python] returns a tree: the parser
    raises nothing and the constructor accepts what the parser returns. *)
Theorem X3_from_python_returns (code : list string) :
  code <> [] -> exists t, from_python code = Ok t.
Proof.
  intros Hne. unfold from_python.
  destruct (parse_python_returns code None Hne) as [dic Hdic]. rewrite Hdic. cbn [bind].
  destruct (parse_python_rec_parsed _ _ _ _ Hdic) as (Hs & Hc & _).
  pose proof (typed_Tree_init dic Hs) as H. rewrite Hc in H. exact H.
Qed.

(** X4. A tree made by [from_python], written by [to_json] and read by
    [from_json], comes back the same. *)
Theorem X4_from_python_round_trip (code : list string) (t : Tree) :
  from_python code = Ok t -> from_json (to_json t) = Ok t.
Proof.
  unfold from_python. intros H.
  destruct (parse_python code None) as [dic|] eqn:Hdic; cbn [bind] in H; [|discriminate].
  destruct (parse_python_rec_parsed _ _ _ _ Hdic) as (_ & _ & Hw).
  unfold from_json, to_json.
  now rewrite (Tree_init_json _ _ H), (loads_dumps _ Hw).
Qed.

(** ** Lines without a clause *)

Lemma fold_scan_no_if indent code : forall st,
  start st = false ->
  (forall line, In line code -> search_if_word indent line = false) ->
  fold_left (scan_line indent) code st
  = mkScan (permeated st ++ code) (subtrees st) (initial_clause st)
           (cur_clause st) (cur_subtree st) false.
Proof.
  induction code as [|line code IH]; intros [p s i c b st] Hst Hno; cbn in Hst; subst st.
  - cbn. now rewrite app_nil_r.
  - cbn [fold_left]. unfold scan_line at 2. cbn [start permeated subtrees initial_clause
                                                 cur_clause cur_subtree].
    rewrite (Hno line (or_introl eq_refl)). cbn [negb andb].
    rewrite IH; [|reflexivity | intros l Hl; apply Hno; now right].
    cbn. now rewrite <- app_assoc.
Qed.

(** X5. Lines of which none starts with the indentation of the first and
    the word [if] make a leaf: its content is the lines, the carried ones
    first, each stripped, joined by line feeds. *)
Theorem X5_no_if_is_leaf (first : string) (rest : list string)
        (carried : option (list string)) :
  (forall line, In line (first :: rest) ->
                search_if_word (leading_space first) line = false) ->
  parse_python (first :: rest) carried
  = Ok (leaf_record
          (String.concat (String newline "")
             (map strip (match carried with Some p => p | None => [] end
                         ++ first :: rest)))).
Proof.
  intros Hno. unfold parse_python. cbn [List.length parse_python_rec].
  unfold scan_lines.
  rewrite (fold_scan_no_if _ _ (scan_init _) eq_refl Hno). reflexivity.
Qed.

(** ** Moving a block to the right *)

Lemma strip_prefix_pad pad p s : strip_prefix (pad ++ p) (pad ++ s) = strip_prefix p s.
Proof.
  induction pad as [|c pad IH]; [reflexivity|].
  cbn. now rewrite Ascii.eqb_refl.
Qed.

Lemma leading_space_pad pad s :
  all_space pad = true -> leading_space (pad ++ s) = pad ++ leading_space s.
Proof.
  induction pad as [|c pad IH]; [reflexivity|]. cbn. intros H.
  apply andb_prop in H. destruct H as [Hc Hp]. now rewrite Hc, IH.
Qed.

Lemma lstrip_pad pad s : all_space pad = true -> lstrip (pad ++ s) = lstrip s.
Proof.
  induction pad as [|c pad IH]; [reflexivity|]. cbn. intros H.
  apply andb_prop in H. destruct H as [Hc Hp]. now rewrite Hc, IH.
Qed.

Lemma strip_pad pad s : all_space pad = true -> strip (pad ++ s) = strip s.
Proof. intros H. unfold strip. now rewrite lstrip_pad. Qed.

Lemma map_strip_indent_lines pad code :
  all_space pad = true -> map strip (indent_lines pad code) = map strip code.
Proof.
  intros H. unfold indent_lines. rewrite map_map. apply map_ext.
  intros line. now apply strip_pad.
Qed.

Section Padded.
Variables pad indent : string.

Lemma search_if_word_pad line :
  search_if_word (pad ++ indent) (pad ++ line) = search_if_word indent line.
Proof. unfold search_if_word. now rewrite append_assoc, strip_prefix_pad. Qed.

Lemma search_if_pad line :
  search_if (pad ++ indent) (pad ++ line) = search_if indent line.
Proof. unfold search_if. now rewrite append_assoc, strip_prefix_pad. Qed.

Lemma search_body_pad line :
  search_body (pad ++ indent) (pad ++ line) = search_body indent line.
Proof. unfold search_body. now rewrite strip_prefix_pad. Qed.

Lemma search_elif_pad line :
  search_elif (pad ++ indent) (pad ++ line) = search_elif indent line.
Proof. unfold search_elif. now rewrite append_assoc, strip_prefix_pad. Qed.

Lemma search_else_pad line :
  search_else (pad ++ indent) (pad ++ line) = search_else indent line.
Proof. unfold search_else. now rewrite append_assoc, strip_prefix_pad. Qed.

Hypothesis Hpad : all_space pad = true.

Lemma scan_line_padded st' st line :
  padded_state pad st' st ->
  padded_state pad (scan_line (pad ++ indent) st' (pad ++ line))
               (scan_line indent st line).
Proof.
  intros (Hp & Hs & Hi & Hc & Hb & Hst). unfold scan_line.
  rewrite search_if_word_pad, search_if_pad, search_body_pad, search_elif_pad,
    search_else_pad, Hst.
  assert (Hpush : (subtrees st' ++ [(cur_clause st', cur_subtree st')])%list
                  = map (fun x => (fst x, indent_lines pad (snd x)))
                        (subtrees st ++ [(cur_clause st, cur_subtree st)])).
  { rewrite map_app, Hs, Hc, Hb. reflexivity. }
  destruct (negb (start st) && negb (search_if_word indent line)).
  { repeat split; cbn; try assumption.
    rewrite !map_app, Hp. cbn. now rewrite strip_pad. }
  destruct (search_if indent line) as [clause|].
  { repeat split; cbn; try assumption. now rewrite Hi. }
  destruct (start st && search_body indent line).
  { repeat split; cbn; try assumption.
    rewrite Hb. unfold indent_lines. now rewrite map_app. }
  destruct (if start st then search_elif indent line else None) as [clause|].
  { repeat split; cbn; assumption. }
  destruct (start st && search_else indent line).
  { repeat split; cbn; assumption. }
  repeat split; assumption.
Qed.

Lemma fold_scan_padded code : forall st' st,
  padded_state pad st' st ->
  padded_state pad
    (fold_left (scan_line (pad ++ indent)) (indent_lines pad code) st')
    (fold_left (scan_line indent) code st).
Proof.
  induction code as [|line code IH]; intros st' st H; [exact H|].
  cbn. apply IH. now apply scan_line_padded.
Qed.

Lemma scan_lines_padded code carried' carried :
  map strip carried' = map strip carried ->
  padded_state pad (scan_lines (pad ++ indent) (indent_lines pad code) carried')
               (scan_lines indent code carried).
Proof.
  intros Hc. unfold scan_lines.
  destruct (fold_scan_padded code (scan_init carried') (scan_init carried))
    as (Hp & Hs & Hi & Hcl & Hb & Hst).
  { repeat split; cbn; try reflexivity. exact Hc. }
  repeat split; cbn; try assumption.
  rewrite map_app, Hs, Hcl, Hb. reflexivity.
Qed.
End Padded.

Lemma list_comprehension_map {A B C : Type} (g : A -> B) (f : B -> pyresult C) l :
  list_comprehension f (map g l) = list_comprehension (fun x => f (g x)) l.
Proof. induction l as [|x l IH]; simpl; [reflexivity | now rewrite IH]. Qed.

Lemma filter_map_commute {A B : Type} (g : A -> B) (p : B -> bool) l :
  filter p (map g l) = map g (filter (fun x => p (g x)) l).
Proof.
  induction l as [|x l IH]; simpl; [reflexivity|].
  destruct (p (g x)); simpl; now rewrite IH.
Qed.

Lemma nonempty_indent_lines pad (body : list string) :
  nonempty (indent_lines pad body) = nonempty body.
Proof. now destruct body. Qed.

Lemma parse_python_rec_padded pad n :
  all_space pad = true ->
  forall code carried' carried,
    map strip carried' = map strip carried ->
    parse_python_rec n (indent_lines pad code) carried'
    = parse_python_rec n code carried.
Proof.
  intros Hpad. induction n as [|n IH]; intros code carried' carried Hc; [reflexivity|].
  destruct code as [|first code]; [reflexivity|].
  change (indent_lines pad (first :: code)) with ((pad ++ first) :: indent_lines pad code).
  cbn [parse_python_rec].
  change ((pad ++ first) :: indent_lines pad code) with (indent_lines pad (first :: code)).
  rewrite (leading_space_pad _ _ Hpad).
  destruct (scan_lines_padded pad (leading_space first) Hpad (first :: code) _ _ Hc)
    as (Hp & Hs & Hi & _ & _ & _).
  set (st' := scan_lines (pad ++ leading_space first) (indent_lines pad (first :: code))
                         carried') in *.
  set (st := scan_lines (leading_space first) (first :: code) carried) in *.
  rewrite Hs, filter_map_commute, list_comprehension_map. cbn [fst snd].
  rewrite (filter_ext (fun x => nonempty (indent_lines pad (snd x)))
                      (fun x => nonempty (snd x)))
    by (intros x; apply nonempty_indent_lines).
  rewrite (list_comprehension_ext
             (fun x => tree <- parse_python_rec n (indent_lines pad (snd x)) (permeated st') ;;
                       Ok (PDict [("value", clause_label (fst x)); ("tree", tree)]))
             (fun x => tree <- parse_python_rec n (snd x) (permeated st) ;;
                       Ok (PDict [("value", clause_label (fst x)); ("tree", tree)])))
    by (intros x _; now rewrite (IH (snd x) _ _ Hp)).
  now rewrite Hi, Hp.
Qed.

(** X6. The tree does not depend on how far the block stands to the
    right: with the same white space put before every line, the parser
    returns the same dictionary. *)
Theorem X6_indentation_invariance (pad : string) (code : list string)
        (carried : option (list string)) :
  all_space pad = true ->
  parse_python (indent_lines pad code) carried = parse_python code carried.
Proof.
  intros Hpad. unfold parse_python, indent_lines. rewrite length_map.
  now apply parse_python_rec_padded.
Qed.

(** ** Options with distinct labels *)

Lemma dict_get_absent {V : Type} k (d : list (string * V)) :
  ~ In k (dict_keys d) -> dict_get k d = None.
Proof.
  intros Hk. destruct (dict_get k d) eqn:E; [|reflexivity].
  exfalso. apply Hk, dict_has_keys. unfold dict_has. now rewrite E.
Qed.

Lemma fold_store_fresh {V : Type} (kvs : list (string * V)) : forall acc,
  NoDup (map fst (acc ++ kvs)) -> fold_left store kvs acc = (acc ++ kvs)%list.
Proof.
  induction kvs as [|[k v] kvs IH]; intros acc Hnd; cbn [fold_left].
  - now rewrite app_nil_r.
  - assert (Hk : dict_get k acc = None).
    { apply dict_get_absent. rewrite map_app in Hnd. cbn in Hnd.
      apply NoDup_remove_2 in Hnd. intros Hin. apply Hnd, in_or_app. now left. }
    unfold store at 2. cbn [fst snd]. rewrite (dict_set_fresh k v acc Hk).
    rewrite IH; rewrite <- app_assoc; [reflexivity | exact Hnd].
Qed.

(** X7. When the options of a record have distinct labels, the children
    are the options, one for one and in their order: each child stands
    under the label of its option and is built from its tree. *)
Theorem X7_distinct_labels (d : list (string * pyval)) (xs : list pyval) (t : Tree) :
  Tree_init (PDict d) = Ok t ->
  dict_get "options" d = Some (PList xs) ->
  NoDup (map entry_label xs) ->
  Forall2 (fun x kv =>
             entry_label x = Some (fst kv)
             /\ exists tree, entry_tree x = Some tree /\ Tree_init tree = Ok (snd kv))
          xs (children t).
Proof.
  intros Ht Hopts Hnd.
  apply Tree_init_Ok_inv in Ht. destruct Ht as (d' & ch & [= <-] & Hch & ->).
  rewrite Hopts in Hch. cbn [build_children] in Hch.
  apply dict_comprehension_fold in Hch. destruct Hch as (kvs & HF & ->).
  cbn [children make_node].
  assert (HF' : Forall2 (fun x kv =>
                           entry_label x = Some (fst kv)
                           /\ exists tree, entry_tree x = Some tree
                                           /\ Tree_init tree = Ok (snd kv)) xs kvs).
  { eapply Forall2_impl; [|exact HF]. intros x kv Hx. now apply build_entry_Ok_inv. }
  assert (Hlabels : map entry_label xs = map (fun kv => Some (fst kv)) kvs).
  { clear -HF'. induction HF' as [|x kv xs kvs [Hx _] _ IH]; [reflexivity|].
    cbn. now rewrite Hx, IH. }
  rewrite fold_store_fresh; [exact HF'|].
  cbn [app]. rewrite Hlabels in Hnd.
  rewrite <- (map_map fst Some) in Hnd.
  apply NoDup_map_inv in Hnd. exact Hnd.
Qed.

(** ** Width and height as counts *)

Lemma length_filter_flat_map {A B : Type} (p : B -> bool) (f : A -> list B) l :
  List.length (filter p (flat_map f l))
  = list_sum (map (fun x => List.length (filter p (f x))) l).
Proof.
  induction l as [|x l IH]; [reflexivity|].
  cbn [flat_map map list_sum fold_right]. rewrite filter_app, length_app.
  now rewrite IH.
Qed.

Lemma Zsum_widths_leaves (ch : list (string * Tree)) :
  Forall (fun kv => width (snd kv) = Z.of_nat (leaves (snd kv))) ch ->
  Zsum (map width (dict_values ch))
  = Z.of_nat (list_sum (map (fun kv => leaves (snd kv)) ch)).
Proof.
  induction 1 as [|kv ch Hkv _ IH]; [reflexivity|].
  cbn [dict_values map list_sum fold_right].
  change (Zsum (width (snd kv) :: map width (map snd ch)))
    with (width (snd kv) + Zsum (map width (dict_values ch))).
  rewrite Hkv, IH. change (fold_right Nat.add 0%nat) with list_sum. lia.
Qed.

Lemma counts_of_nodes t :
  all_nodes_ok t ->
  width t = Z.of_nat (leaves t) /\ height t = Z.of_nat (levels t).
Proof.
  induction t as [j c ch h w IH] using Tree_ind. intros Hok.
  unfold all_nodes_ok in Hok. cbn [nodes children] in Hok.
  apply Forall_cons_iff in Hok. destruct Hok as [Hroot Hsub].
  apply Forall_flat_map in Hsub.
  assert (Hch : Forall (fun kv => width (snd kv) = Z.of_nat (leaves (snd kv))
                                  /\ height (snd kv) = Z.of_nat (levels (snd kv))) ch).
  { rewrite Forall_forall in IH, Hsub |- *. intros kv Hkv.
    apply (IH kv Hkv). exact (Hsub kv Hkv). }
  destruct Hroot as (Hleaf & Hbranch & _). cbn [children width height] in Hleaf, Hbranch.
  unfold leaves. cbn [nodes children filter]. unfold is_leaf at 1. cbn [children].
  cbn [levels children width height].
  destruct ch as [|kv0 ch0].
  - destruct (Hleaf eq_refl) as [-> ->]. split; reflexivity.
  - set (ch := kv0 :: ch0) in *.
    destruct Hbranch as (Hw & (cmax & Hin & Hh) & Hup); [subst ch; discriminate|].
    split.
    + rewrite Hw, length_filter_flat_map.
      apply Zsum_widths_leaves.
      eapply Forall_impl; [|exact Hch]. now intros kv [H _].
    + assert (Hlv : forall c', In c' (dict_values ch) ->
                               height c' = Z.of_nat (levels c')
                               /\ In (levels c') (map (fun kv => levels (snd kv)) ch)).
      { intros c' Hc'. unfold dict_values in Hc'. apply in_map_iff in Hc'.
        destruct Hc' as (kv & <- & Hkv). rewrite Forall_forall in Hch.
        split; [apply (Hch kv Hkv)|].
        apply in_map_iff. now exists kv. }
      set (m := list_max (map (fun kv => levels (snd kv)) ch)).
      assert (Hm : Forall (fun k => (k <= m)%nat) (map (fun kv => levels (snd kv)) ch))
        by (apply list_max_le; subst m; lia).
      rewrite Forall_forall in Hm.
      destruct (Hlv cmax Hin) as [Ec Hc]. apply Hm in Hc.
      assert (Hle : (m <= Z.to_nat (h - 1))%nat).
      { subst m. apply list_max_le. apply Forall_forall. intros k Hk.
        apply in_map_iff in Hk. destruct Hk as (kv & <- & Hkv).
        assert (Hv : In (snd kv) (dict_values ch)) by (now apply in_map).
        pose proof (Hup _ Hv). destruct (Hlv _ Hv) as [E _]. lia. }
      lia.
Qed.

(** X8. The width of a constructed tree is the number of its leaves and
    its height the number of nodes on its longest way down. *)
Theorem X8_width_height_count (dic : pyval) (t : Tree) :
  Tree_init dic = Ok t ->
  width t = Z.of_nat (leaves t) /\ height t = Z.of_nat (levels t).
Proof. intros Ht. apply counts_of_nodes. exact (Tree_init_all_nodes_ok _ _ Ht). Qed.

(** ** Nodes of a tree *)

Lemma length_nodes_children (ch : list (string * Tree)) :
  List.length (flat_map (fun kv => nodes (snd kv)) ch)
  = list_sum (map (fun kv => List.length (nodes (snd kv))) ch).
Proof.
  induction ch as [|kv ch IH]; [reflexivity|].
  cbn [flat_map map list_sum fold_right]. now rewrite length_app, IH.
Qed.

Lemma nodes_nonempty t : (1 <= List.length (nodes t))%nat.
Proof. destruct t. cbn. lia. Qed.

(** ** What [plot] leaves on the axes *)

(** X11. [plot] only adds: on axes handed over, what was there stays, in
    its place, and the artists of the tree come after it, the same as on
    empty axes; without a canvas they come after the two limits and
    [axis_off].  Whether it raises does not depend on the axes either. *)
Theorem X11_plot_appends (st : style) (x_init y_init : pynum) (t : Tree) :
  (forall fig ax0,
      plot st x_init y_init fig (Some ax0) t
      = (drawn <- plot_on st x_init y_init t [] ;; Ok (fig, (ax0 ++ drawn)%list)))
  /\ plot st x_init y_init None None t
     = (total_width <- compute_total_width t (node_width st) (gap_width st) ;;
        total_height <- compute_total_height t (node_height st) (gap_height st) ;;
        drawn <- plot_on st x_init y_init t [] ;;
        Ok (Some Figure,
            (set_xlim (PInt (-10)) total_width
             :: set_ylim (py_neg total_height) (PInt 10)
             :: axis_off
             :: drawn)%list)).
Proof.
  split.
  - intros fig ax0. unfold plot. rewrite (plot_on_appends st t x_init y_init ax0).
    rewrite plot_on_unfold.
    destruct (compute_total_width _ _ _) as [tw|e]; [|reflexivity].
    destruct (compute_total_height _ _ _) as [th|e]; [|reflexivity].
    cbn [bind].
    destruct (centre_x tw x_init) as [x|e]; [|now destruct fig].
    destruct (centre_y st y_init) as [y|e]; [|now destruct fig].
    cbn [bind].
    destruct (plot_children _ _ _ _ _ _ _ _) as [drawn|e]; now destruct fig.
  - unfold plot.
    destruct (compute_total_width _ _ _) as [tw|e]; [|reflexivity].
    destruct (compute_total_height _ _ _) as [th|e]; [|reflexivity].
    cbn [bind]. rewrite plot_on_appends.
    destruct (plot_on st x_init y_init t []) as [drawn|e]; reflexivity.
Qed.

Lemma plot_children_count st tw x_init y_init y_child (p : artist -> bool)
      (bl ba : bool) (g : Tree -> nat) items :
  (forall x_exit name child label,
      edge_label st tw x_init y_init x_exit name child = Ok label -> p label = bl) ->
  (forall x_exit child arr,
      edge_arrow st tw x_init y_init x_exit child = Ok arr -> p arr = ba) ->
  Forall (fun kv => forall x drawn,
              plot_on st x y_child (snd kv) [] = Ok drawn ->
              List.length (filter p drawn) = g (snd kv))
         items ->
  forall x_exit drawn,
    plot_children st tw x_init y_init
      (fun x c ax => plot_on st x y_child c ax) items x_exit [] = Ok drawn ->
    List.length (filter p drawn)
    = list_sum (map (fun kv => (Nat.b2n bl + Nat.b2n ba + g (snd kv))%nat) items).
Proof.
  intros Hl Ha. induction 1 as [|[name child] items Hc _ IH]; intros x_exit drawn Hdrawn.
  - injection Hdrawn as <-. reflexivity.
  - cbn [plot_children app] in Hdrawn.
    apply bind_Ok in Hdrawn. destruct Hdrawn as (label & Hlabel & Hdrawn).
    apply bind_Ok in Hdrawn. destruct Hdrawn as (arr & Harr & Hdrawn).
    apply bind_Ok in Hdrawn. destruct Hdrawn as (ax1 & Hchild & Hdrawn).
    apply bind_Ok in Hdrawn. destruct Hdrawn as (x' & Hx' & Hdrawn).
    rewrite plot_on_appends in Hchild.
    apply bind_Ok in Hchild. destruct Hchild as (child_drawn & Hchild & E).
    injection E as <-.
    rewrite plot_children_appends in Hdrawn
      by (apply Forall_forall; intros kv _ x; apply plot_on_appends).
    apply bind_Ok in Hdrawn. destruct Hdrawn as (rest & Hrest & E).
    injection E as <-.
    cbn [app filter]. rewrite (Hl _ _ _ _ Hlabel), (Ha _ _ _ Harr).
    cbn [snd] in Hc. cbn [map list_sum fold_right snd].
    change (fold_right Nat.add 0%nat) with list_sum.
    rewrite <- (IH _ _ Hrest), <- (Hc _ _ Hchild).
    destruct bl, ba; cbn [Nat.b2n List.length]; rewrite filter_app, length_app; lia.
Qed.

Lemma edge_label_is_text st tw x_init y_init x_exit name child label :
  edge_label st tw x_init y_init x_exit name child = Ok label ->
  exists x y ha, label = text x y name ha va_bottom (arrow_label_color st) 6 false.
Proof.
  unfold edge_label. intros H.
  apply bind_Ok in H. destruct H as (xl & _ & H).
  apply bind_Ok in H. destruct H as (yl & _ & H).
  apply bind_Ok in H. destruct H as (x & _ & H).
  destruct (py_gt xl x); apply bind_Ok in H; destruct H as (lx & _ & H);
    injection H as <-; now eexists _, _, _.
Qed.

Lemma edge_arrow_is_arrow st tw x_init y_init x_exit child arr :
  edge_arrow st tw x_init y_init x_exit child = Ok arr ->
  exists x y dx dy, arr = arrow x y dx dy (arrow_color st).
Proof.
  unfold edge_arrow. intros H.
  repeat (let a := fresh "v" in
          apply bind_Ok in H; destruct H as (a & _ & H)).
  injection H as <-. now eexists _, _, _, _.
Qed.

(** X12. [plot] draws each node once and each edge once: as many ellipses
    as the tree has nodes, one arrow less, and as many texts as nodes and
    edges together. *)
Theorem X12_artists_count (st : style) (t : Tree) : forall (x_init y_init : pynum) drawn,
  plot_on st x_init y_init t [] = Ok drawn ->
  List.length (filter is_ellipse drawn) = List.length (nodes t)
  /\ List.length (filter is_arrow drawn) = (List.length (nodes t) - 1)%nat
  /\ List.length (filter is_text drawn) = (2 * List.length (nodes t) - 1)%nat.
Proof.
  induction t as [j c ch h w IH] using Tree_ind. intros x_init y_init drawn Hdrawn.
  rewrite plot_on_root in Hdrawn. cbn [children content] in Hdrawn.
  apply bind_Ok in Hdrawn. destruct Hdrawn as (tw & Htw & Hdrawn).
  apply bind_Ok in Hdrawn. destruct Hdrawn as (th & Hth & Hdrawn).
  apply bind_Ok in Hdrawn. destruct Hdrawn as (x & Hx & Hdrawn).
  apply bind_Ok in Hdrawn. destruct Hdrawn as (y & Hy & Hdrawn).
  apply bind_Ok in Hdrawn. destruct Hdrawn as (rest & Hrest & Hdrawn).
  injection Hdrawn as <-.
  cbn [nodes children List.length].
  rewrite length_nodes_children. cbn [filter is_ellipse is_arrow is_text List.length].
  assert (Hsum : forall (f g : string * Tree -> nat),
             Forall (fun kv => f kv = g kv) ch ->
             list_sum (map f ch) = list_sum (map g ch)).
  { intros f g HF. f_equal. apply map_ext_in. rewrite Forall_forall in HF. exact HF. }
  destruct ch as [|kv0 ch0].
  { injection Hrest as <-. cbn. repeat split. }
  set (ch := kv0 :: ch0) in *.
  assert (Hyc : exists y_child, child_y st y_init = Ok y_child).
  { subst ch. destruct kv0 as [name child]. cbn [plot_children] in Hrest.
    apply bind_Ok in Hrest. destruct Hrest as (label & _ & Hrest).
    apply bind_Ok in Hrest. destruct Hrest as (arr & _ & Hrest).
    apply bind_Ok in Hrest. destruct Hrest as (ax1 & Hchild & _).
    apply bind_Ok in Hchild. destruct Hchild as (y_child & E & _). now exists y_child. }
  destruct Hyc as (y_child & Hyc). rewrite Hyc in Hrest. cbn [bind] in Hrest.
  assert (Hlabel : forall x_exit name child label,
             edge_label st tw x_init y_init x_exit name child = Ok label ->
             is_ellipse label = false /\ is_arrow label = false /\ is_text label = true).
  { intros x_exit name child label E.
    destruct (edge_label_is_text _ _ _ _ _ _ _ _ E) as (? & ? & ? & ->). now repeat split. }
  assert (Harr : forall x_exit child arr,
             edge_arrow st tw x_init y_init x_exit child = Ok arr ->
             is_ellipse arr = false /\ is_arrow arr = true /\ is_text arr = false).
  { intros x_exit child arr E.
    destruct (edge_arrow_is_arrow _ _ _ _ _ _ _ E) as (? & ? & ? & ? & ->).
    now repeat split. }
  split; [|split].
  - rewrite (plot_children_count st tw x_init y_init y_child is_ellipse false false
               (fun c => List.length (nodes c)) ch) with (x_exit := x_init).
    + cbn [Nat.b2n Nat.add]. reflexivity.
    + intros. eapply Hlabel; eassumption.
    + intros. eapply Harr; eassumption.
    + eapply Forall_impl; [|exact IH]. intros kv Hkv x0 d Hd. apply (Hkv _ _ _ Hd).
    + exact Hrest.
  - rewrite (plot_children_count st tw x_init y_init y_child is_arrow false true
               (fun c => (List.length (nodes c) - 1)%nat) ch) with (x_exit := x_init).
    + rewrite Nat.sub_succ, Nat.sub_0_r. apply Hsum, Forall_forall. intros kv _.
      pose proof (nodes_nonempty (snd kv)). cbn [Nat.b2n]. lia.
    + intros. eapply Hlabel; eassumption.
    + intros. eapply Harr; eassumption.
    + eapply Forall_impl; [|exact IH]. intros kv Hkv x0 d Hd. apply (Hkv _ _ _ Hd).
    + exact Hrest.
  - rewrite (plot_children_count st tw x_init y_init y_child is_text true false
               (fun c => (2 * List.length (nodes c) - 1)%nat) ch) with (x_exit := x_init).
    + assert (Hstep : list_sum (map (fun kv => (Nat.b2n true + Nat.b2n false
                                                + (2 * List.length (nodes (snd kv)) - 1))%nat)
                                    ch)
                      = (2 * list_sum (map (fun kv => List.length (nodes (snd kv))) ch))%nat).
      { clear. induction ch as [|kv ch IHch]; [reflexivity|].
        cbn [map list_sum fold_right]. change (fold_right Nat.add 0%nat) with list_sum.
        rewrite IHch. pose proof (nodes_nonempty (snd kv)). cbn [Nat.b2n]. lia. }
      rewrite Hstep. lia.
    + intros. eapply Hlabel; eassumption.
    + intros. eapply Harr; eassumption.
    + eapply Forall_impl; [|exact IH]. intros kv Hkv x0 d Hd. apply (Hkv _ _ _ Hd).
    + exact Hrest.
Qed.

(** ** Total heights *)

(** X9. On sizes that are integers, a node with children is, in total
    height, one node and one gap above its highest child: it exceeds one
    child by exactly that much, and no child by less when the node height
    and the gap are together not negative. *)
Theorem X9_total_height_of_children (dic : pyval) (t n : Tree) (nodeH gapH : Z) :
  Tree_init dic = Ok t ->
  In n (nodes t) ->
  children n <> [] ->
  exists total,
    compute_total_height n (PInt nodeH) (PInt gapH) = Ok (PInt total)
    /\ (exists c below,
           In c (dict_values (children n))
           /\ compute_total_height c (PInt nodeH) (PInt gapH) = Ok (PInt below)
           /\ total = below + (nodeH + gapH))
    /\ (0 <= nodeH + gapH ->
        forall c, In c (dict_values (children n)) ->
                  exists below,
                    compute_total_height c (PInt nodeH) (PInt gapH) = Ok (PInt below)
                    /\ below + (nodeH + gapH) <= total).
Proof.
  intros Ht Hn Hne.
  apply Tree_init_all_nodes_ok in Ht. unfold all_nodes_ok in Ht.
  rewrite Forall_forall in Ht.
  destruct (Ht n Hn) as (_ & Hbranch & _).
  assert (Hcs : dict_values (children n) <> []).
  { unfold dict_values. destruct (children n); [now elim Hne | discriminate]. }
  destruct (Hbranch Hcs) as (_ & (cmax & Hin & Hh) & Hup).
  eexists. split; [apply compute_total_height_int|]. split.
  - exists cmax. eexists. split; [exact Hin|].
    split; [apply compute_total_height_int|]. rewrite Hh. lia.
  - intros Hpos c Hc. eexists. split; [apply compute_total_height_int|].
    pose proof (Hup c Hc). nia.
Qed.

(** ** Where the children are drawn *)

Lemma x_exit_after_app st l1 : forall x l2,
  x_exit_after st x (l1 ++ l2)
  = (x' <- x_exit_after st x l1 ;; x_exit_after st x' l2).
Proof.
  induction l1 as [|kv l1 IH]; intros x l2; [reflexivity|].
  cbn [app x_exit_after].
  destruct (next_x_exit st x (snd kv)) as [x'|e]; [|reflexivity].
  cbn [bind]. apply IH.
Qed.

(** On [int] sizes, from an [int], the abscissa moves by the widths of the
    children drawn and as many gaps. *)
Lemma x_exit_after_int st (a b : Z) l :
  node_width st = PInt a -> gap_width st = PInt b ->
  forall x,
    x_exit_after st (PInt x) l
    = Ok (PInt (x + Zsum (map width (dict_values l)) * (a + b))).
Proof.
  intros Ha Hb. induction l as [|kv l IH]; intros x.
  - cbn. f_equal. f_equal. lia.
  - cbn [x_exit_after]. unfold next_x_exit. rewrite Ha, Hb, compute_total_width_int.
    cbn [bind py_add py_binop]. rewrite IH. f_equal. f_equal.
    change (Zsum (map width (dict_values (kv :: l))))
      with (width (snd kv) + Zsum (map width (dict_values l))).
    ring.
Qed.

Lemma Zsum_app l1 l2 : Zsum (l1 ++ l2) = Zsum l1 + Zsum l2.
Proof. induction l1 as [|x l1 IH]; [reflexivity|]. unfold Zsum in *. cbn. lia. Qed.

Lemma Zsum_widths_nonneg (l : list (string * Tree)) :
  Forall (fun kv => all_nodes_ok (snd kv)) l -> 0 <= Zsum (map width (dict_values l)).
Proof.
  induction 1 as [|kv l Hkv _ IH]; [discriminate|].
  change (Zsum (map width (dict_values (kv :: l))))
    with (width (snd kv) + Zsum (map width (dict_values l))).
  pose proof (all_nodes_ok_root _ Hkv) as (_ & _ & Hw & _). lia.
Qed.

(** X10. On sizes that are integers, from an integer [x_init]: at a node of
    a constructed tree the children fill the width of the node, so that
    after the last child the abscissa stands one gap past the right end of
    the node.  With a node width and a gap that are not negative, every
    child is drawn between the two ends of the node. *)
Theorem X10_children_fill_width (dic : pyval) (t n : Tree) (st : style)
        (nodeW gapW x_init : Z)
        (before after : list (string * Tree)) (name : string) (child : Tree) :
  Tree_init dic = Ok t ->
  In n (nodes t) ->
  children n = (before ++ (name, child) :: after)%list ->
  node_width st = PInt nodeW ->
  gap_width st = PInt gapW ->
  exists total child_total x_exit x_last,
    compute_total_width n (node_width st) (gap_width st) = Ok (PInt total)
    /\ compute_total_width child (node_width st) (gap_width st) = Ok (PInt child_total)
    /\ x_exit_after st (PInt x_init) before = Ok (PInt x_exit)
    /\ x_exit_after st (PInt x_init) (children n) = Ok (PInt x_last)
    /\ x_last = x_init + total + gapW
    /\ (0 <= nodeW -> 0 <= gapW ->
        x_init <= x_exit /\ x_exit + child_total <= x_init + total).
Proof.
  intros Ht Hn Hch Ha Hb.
  apply Tree_init_all_nodes_ok in Ht.
  pose proof (all_nodes_ok_sub t n Ht Hn) as Hok.
  pose proof (all_nodes_ok_root n Hok) as (_ & Hbranch & _).
  assert (Hcs : dict_values (children n) <> []).
  { rewrite Hch. unfold dict_values. rewrite map_app. now destruct (map snd before). }
  destruct (Hbranch Hcs) as (Hw & _).
  pose proof (all_nodes_ok_children n Hok) as Hall.
  rewrite Hch in Hall. apply Forall_app in Hall. destruct Hall as [Hbefore Hrest].
  apply Forall_cons_iff in Hrest. destruct Hrest as [Hchild Hafter]. cbn [snd] in Hchild.
  pose proof (Zsum_widths_nonneg _ Hbefore) as Hb0.
  pose proof (Zsum_widths_nonneg _ Hafter) as Ha0.
  pose proof (all_nodes_ok_root _ Hchild) as (_ & _ & Hcw & _).
  rewrite Hch in Hw. unfold dict_values in Hw.
  rewrite !map_app, Zsum_app in Hw. cbn [map snd] in Hw.
  change (Zsum (width child :: map width (map snd after)))
    with (width child + Zsum (map width (dict_values after))) in Hw.
  fold (dict_values before) in Hw.
  set (wb := Zsum (map width (dict_values before))) in *.
  set (wa := Zsum (map width (dict_values after))) in *.
  do 4 eexists.
  rewrite Ha, Hb, !compute_total_width_int.
  rewrite !(x_exit_after_int st nodeW gapW _ Ha Hb).
  split; [reflexivity|]. split; [reflexivity|]. split; [reflexivity|].
  split; [reflexivity|].
  rewrite Hch. unfold dict_values at 1. rewrite !map_app, Zsum_app. cbn [map snd].
  change (Zsum (width child :: map width (map snd after))) with (width child + wa).
  fold (dict_values before). fold wb.
  split; [lia|].
  intros Hnw Hgw. nia.
Qed.


(** ** A clause and its body *)

Lemma strip_prefix_app p q s :
  strip_prefix (p ++ q) s
  = match strip_prefix p s with
    | Some r => strip_prefix q r
    | None => None
    end.
Proof.
  revert s. induction p as [|a p IH]; intros s; [reflexivity|].
  cbn. destruct s as [|b s]; [reflexivity|].
  destruct (Ascii.eqb a b); [apply IH | reflexivity].
Qed.

Lemma space_not_word c : is_space c = true -> is_word c = false.
Proof.
  destruct c as [b0 b1 b2 b3 b4 b5 b6 b7].
  destruct b0, b1, b2, b3, b4, b5, b6, b7; (discriminate || reflexivity).
Qed.

Lemma search_if_word_of_if indent line clause :
  search_if indent line = Some clause -> search_if_word indent line = true.
Proof.
  unfold search_if, search_if_word.
  destruct (strip_prefix (indent ++ "if") line) as [[|c rest]|]; try discriminate.
  destruct (is_space c) eqn:E; [|discriminate]. intros _.
  now rewrite (space_not_word c E).
Qed.

Lemma strip_prefix_cons a p b s :
  strip_prefix (String a p) (String b s)
  = if Ascii.eqb a b then strip_prefix p s else None.
Proof. reflexivity. Qed.

Lemma search_body_not_if indent line :
  search_body indent line = true -> search_if indent line = None.
Proof.
  unfold search_body, search_if. rewrite strip_prefix_app.
  destruct (strip_prefix indent line) as [[|c rest]|]; try discriminate.
  intros Hc. rewrite strip_prefix_cons.
  destruct (Ascii.eqb_spec "i" c) as [<-|_]; [discriminate Hc | reflexivity].
Qed.

Lemma search_else_only indent line :
  search_else indent line = true ->
  search_if indent line = None
  /\ search_body indent line = false
  /\ search_elif indent line = None.
Proof.
  unfold search_else, search_if, search_body, search_elif. rewrite !strip_prefix_app.
  destruct (strip_prefix indent line) as [r|]; [|discriminate].
  destruct r as [|c1 r]; [discriminate|]. rewrite !strip_prefix_cons.
  destruct (Ascii.eqb_spec "e" c1) as [<-|_]; [|discriminate].
  destruct r as [|c2 r]; [discriminate|]. rewrite !strip_prefix_cons.
  destruct (Ascii.eqb_spec "l" c2) as [<-|_]; [|discriminate].
  destruct r as [|c3 r]; [discriminate|]. rewrite !strip_prefix_cons.
  destruct (Ascii.eqb_spec "s" c3) as [<-|_]; [|discriminate].
  intros _. repeat split.
Qed.

Lemma fold_scan_body indent body : forall st,
  start st = true ->
  (forall b, In b body -> search_body indent b = true) ->
  fold_left (scan_line indent) body st
  = mkScan (permeated st) (subtrees st) (initial_clause st) (cur_clause st)
           (cur_subtree st ++ body) true.
Proof.
  induction body as [|b body IH]; intros [p s i c cur st] Hst Hb; cbn in Hst; subst st.
  - cbn. now rewrite app_nil_r.
  - cbn [fold_left]. unfold scan_line at 2.
    cbn [start permeated subtrees initial_clause cur_clause cur_subtree negb andb].
    pose proof (Hb b (or_introl eq_refl)) as Hbody.
    rewrite (search_body_not_if _ _ Hbody), Hbody.
    rewrite IH; [|reflexivity | intros l Hl; apply Hb; now right].
    cbn. now rewrite <- app_assoc.
Qed.

Lemma nonempty_true {A : Type} (l : list A) : l <> [] -> nonempty l = true.
Proof. destruct l; [intros H; now elim H | reflexivity]. Qed.

Lemma parse_python_rec_S n first rest carried :
  parse_python_rec (S n) (first :: rest) carried
  = (let st := scan_lines (leading_space first) (first :: rest) carried in
     options <-
       list_comprehension
         (fun x =>
            tree <- parse_python_rec n (snd x) (permeated st) ;;
            Ok (PDict [("value", clause_label (fst x)); ("tree", tree)]))
         (filter (fun x => nonempty (snd x)) (subtrees st)) ;;
     match initial_clause st with
     | Some clause =>
         Ok (PDict [("content", PStr (strip clause)); ("options", PList options)])
     | None =>
         Ok (PDict [("content",
                     PStr (String.concat (String newline "") (map strip (permeated st))))])
     end).
Proof. reflexivity. Qed.

Lemma scan_line_first_if indent carried line clause :
  search_if indent line = Some clause ->
  scan_line indent (scan_init carried) line
  = mkScan carried [] (Some clause) (Some clause) [] true.
Proof.
  intros Hif. unfold scan_line. cbn [scan_init start negb andb].
  rewrite (search_if_word_of_if _ _ _ Hif), Hif. reflexivity.
Qed.

Lemma scan_line_else indent st line :
  start st = true ->
  search_else indent line = true ->
  scan_line indent st line
  = mkScan (permeated st) (subtrees st ++ [(cur_clause st, cur_subtree st)])
           (initial_clause st) (Some default_label) [] true.
Proof.
  intros Hst Helse. unfold scan_line. rewrite Hst. cbn [negb andb].
  destruct (search_else_only _ _ Helse) as (E1 & E2 & E3).
  now rewrite E1, E2, E3, Helse.
Qed.

Lemma scan_lines_if_body indent first body clause carried :
  search_if indent first = Some clause ->
  (forall b, In b body -> search_body indent b = true) ->
  scan_lines indent (first :: body) carried
  = mkScan carried [(Some clause, body)] (Some clause) (Some clause) body true.
Proof.
  intros Hif Hbody. unfold scan_lines. cbn [fold_left].
  rewrite (scan_line_first_if _ _ _ _ Hif).
  rewrite (fold_scan_body _ _ (mkScan carried [] (Some clause) (Some clause) [] true)
             eq_refl Hbody).
  reflexivity.
Qed.

Lemma scan_lines_if_else indent first else_line body1 body2 clause carried :
  search_if indent first = Some clause ->
  search_else indent else_line = true ->
  (forall b, In b (body1 ++ body2) -> search_body indent b = true) ->
  scan_lines indent (first :: body1 ++ else_line :: body2) carried
  = mkScan carried [(Some clause, body1); (Some default_label, body2)]
           (Some clause) (Some default_label) body2 true.
Proof.
  intros Hif Helse Hbody. unfold scan_lines. cbn [fold_left].
  rewrite (scan_line_first_if _ _ _ _ Hif), fold_left_app.
  rewrite (fold_scan_body _ body1 (mkScan carried [] (Some clause) (Some clause) [] true)
             eq_refl)
    by (intros b Hb; apply Hbody, in_or_app; now left).
  cbn [fold_left permeated subtrees initial_clause cur_clause cur_subtree app].
  rewrite (scan_line_else _ (mkScan carried [] (Some clause) (Some clause) body1 true)
             _ eq_refl Helse).
  cbn [permeated subtrees initial_clause cur_clause cur_subtree app].
  rewrite (fold_scan_body _ body2
             (mkScan carried [(Some clause, body1)] (Some clause) (Some default_label)
                     [] true) eq_refl)
    by (intros b Hb; apply Hbody, in_or_app; now right).
  reflexivity.
Qed.

(** X16. A line that opens an [if] clause, followed by the lines of its
    body and nothing else, parses to a node whose content is the clause,
    stripped, with one option: its label is the clause and its tree is
    what the parser returns on the body, with the same carried lines. *)
Theorem X16_if_with_body (first : string) (body : list string) (clause : string)
        (carried : option (list string)) :
  search_if (leading_space first) first = Some clause ->
  body <> [] ->
  (forall b, In b body -> search_body (leading_space first) b = true) ->
  parse_python (first :: body) carried
  = (tree <- parse_python body (Some (carried_lines carried)) ;;
     Ok (PDict [("content", PStr (strip clause));
                ("options", PList [parsed_option_of clause tree])])).
Proof.
  intros Hif Hne Hbody. unfold parse_python.
  change (List.length (first :: body)) with (S (List.length body)).
  rewrite parse_python_rec_S. fold (carried_lines carried).
  rewrite (scan_lines_if_body _ _ _ _ _ Hif Hbody). cbv zeta.
  cbn [permeated subtrees initial_clause filter snd].
  rewrite (nonempty_true body Hne). cbn [list_comprehension fst snd clause_label].
  destruct (parse_python_rec (S (List.length body)) body (carried_lines carried));
    reflexivity.
Qed.

(** X17. An [if] clause with its body followed by an [else] line with its
    body parses to a node with two options in that order, the clause and
    the default label, over what the parser returns on the two bodies. *)
Theorem X17_if_else_bodies (first else_line : string) (body1 body2 : list string)
        (clause : string) (carried : option (list string)) :
  search_if (leading_space first) first = Some clause ->
  search_else (leading_space first) else_line = true ->
  body1 <> [] -> body2 <> [] ->
  (forall b, In b (body1 ++ body2) -> search_body (leading_space first) b = true) ->
  parse_python (first :: body1 ++ else_line :: body2) carried
  = (tree1 <- parse_python body1 (Some (carried_lines carried)) ;;
     tree2 <- parse_python body2 (Some (carried_lines carried)) ;;
     Ok (PDict [("content", PStr (strip clause));
                ("options", PList [parsed_option_of clause tree1;
                                   parsed_option_of default_label tree2])])).
Proof.
  intros Hif Helse Hne1 Hne2 Hbody. unfold parse_python.
  set (n := List.length (first :: body1 ++ else_line :: body2)).
  assert (Hn1 : (List.length body1 < n)%nat)
    by (subst n; cbn [List.length]; rewrite length_app; lia).
  assert (Hn2 : (List.length body2 < n)%nat)
    by (subst n; cbn [List.length]; rewrite length_app; cbn [List.length]; lia).
  rewrite parse_python_rec_S. fold (carried_lines carried).
  rewrite (scan_lines_if_else _ _ _ _ _ _ _ Hif Helse Hbody). cbv zeta.
  cbn [permeated subtrees initial_clause filter snd].
  rewrite (nonempty_true body1 Hne1), (nonempty_true body2 Hne2).
  cbn [list_comprehension fst snd clause_label].
  rewrite (parse_python_rec_stable n (S (List.length body1)) body1 _ Hn1) by lia.
  rewrite (parse_python_rec_stable n (S (List.length body2)) body2 _ Hn2) by lia.
  cbn [carried_lines].
  destruct (parse_python_rec (S (List.length body1)) body1 (carried_lines carried));
    [|reflexivity].
  destruct (parse_python_rec (S (List.length body2)) body2 (carried_lines carried));
    reflexivity.
Qed.

(** X18. A clause without body lines gives no option.  An [if] line alone
    parses to a record with an empty list of options, and an [if] line
    followed at once by an [else] line with its body parses to a node with
    the single option of the default label. *)
Theorem X18_empty_body_dropped (first : string) (clause : string)
        (carried : option (list string)) :
  search_if (leading_space first) first = Some clause ->
  parse_python [first] carried
  = Ok (PDict [("content", PStr (strip clause)); ("options", PList [])])
  /\ forall else_line body,
      search_else (leading_space first) else_line = true ->
      body <> [] ->
      (forall b, In b body -> search_body (leading_space first) b = true) ->
      parse_python (first :: else_line :: body) carried
      = (tree <- parse_python body (Some (carried_lines carried)) ;;
         Ok (PDict [("content", PStr (strip clause));
                    ("options", PList [parsed_option_of default_label tree])])).
Proof.
  intros Hif. split.
  - unfold parse_python. cbn [List.length]. rewrite parse_python_rec_S.
    rewrite (scan_lines_if_body _ _ [] _ _ Hif) by (intros b []).
    reflexivity.
  - intros else_line body Helse Hne Hbody. unfold parse_python.
    set (n := List.length (first :: else_line :: body)).
    assert (Hn : (List.length body < n)%nat) by (subst n; cbn [List.length]; lia).
    rewrite parse_python_rec_S. fold (carried_lines carried).
    rewrite (scan_lines_if_else _ _ _ [] body _ _ Hif Helse Hbody). cbv zeta.
    cbn [permeated subtrees initial_clause filter snd nonempty].
    rewrite (nonempty_true body Hne). cbn [list_comprehension fst snd clause_label].
    rewrite (parse_python_rec_stable n (S (List.length body)) body _ Hn) by lia.
    cbn [carried_lines].
    destruct (parse_python_rec (S (List.length body)) body (carried_lines carried));
      reflexivity.
Qed.

(** ** What [plot] raises *)

Lemma overflow_only_Ok {A : Type} (a : A) : overflow_only (Ok a).
Proof. intros e H. discriminate H. Qed.

Lemma overflow_only_bind {A B : Type} (r : pyresult A) (k : A -> pyresult B) :
  overflow_only r -> (forall a, overflow_only (k a)) -> overflow_only (bind r k).
Proof.
  intros Hr Hk e H. destruct r as [a|e']; cbn [bind] in H.
  - exact (Hk a e H).
  - injection H as <-. now apply Hr.
Qed.

Lemma float_of_int_overflow z : overflow_only (float_of_int z).
Proof.
  intros e. unfold float_of_int.
  destruct (binary_normalize prec emax z 0 false); intros H; try discriminate H.
  now injection H as <-.
Qed.

Lemma as_float_overflow a : overflow_only (as_float a).
Proof. destruct a; [apply float_of_int_overflow | apply overflow_only_Ok]. Qed.

Lemma py_binop_overflow on_int on_float a b :
  overflow_only (py_binop on_int on_float a b).
Proof.
  unfold py_binop.
  destruct a as [x|f], b as [y|g]; try apply overflow_only_Ok;
    (apply overflow_only_bind; [apply as_float_overflow|]; intros ?;
     apply overflow_only_bind; [apply as_float_overflow|]; intros ?;
     apply overflow_only_Ok).
Qed.

Lemma py_half_overflow a : overflow_only (py_half a).
Proof.
  apply overflow_only_bind; [apply as_float_overflow|]. intros ?. apply overflow_only_Ok.
Qed.

Create HintDb overflow.

#[local] Hint Resolve overflow_only_Ok py_half_overflow as_float_overflow : overflow.
#[local] Hint Extern 1 (overflow_only (py_add _ _)) => apply py_binop_overflow : overflow.
#[local] Hint Extern 1 (overflow_only (py_sub _ _)) => apply py_binop_overflow : overflow.
#[local] Hint Extern 1 (overflow_only (py_mul _ _)) => apply py_binop_overflow : overflow.
#[local] Hint Extern 2 (overflow_only (bind _ _)) =>
  apply overflow_only_bind; [|intros ?] : overflow.
#[local] Hint Extern 2 (overflow_only (if _ then _ else _)) =>
  match goal with |- context [if ?b then _ else _] => destruct b end : overflow.

Lemma compute_total_width_overflow t a b : overflow_only (compute_total_width t a b).
Proof. unfold compute_total_width. auto 10 with overflow. Qed.

Lemma compute_total_height_overflow t a b : overflow_only (compute_total_height t a b).
Proof. unfold compute_total_height. auto 10 with overflow. Qed.

#[local] Hint Resolve compute_total_width_overflow compute_total_height_overflow : overflow.

Lemma centre_x_overflow tw x : overflow_only (centre_x tw x).
Proof. unfold centre_x. auto 10 with overflow. Qed.

Lemma centre_y_overflow st y : overflow_only (centre_y st y).
Proof. unfold centre_y. auto 10 with overflow. Qed.

Lemma child_y_overflow st y : overflow_only (child_y st y).
Proof. unfold child_y. auto 10 with overflow. Qed.

#[local] Hint Resolve centre_x_overflow centre_y_overflow child_y_overflow : overflow.

Lemma edge_label_overflow st tw x_init y_init x_exit name child :
  overflow_only (edge_label st tw x_init y_init x_exit name child).
Proof. unfold edge_label, label_x, label_y. auto 20 with overflow. Qed.

Lemma edge_arrow_overflow st tw x_init y_init x_exit child :
  overflow_only (edge_arrow st tw x_init y_init x_exit child).
Proof. unfold edge_arrow. auto 20 with overflow. Qed.

Lemma next_x_exit_overflow st x_exit child : overflow_only (next_x_exit st x_exit child).
Proof. unfold next_x_exit. auto 10 with overflow. Qed.

#[local] Hint Resolve edge_label_overflow edge_arrow_overflow next_x_exit_overflow : overflow.

Lemma plot_children_overflow st tw x_init y_init plot_child items :
  Forall (fun kv => forall x ax, overflow_only (plot_child x (snd kv) ax)) items ->
  forall x_exit ax,
    overflow_only (plot_children st tw x_init y_init plot_child items x_exit ax).
Proof.
  induction 1 as [|[name child] items Hc _ IH]; intros x_exit ax; cbn [plot_children].
  - apply overflow_only_Ok.
  - cbn [snd] in Hc.
    apply overflow_only_bind; [auto with overflow|]. intros label.
    apply overflow_only_bind; [auto with overflow|]. intros arr.
    apply overflow_only_bind; [apply Hc|]. intros ax1.
    apply overflow_only_bind; [auto with overflow|]. intros x'. apply IH.
Qed.

Lemma plot_on_overflow st t : forall x_init y_init ax,
  overflow_only (plot_on st x_init y_init t ax).
Proof.
  induction t as [j c ch h w IH] using Tree_ind. intros x_init y_init ax.
  rewrite plot_on_unfold.
  apply overflow_only_bind; [auto with overflow|]. intros tw.
  apply overflow_only_bind; [auto with overflow|]. intros th.
  apply overflow_only_bind; [auto with overflow|]. intros x.
  apply overflow_only_bind; [auto with overflow|]. intros y.
  apply plot_children_overflow. cbn [children].
  eapply Forall_impl; [|exact IH]. intros kv Hkv x0 ax0.
  apply overflow_only_bind; [auto with overflow|]. intros y_child. apply Hkv.
Qed.


(** ** The comparison of doubles *)

#[local] Open Scope Q_scope.

Lemma two_power_pos (e : Z) : 0 < 2 ^ e.
Proof. apply Qpower_0_lt. reflexivity. Qed.

Lemma magnitude_pos m e : 0 < magnitude m e.
Proof.
  unfold magnitude. apply Qmult_lt_0_compat; [|apply two_power_pos].
  change 0 with (inject_Z 0). rewrite <- Zlt_Qlt. reflexivity.
Qed.

Lemma canonical_digits (m : positive) (e : Z) :
  canonical_mantissa prec emax m e = true ->
  (Zpos (digits2_pos m) <= 53 /\ -1074 <= e
   /\ (-1074 < e -> Zpos (digits2_pos m) = 53))%Z.
Proof.
  unfold canonical_mantissa, fexp, emin, prec, emax. intros H.
  apply Z.eqb_eq in H. lia.
Qed.

Lemma magnitude_lt (mx my : positive) (ex ey : Z) :
  canonical_mantissa prec emax mx ex = true ->
  canonical_mantissa prec emax my ey = true ->
  (ex < ey)%Z ->
  magnitude mx ex < magnitude my ey.
Proof.
  intros Hx Hy Hlt.
  apply canonical_digits in Hx, Hy.
  destruct Hx as (Hdx & Hex & _). destruct Hy as (_ & _ & Hdy).
  specialize (Hdy ltac:(lia)).
  pose proof (digits2_pos_bounds mx) as [_ Hmx].
  pose proof (digits2_pos_bounds my) as [Hmy _].
  rewrite Hdy in Hmy. change (2 ^ (53 - 1))%Z with (2 ^ 52)%Z in Hmy.
  assert (Hmx' : (Zpos mx < 2 ^ 53)%Z).
  { eapply Z.lt_le_trans; [exact Hmx|]. apply Z.pow_le_mono_r; lia. }
  assert (Hk : (2 ^ 1 <= 2 ^ (ey - ex))%Z) by (apply Z.pow_le_mono_r; lia).
  assert (HZ : (Zpos mx < Zpos my * 2 ^ (ey - ex))%Z).
  { change (2 ^ 1)%Z with 2%Z in Hk. change (2 ^ 53)%Z with (2 ^ 52 * 2)%Z in Hmx'. nia. }
  unfold magnitude.
  assert (E : 2 ^ ey == inject_Z (2 ^ (ey - ex)) * 2 ^ ex).
  { rewrite Zpower_Qpower by lia. change (inject_Z 2) with 2.
    rewrite <- Qpower_plus by discriminate. now replace (ey - ex + ex)%Z with ey by lia. }
  rewrite E, Qmult_assoc, <- inject_Z_mult.
  apply Qmult_lt_compat_r; [apply two_power_pos|].
  now rewrite <- Zlt_Qlt.
Qed.

Lemma magnitude_compare (mx my : positive) (ex ey : Z) :
  canonical_mantissa prec emax mx ex = true ->
  canonical_mantissa prec emax my ey = true ->
  Qcompare (magnitude mx ex) (magnitude my ey)
  = match (ex ?= ey)%Z with
    | Lt => Lt
    | Gt => Gt
    | Eq => Pos.compare mx my
    end.
Proof.
  intros Hx Hy. destruct (ex ?= ey)%Z eqn:E.
  - apply Z.compare_eq in E. subst ey. unfold magnitude.
    destruct (Pos.compare mx my) eqn:Em.
    + apply Pos.compare_eq in Em. subst my. apply (proj1 (Qeq_alt _ _)). apply Qeq_refl.
    + apply Qlt_alt. apply Qmult_lt_compat_r; [apply two_power_pos|].
      rewrite <- Zlt_Qlt. now apply Pos.compare_lt_iff in Em.
    + apply Qgt_alt. apply Qmult_lt_compat_r; [apply two_power_pos|].
      rewrite <- Zlt_Qlt. apply Pos.compare_gt_iff in Em. exact Em.
  - apply Qlt_alt. apply magnitude_lt; assumption.
  - apply Qgt_alt. apply magnitude_lt; try assumption.
    apply Z.compare_gt_iff in E. exact E.
Qed.

Lemma Qcompare_opp (a b : Q) : Qcompare (- a) (- b) = Qcompare b a.
Proof.
  destruct (Qcompare b a) eqn:E.
  - apply Qeq_alt in E. apply Qeq_alt. now rewrite E.
  - apply Qlt_alt in E. apply Qlt_alt. now apply Qopp_lt_compat.
  - apply Qgt_alt in E. apply Qgt_alt. now apply Qopp_lt_compat.
Qed.

Lemma signed_magnitude (s : bool) (m : positive) (e : Z) :
  inject_Z (if s then Zneg m else Zpos m) * 2 ^ e
  == if s then - magnitude m e else magnitude m e.
Proof.
  unfold magnitude. destruct s; [|reflexivity].
  change (Zneg m) with (- Zpos m)%Z. rewrite inject_Z_opp. ring.
Qed.

Lemma Qcompare_comp (a a' b b' : Q) : a == a' -> b == b' -> Qcompare a b = Qcompare a' b'.
Proof. intros Ha Hb. now rewrite Ha, Hb. Qed.

Lemma Qcompare_lt (a b : Q) : a < b -> Qcompare a b = Lt.
Proof. apply Qlt_alt. Qed.

Lemma Qcompare_gt (a b : Q) : b < a -> Qcompare a b = Gt.
Proof. apply Qgt_alt. Qed.

(** On two doubles, [py_gt] is the comparison of the machine. *)
Lemma py_gt_machine (a b : float) : py_gt (PFloat a) (PFloat b) = PrimFloat.ltb b a.
Proof.
  rewrite ltb_spec. unfold SFltb, py_gt, extended_of.
  pose proof (Prim2SF_valid a) as Ha. pose proof (Prim2SF_valid b) as Hb.
  destruct (Prim2SF a) as [sa|sa| |sa ma ea], (Prim2SF b) as [sb|sb| |sb mb eb];
    cbn [SFcompare valid_binary] in *;
    try (destruct sa; reflexivity); try (destruct sb; reflexivity);
    try reflexivity;
    try (destruct sa; reflexivity); try (destruct sb; reflexivity);
    try (destruct sa, sb; reflexivity).
  - (* zero and finite *)
    rewrite (Qcompare_comp _ 0 _ _ (Qeq_refl 0) (signed_magnitude sb mb eb)).
    pose proof (magnitude_pos mb eb) as Hpos.
    destruct sb.
    + rewrite Qcompare_gt by lra. reflexivity.
    + rewrite Qcompare_lt by lra. reflexivity.
  - (* finite and zero *)
    rewrite (Qcompare_comp _ _ _ 0 (signed_magnitude sa ma ea) (Qeq_refl 0)).
    pose proof (magnitude_pos ma ea) as Hpos.
    destruct sa.
    + rewrite Qcompare_lt by lra. reflexivity.
    + rewrite Qcompare_gt by lra. reflexivity.
  - (* two finite doubles *)
    unfold bounded in Ha, Hb.
    apply andb_true_iff in Ha, Hb. destruct Ha as [Ha _], Hb as [Hb _].
    rewrite (Qcompare_comp _ _ _ _ (signed_magnitude sa ma ea) (signed_magnitude sb mb eb)).
    pose proof (magnitude_pos ma ea) as Hpa. pose proof (magnitude_pos mb eb) as Hpb.
    destruct sa, sb.
    + rewrite Qcompare_opp, (magnitude_compare mb ma eb ea Hb Ha).
      change (Pos.compare_cont Eq mb ma) with (Pos.compare mb ma).
      destruct (eb ?= ea)%Z; try reflexivity. now destruct (Pos.compare mb ma).
    + rewrite Qcompare_lt by lra. reflexivity.
    + rewrite Qcompare_gt by lra. reflexivity.
    + rewrite (magnitude_compare ma mb ea eb Ha Hb).
      change (Pos.compare_cont Eq mb ma) with (Pos.compare mb ma).
      rewrite (Z.compare_antisym ea eb). destruct (ea ?= eb)%Z; try reflexivity.
      cbn [CompOpp]. rewrite (Pos.compare_antisym ma mb).
      now destruct (Pos.compare ma mb).
Qed.

#[local] Close Scope Q_scope.

(** ** The conversion of integers *)

Lemma Zpos_iter_xO (m k : positive) : Zpos (Pos.iter xO m k) = Zpos m * 2 ^ Zpos k.
Proof.
  induction k as [|k IH] using Pos.peano_ind.
  - cbn. lia.
  - rewrite Pos.iter_succ, Pos2Z.inj_succ, Z.pow_succ_r by lia.
    rewrite Pos2Z.inj_xO, IH. ring.
Qed.

(** The conversion of an integer below [2 ^ 53]: a double of that sign whose
    mantissa of 53 digits stands for the integer. *)
Lemma binary_round_exact (s : bool) (m : positive) :
  Zpos m < 2 ^ 53 ->
  exists (m' : positive) (k : Z),
    binary_round prec emax s m 0 = S754_finite s m' (- k)
    /\ 0 <= k <= 52
    /\ Zpos m' = Zpos m * 2 ^ k
    /\ Zpos (digits2_pos m') = 53.
Proof.
  intros H. pose proof (digits2_pos_small m H) as Hd.
  unfold binary_round, shl_align, fexp, emin, prec, emax.
  set (d := digits2_pos m) in *.
  replace (Z.max (Zpos d + 0 - 53) (3 - 1024 - 53)) with (Zpos d - 53) by lia.
  destruct (Zpos d - 53 - 0) as [|k|k] eqn:Ek; try lia.
  - unfold binary_round_aux, shr_fexp, fexp, emin. cbn [Zdigits2 shr_record_of_loc].
    fold d. replace (Z.max (Zpos d + 0 - 53) (3 - 1024 - 53) - 0) with 0 by lia.
    cbn [shr shr_m loc_of_shr_record round_nearest_even Zdigits2 shr_record_of_loc].
    fold d. replace (Z.max (Zpos d + 0 - 53) (3 - 1024 - 53) - 0) with 0 by lia.
    cbn [shr shr_m]. exists m, 0. cbn [Z.opp Z.leb Z.compare].
    split; [reflexivity|]. split; [lia|]. split; [lia|]. fold d. lia.
  - unfold binary_round_aux, shr_fexp, fexp, emin. cbn [Zdigits2 shr_record_of_loc].
    rewrite digits2_pos_shift. fold d.
    replace (Z.max (Zpos (d + k) + (Zpos d - 53) - 53) (3 - 1024 - 53) - (Zpos d - 53))
      with 0 by lia.
    cbn [shr shr_m loc_of_shr_record round_nearest_even Zdigits2 shr_record_of_loc].
    rewrite digits2_pos_shift. fold d.
    replace (Z.max (Zpos (d + k) + (Zpos d - 53) - 53) (3 - 1024 - 53) - (Zpos d - 53))
      with 0 by lia.
    cbn [shr shr_m].
    destruct (Zpos d - 53 <=? 1024 - 53) eqn:E; [|apply Z.leb_gt in E; lia].
    exists (Pos.iter xO m k), (Zpos k).
    replace (Zpos d - 53) with (- Zpos k) by lia.
    split; [reflexivity|]. split; [lia|]. split; [apply Zpos_iter_xO|].
    rewrite digits2_pos_shift. fold d. lia.
Qed.

#[local] Open Scope Q_scope.

(** An integer below [2 ^ 53] in absolute value is converted to the double
    that stands for it: no rounding. *)
Lemma float_of_int_exact (z : Z) :
  (Z.abs z < 2 ^ 53)%Z ->
  exists f q, float_of_int z = Ok f /\ value (PFloat f) = Some q /\ q == inject_Z z.
Proof.
  intros H. unfold float_of_int, binary_normalize.
  destruct z as [|m|m].
  - exists 0%float, 0. repeat split; reflexivity.
  - destruct (binary_round_exact false m H) as (m' & k & -> & Hk & Hm & Hd).
    eexists _, _. split; [reflexivity|].
    unfold value, extended_of. rewrite Prim2SF_SF2Prim.
    + split; [reflexivity|]. rewrite Hm, inject_Z_mult, Zpower_Qpower by lia.
      change (inject_Z 2) with 2. rewrite <- Qmult_assoc, <- Qpower_plus by discriminate.
      replace (k + - k)%Z with 0%Z by lia. change (2 ^ 0) with 1. ring.
    + cbn [valid_binary]. unfold bounded, canonical_mantissa, fexp, emin, prec, emax.
      rewrite Hd. apply andb_true_iff. split; [apply Z.eqb_eq | apply Z.leb_le]; lia.
  - destruct (binary_round_exact true m H) as (m' & k & -> & Hk & Hm & Hd).
    eexists _, _. split; [reflexivity|].
    unfold value, extended_of. rewrite Prim2SF_SF2Prim.
    + split; [reflexivity|].
      change (Zneg m') with (- Zpos m')%Z. change (Zneg m) with (- Zpos m)%Z.
      rewrite !inject_Z_opp, Hm, inject_Z_mult, Zpower_Qpower by lia.
      change (inject_Z 2) with 2.
      setoid_replace (- (inject_Z (Z.pos m) * 2 ^ k) * 2 ^ (- k))
        with (- inject_Z (Z.pos m) * (2 ^ k * 2 ^ (- k))) by ring.
      rewrite <- Qpower_plus by discriminate.
      replace (k + - k)%Z with 0%Z by lia. change (2 ^ 0) with 1. ring.
    + cbn [valid_binary]. unfold bounded, canonical_mantissa, fexp, emin, prec, emax.
      rewrite Hd. apply andb_true_iff. split; [apply Z.eqb_eq | apply Z.leb_le]; lia.
Qed.

#[local] Close Scope Q_scope.

(** ** The further statements at work on the examples *)

#[local] Close Scope Q_scope.

Lemma X1_witness :
  KeyError schema_message = KeyError schema_message
  \/ KeyError schema_message = TypeError
  \/ KeyError schema_message = AttributeError.
Proof.
  exact (X1_Tree_init_errors (PDict incomplete_record) (KeyError schema_message) eq_refl).
Defined.

Lemma X2_witness :
  record_shape example_record = true
  /\ entries_complete example_record = true
  /\ dict_wf example_record = true.
Proof.
  exact (X2_parse_python_record ["if a:"; "    x"; "else:"; "    y"] None
           example_record eq_refl).
Defined.

Lemma X3_witness : exists t, from_python ["z"] = Ok t.
Proof. apply X3_from_python_returns. discriminate. Defined.

Lemma X4_witness : from_json (to_json example_tree) = Ok example_tree.
Proof.
  exact (X4_from_python_round_trip ["if a:"; "    x"; "else:"; "    y"]
           example_tree eq_refl).
Defined.

Lemma X5_witness :
  parse_python ["  y"; "z "] None = Ok (leaf_record ("y" ++ String newline "z")).
Proof.
  apply (X5_no_if_is_leaf "  y" ["z "] None).
  intros line [<-|[<-|[]]]; reflexivity.
Defined.

Lemma X6_witness :
  parse_python ["    if a:"; "        x"; "    else:"; "        y"] None
  = parse_python ["if a:"; "    x"; "else:"; "    y"] None.
Proof.
  exact (X6_indentation_invariance "    " ["if a:"; "    x"; "else:"; "    y"] None
           eq_refl).
Defined.

Lemma X7_witness :
  Forall2 (fun x kv =>
             entry_label x = Some (fst kv)
             /\ exists tree, entry_tree x = Some tree /\ Tree_init tree = Ok (snd kv))
          [PDict [("value", PStr "a"); ("tree", leaf_record "x")];
           PDict [("value", PStr default_label); ("tree", leaf_record "y")]]
          (children example_tree).
Proof.
  apply (X7_distinct_labels
           [("content", PStr "a");
            ("options",
             PList [PDict [("value", PStr "a"); ("tree", leaf_record "x")];
                    PDict [("value", PStr default_label); ("tree", leaf_record "y")]])]
           _ example_tree eq_refl eq_refl).
  constructor; [|constructor; [easy | constructor]].
  intros [H|[]]. discriminate H.
Defined.

Lemma X8_witness :
  width example_tree = Z.of_nat (leaves example_tree)
  /\ height example_tree = Z.of_nat (levels example_tree).
Proof. exact (X8_width_height_count example_record example_tree eq_refl). Defined.

Lemma X9_witness :
  exists total,
    compute_total_height example_tree (PInt 20) (PInt 30) = Ok (PInt total)
    /\ (exists c below,
           In c (dict_values (children example_tree))
           /\ compute_total_height c (PInt 20) (PInt 30) = Ok (PInt below)
           /\ total = below + (20 + 30))
    /\ (0 <= 20 + 30 ->
        forall c, In c (dict_values (children example_tree)) ->
                  exists below,
                    compute_total_height c (PInt 20) (PInt 30) = Ok (PInt below)
                    /\ below + (20 + 30) <= total).
Proof.
  apply (X9_total_height_of_children example_record example_tree example_tree 20 30).
  - reflexivity.
  - left. reflexivity.
  - discriminate.
Defined.

Lemma X10_witness :
  exists total child_total x_exit x_last,
    compute_total_width example_tree (PInt 30) (PInt 10) = Ok (PInt total)
    /\ compute_total_width (leaf "x") (PInt 30) (PInt 10) = Ok (PInt child_total)
    /\ x_exit_after default_style (PInt 0) [] = Ok (PInt x_exit)
    /\ x_exit_after default_style (PInt 0) (children example_tree) = Ok (PInt x_last)
    /\ x_last = 0 + total + 10
    /\ (0 <= 30 -> 0 <= 10 -> 0 <= x_exit /\ x_exit + child_total <= 0 + total).
Proof.
  exact (X10_children_fill_width example_record example_tree example_tree
           default_style 30 10 0 [] [(default_label, leaf "y")] "a" (leaf "x")
           eq_refl (or_introl eq_refl) eq_refl eq_refl eq_refl).
Defined.

Lemma X12_witness :
  exists drawn,
    plot_on default_style (PInt 0) (PInt 0) example_tree [] = Ok drawn
    /\ List.length (filter is_ellipse drawn) = List.length (nodes example_tree)
    /\ List.length (filter is_arrow drawn) = (List.length (nodes example_tree) - 1)%nat
    /\ List.length (filter is_text drawn) = (2 * List.length (nodes example_tree) - 1)%nat.
Proof.
  eexists. split; [vm_compute; reflexivity|].
  apply (X12_artists_count default_style example_tree (PInt 0) (PInt 0)).
  vm_compute. reflexivity.
Defined.


Lemma X16_witness :
  parse_python ["if a:"; "    x"] None
  = (tree <- parse_python ["    x"] (Some []) ;;
     Ok (PDict [("content", PStr (strip "a"));
                ("options", PList [parsed_option_of "a" tree])])).
Proof.
  apply (X16_if_with_body "if a:" ["    x"] "a" None).
  - reflexivity.
  - discriminate.
  - intros b [<-|[]]. reflexivity.
Defined.

Lemma X17_witness :
  parse_python ["if a:"; "    x"; "else:"; "    y"] None
  = (tree1 <- parse_python ["    x"] (Some []) ;;
     tree2 <- parse_python ["    y"] (Some []) ;;
     Ok (PDict [("content", PStr (strip "a"));
                ("options", PList [parsed_option_of "a" tree1;
                                   parsed_option_of default_label tree2])])).
Proof.
  apply (X17_if_else_bodies "if a:" "else:" ["    x"] ["    y"] "a" None).
  - reflexivity.
  - reflexivity.
  - discriminate.
  - discriminate.
  - intros b [<-|[<-|[]]]; reflexivity.
Defined.

Lemma X18_witness :
  parse_python ["if a:"] None
  = Ok (PDict [("content", PStr (strip "a")); ("options", PList [])]).
Proof. exact (proj1 (X18_empty_body_dropped "if a:" "a" None eq_refl)). Defined.

